(** * match-blast: the board model, the turn counters and the booster
      controllers, embedded from the TypeScript sources.

    Numbers are modelled as unbounded integers ([Z]); every quantity the
    game manipulates (indices, counters, scores) is a small integer, on
    which JavaScript's doubles are exact.  A JavaScript array is a [list];
    a two-dimensional array is a list of rows. *)

From Stdlib Require Import ZArith List Bool Lia.
From stdpp Require Import base tactics option list.
Import ListNotations.

(** ** shared/types.ts *)

Module TileColor.
Inductive t := Green | Blue | Purple | Red | Yellow | MegaBomb.
#[global] Instance eq_dec : EqDecision t.
Proof. solve_decision. Defined.
End TileColor.

(** List of regular tile colors used for random generation. *)
Definition TILE_COLORS : list TileColor.t :=
  [TileColor.Green; TileColor.Blue; TileColor.Purple; TileColor.Red;
   TileColor.Yellow].

Module TileSpecial.
Inductive t := None | MegaBomb.
#[global] Instance eq_dec : EqDecision t.
Proof. solve_decision. Defined.
End TileSpecial.

(** [TileColor | null]: [None] is the empty cell. *)
Definition Cell := option TileColor.t.
Definition TileGrid := list (list Cell).

Record TilePos := mkPos { row : Z; col : Z }.

#[export] Instance TilePos_eq_dec : EqDecision TilePos.
Proof. solve_decision. Defined.

(** ** Two-dimensional arrays

    [mget m r c] is the element [m[r][c]] when both indices lie inside the
    array, and [None] otherwise; [mset m r c x] is the assignment
    [m[r][c] = x] for indices inside the array. *)

Definition mget {A} (m : list (list A)) (r c : Z) : option A :=
  if ((r <? 0) || (c <? 0))%Z then None
  else m !! Z.to_nat r ≫= (.!! Z.to_nat c).

Definition mset {A} (m : list (list A)) (r c : Z) (x : A) : list (list A) :=
  if ((r <? 0) || (c <? 0))%Z then m
  else alter (<[Z.to_nat c := x]>) (Z.to_nat r) m.

(** ** Counted loops

    [loopUp n body st] runs [for (i = 0; i < n; i++) body(i)];
    [loopDown n body st] runs [for (i = n - 1; i >= 0; i--) body(i)]. *)

Fixpoint loopUp {S} (n : nat) (body : Z -> S -> S) (st : S) : S :=
  match n with
  | O => st
  | S n' => body (Z.of_nat n') (loopUp n' body st)
  end.

Fixpoint loopDown {S} (n : nat) (body : Z -> S -> S) (st : S) : S :=
  match n with
  | O => st
  | S n' => loopDown n' body (body (Z.of_nat n') st)
  end.

(** Loops that only append to a list. *)
Definition collect {A} (n : nat) (f : Z -> list A) : list A :=
  loopUp n (fun i acc => acc ++ f i) [].

(** ** domain/BoardModel.ts *)

Record GravityMovement :=
  mkMove { from : TilePos; to : TilePos; color : TileColor.t }.

Record RefillInfo := mkRefill { pos : TilePos; refillColor : TileColor.t }.

Record BoardModel := mkBoard {
  rows : Z;
  cols : Z;
  availableColors : list TileColor.t;
  grid : TileGrid;
  specialGrid : list (list TileSpecial.t)
}.

(** The constructor: an absent or empty palette falls back to
    [TILE_COLORS]; both grids start as empty arrays. *)
Definition newBoardModel (nrows ncols : Z) (colors : list TileColor.t)
  : BoardModel :=
  mkBoard nrows ncols
    (match colors with [] => TILE_COLORS | _ => colors end) [] [].

Definition setGrids (b : BoardModel) (g : TileGrid)
    (s : list (list TileSpecial.t)) : BoardModel :=
  mkBoard (rows b) (cols b) (availableColors b) g s.

Definition inBounds (b : BoardModel) (r c : Z) : bool :=
  ((0 <=? r) && (r <? rows b) && (0 <=? c) && (c <? cols b))%Z.

(** Reads of [grid[r][c]] and [specialGrid[r][c]].  Every read in
    BoardModel is guarded by [inBounds] or by the loop bounds, so on a
    board of the declared geometry the index is always inside the array;
    the defaults below are never used there. *)
Definition cellAt (g : TileGrid) (r c : Z) : Cell :=
  default None (mget g r c).

Definition specialAt (s : list (list TileSpecial.t)) (r c : Z)
  : TileSpecial.t :=
  default TileSpecial.None (mget s r c).

(** [Math.floor(Math.random() * n)] takes any value among [0 .. n-1]; the
    draws are supplied by an oracle [pick], one natural number per cell,
    reduced modulo the palette size. *)
Definition drawColor (b : BoardModel) (pick : Z -> Z -> nat) (r c : Z)
  : TileColor.t :=
  default TileColor.Green
    (availableColors b !! (pick r c mod length (availableColors b))%nat).

Definition randomFill (pick : Z -> Z -> nat) (b : BoardModel) : BoardModel :=
  let nr := Z.to_nat (rows b) in
  let nc := Z.to_nat (cols b) in
  let fill :=
    loopUp nr (fun r '(g, s) =>
      let '(rowArr, specialRow) :=
        loopUp nc (fun c '(ra, sr) =>
          (ra ++ [Some (drawColor b pick r c)], sr ++ [TileSpecial.None]))
          ([], []) in
      (g ++ [rowArr], s ++ [specialRow])) ([], []) in
  setGrids b (fst fill) (snd fill).

Definition getSpecial (b : BoardModel) (r c : Z) : TileSpecial.t :=
  if negb (inBounds b r c) then TileSpecial.None
  else specialAt (specialGrid b) r c.

Definition setSpecial (b : BoardModel) (r c : Z) (special : TileSpecial.t)
  : BoardModel :=
  if negb (inBounds b r c) then b
  else setGrids b (grid b) (mset (specialGrid b) r c special).

Definition isMegaBomb (b : BoardModel) (r c : Z) : bool :=
  bool_decide (getSpecial b r c = TileSpecial.MegaBomb).

(** *** Group search (4-neighbour flood fill)

    The explicit stack is a list whose head is the top.  The [while] loop
    is run with a fuel counter; [findGroup] supplies enough fuel for every
    board (see [findGroup_total]). *)

Definition neighbours (p : TilePos) : list TilePos :=
  [ mkPos (row p - 1) (col p);     (* up *)
    mkPos (row p + 1) (col p);     (* down *)
    mkPos (row p) (col p - 1);     (* left *)
    mkPos (row p) (col p + 1) ].   (* right *)

(** Four [push]es in the order up, down, left, right leave right on top. *)
Definition pushNeighbours (p : TilePos) (stack : list TilePos)
  : list TilePos :=
  rev (neighbours p) ++ stack.

Fixpoint findGroupLoop (fuel : nat) (b : BoardModel)
    (startColor : TileColor.t) (visited : list (list bool))
    (stack group : list TilePos) : option (list TilePos) :=
  match fuel with
  | O => None
  | S fuel' =>
    match stack with
    | [] => Some group
    | p :: stack' =>
      if negb (inBounds b (row p) (col p)) then
        findGroupLoop fuel' b startColor visited stack' group
      else if default false (mget visited (row p) (col p)) then
        findGroupLoop fuel' b startColor visited stack' group
      else
        let visited' := mset visited (row p) (col p) true in
        if bool_decide (cellAt (grid b) (row p) (col p) = Some startColor)
        then findGroupLoop fuel' b startColor visited'
               (pushNeighbours p stack') (group ++ [p])
        else findGroupLoop fuel' b startColor visited' stack' group
    end
  end.

Definition findGroupFuel (b : BoardModel) : nat :=
  5 * (Z.to_nat (rows b) * Z.to_nat (cols b)) + 2.

Definition findGroup (b : BoardModel) (startRow startCol : Z)
  : option (list TilePos) :=
  if negb (inBounds b startRow startCol) then Some []
  else
    match cellAt (grid b) startRow startCol with
    | None => Some []
    | Some startColor =>
      let visited :=
        replicate (Z.to_nat (rows b)) (replicate (Z.to_nat (cols b)) false) in
      findGroupLoop (findGroupFuel b) b startColor visited
        [mkPos startRow startCol] []
    end.

(** *** Group removal *)

(** The body of the [for (const { row, col } of group)] loop (the early
    return on an absent or empty group is the loop run on no cell). *)
Definition removeCell (b : BoardModel)
    (gs : TileGrid * list (list TileSpecial.t)) (p : TilePos)
  : TileGrid * list (list TileSpecial.t) :=
  if negb (inBounds b (row p) (col p)) then gs
  else (mset (fst gs) (row p) (col p) None,
        mset (snd gs) (row p) (col p) TileSpecial.None).

Definition removeGroup (b : BoardModel) (group : list TilePos) : BoardModel :=
  let gs := foldl (removeCell b) (grid b, specialGrid b) group in
  setGrids b (fst gs) (snd gs).

(** *** Gravity *)

Record GravityState := mkGravity {
  gGrid : TileGrid;
  gSpecial : list (list TileSpecial.t);
  gMoves : list GravityMovement
}.

(** One iteration of the bottom-up walk over column [c]; the loop state
    carries [writeRow]. *)
Definition gravityStep (c r : Z) (st : GravityState * Z) : GravityState * Z :=
  let '(gs, writeRow) := st in
  match cellAt (gGrid gs) r c with
  | None => st
  | Some clr =>
    if bool_decide (writeRow <> r) then
      let spec := specialAt (gSpecial gs) r c in
      let g1 := mset (gGrid gs) writeRow c (Some clr) in
      let g2 := mset g1 r c None in
      let s1 := mset (gSpecial gs) writeRow c spec in
      let s2 := mset s1 r c TileSpecial.None in
      (mkGravity g2 s2
         (gMoves gs ++ [mkMove (mkPos r c) (mkPos writeRow c) clr]),
       (writeRow - 1)%Z)
    else (gs, (writeRow - 1)%Z)
  end.

(** Everything above [writeRow] becomes empty. *)
Definition gravityClear (c r : Z) (gs : GravityState) : GravityState :=
  mkGravity (mset (gGrid gs) r c None)
            (mset (gSpecial gs) r c TileSpecial.None)
            (gMoves gs).

Definition gravityColumn (nrows : Z) (c : Z) (gs : GravityState)
  : GravityState :=
  let '(gs1, writeRow) :=
    loopDown (Z.to_nat nrows) (gravityStep c) (gs, (nrows - 1)%Z) in
  loopDown (Z.to_nat (writeRow + 1)) (gravityClear c) gs1.

Definition applyGravity (b : BoardModel)
  : BoardModel * list GravityMovement :=
  let gs :=
    loopUp (Z.to_nat (cols b)) (gravityColumn (rows b))
      (mkGravity (grid b) (specialGrid b) []) in
  (setGrids b (gGrid gs) (gSpecial gs), gMoves gs).

(** *** Refill *)

Definition refillEmptyCells (pick : Z -> Z -> nat) (b : BoardModel)
  : BoardModel * list RefillInfo :=
  let '(g, s, refilled) :=
    loopUp (Z.to_nat (rows b)) (fun r st =>
      loopUp (Z.to_nat (cols b)) (fun c '(g, s, refilled) =>
        match cellAt g r c with
        | None =>
          let clr := drawColor b pick r c in
          (mset g r c (Some clr), mset s r c TileSpecial.None,
           refilled ++ [mkRefill (mkPos r c) clr])
        | Some _ => (g, s, refilled)
        end) st)
      (grid b, specialGrid b, []) in
  (setGrids b g s, refilled).

(** *** Move availability *)

Definition hasAnyMoves (b : BoardModel) (minGroupSize : Z) : bool :=
  if (minGroupSize <=? 1)%Z then true
  else
    existsb (fun r =>
      existsb (fun c =>
        match cellAt (grid b) r c with
        | None => false
        | Some clr =>
          (inBounds b (r + 1) c
             && bool_decide (cellAt (grid b) (r + 1) c = Some clr))
          || (inBounds b r (c + 1)
             && bool_decide (cellAt (grid b) r (c + 1) = Some clr))
        end) (seqZ 0 (cols b))) (seqZ 0 (rows b)).

(** *** Tile swap *)

Definition swapTiles (b : BoardModel) (a a' : TilePos) : BoardModel :=
  if negb (inBounds b (row a) (col a))
     || negb (inBounds b (row a') (col a')) then b
  else
    let g := grid b in
    let s := specialGrid b in
    let tmp := cellAt g (row a) (col a) in
    let g1 := mset g (row a) (col a) (cellAt g (row a') (col a')) in
    let g2 := mset g1 (row a') (col a') tmp in
    let tmpSpec := specialAt s (row a) (col a) in
    let s1 := mset s (row a) (col a) (specialAt s (row a') (col a')) in
    let s2 := mset s1 (row a') (col a') tmpSpec in
    setGrids b g2 s2.

(** *** Full clear and count *)

Definition clearAllTiles (b : BoardModel) : BoardModel * list TilePos :=
  let '(g, s, removed) :=
    loopUp (Z.to_nat (rows b)) (fun r st =>
      loopUp (Z.to_nat (cols b)) (fun c '(g, s, removed) =>
        match cellAt g r c with
        | Some _ =>
          (mset g r c None, mset s r c TileSpecial.None,
           removed ++ [mkPos r c])
        | None => (g, s, removed)
        end) st)
      (grid b, specialGrid b, []) in
  (setGrids b g s, removed).

Definition countNonEmptyTiles (b : BoardModel) : Z :=
  loopUp (Z.to_nat (rows b)) (fun r count =>
    loopUp (Z.to_nat (cols b)) (fun c count =>
      match cellAt (grid b) r c with
      | Some _ => (count + 1)%Z
      | None => count
      end) count) 0%Z.

(** ** app/AppConfig.ts *)

Module BoardConfig.
Definition rows : Z := 9.
Definition cols : Z := 9.
End BoardConfig.

Module GameConfig.
Definition minGroupSize : Z := 2.
Definition baseScorePerTile : Z := 10.
Definition startMoves : Z := 20.
Definition targetScore : Z := 500.
Definition reshuffleLimit : Z := 3.
Definition startTeleports : Z := 5.
Definition bombRadius : Z := 1.
Definition startBombs : Z := 3.
Definition megaBombMinGroupSize : Z := 5.
Definition megaBombScoreMultiplier : Z := 2.
End GameConfig.

(** ** app/GameState.ts

    Every method mutates [this.data]; here it returns the new data next to
    its result. *)

Module GameState.
Local Open Scope Z_scope.

Inductive Reason := win | lose.

(** ['win' | 'lose' | null] *)
Definition GameOverReason := option Reason.

Record GameStateData := mkData {
  score : Z;
  movesLeft : Z;
  targetScore : Z;
  gameOver : bool;
  gameOverReason : GameOverReason;
  reshufflesLeft : Z;
  bombsLeft : Z;
  teleportsLeft : Z
}.

(** The constructor. *)
Definition new : GameStateData :=
  mkData 0 GameConfig.startMoves GameConfig.targetScore false None
    GameConfig.reshuffleLimit GameConfig.startBombs
    GameConfig.startTeleports.

Definition setScore (d : GameStateData) (v : Z) : GameStateData :=
  mkData v (movesLeft d) (targetScore d) (gameOver d) (gameOverReason d)
    (reshufflesLeft d) (bombsLeft d) (teleportsLeft d).

Definition setMovesLeft (d : GameStateData) (v : Z) : GameStateData :=
  mkData (score d) v (targetScore d) (gameOver d) (gameOverReason d)
    (reshufflesLeft d) (bombsLeft d) (teleportsLeft d).

Definition setGameOver (d : GameStateData) (r : Reason) : GameStateData :=
  mkData (score d) (movesLeft d) (targetScore d) true (Some r)
    (reshufflesLeft d) (bombsLeft d) (teleportsLeft d).

Definition setReshufflesLeft (d : GameStateData) (v : Z) : GameStateData :=
  mkData (score d) (movesLeft d) (targetScore d) (gameOver d)
    (gameOverReason d) v (bombsLeft d) (teleportsLeft d).

Definition setBombsLeft (d : GameStateData) (v : Z) : GameStateData :=
  mkData (score d) (movesLeft d) (targetScore d) (gameOver d)
    (gameOverReason d) (reshufflesLeft d) v (teleportsLeft d).

Definition setTeleportsLeft (d : GameStateData) (v : Z) : GameStateData :=
  mkData (score d) (movesLeft d) (targetScore d) (gameOver d)
    (gameOverReason d) (reshufflesLeft d) (bombsLeft d) v.

Definition canRemoveGroup (d : GameStateData) (size : Z) : bool :=
  if gameOver d then false else GameConfig.minGroupSize <=? size.

Definition updateGameOver (d : GameStateData) : GameStateData :=
  if gameOver d then d
  else if targetScore d <=? score d then setGameOver d win
  else if movesLeft d <=? 0 then setGameOver d lose
  else d.

Definition applyGroup (d : GameStateData) (size : Z)
  : GameStateData * Z :=
  if negb (canRemoveGroup d size) then (d, 0)
  else
    let gained := size * GameConfig.baseScorePerTile in
    let d1 := setScore d (score d + gained) in
    let d2 := setMovesLeft d1 (movesLeft d1 - 1) in
    (updateGameOver d2, gained).

Definition canUseReshuffle (d : GameStateData) : bool :=
  if gameOver d then false else 0 <? reshufflesLeft d.

Definition useReshuffle (d : GameStateData) : GameStateData * bool :=
  if negb (canUseReshuffle d) then (d, false)
  else (setReshufflesLeft d (reshufflesLeft d - 1), true).

Definition canUseBomb (d : GameStateData) : bool :=
  if gameOver d then false else 0 <? bombsLeft d.

Definition useBomb (d : GameStateData) : GameStateData * bool :=
  if negb (canUseBomb d) then (d, false)
  else (setBombsLeft d (bombsLeft d - 1), true).

Definition applyBomb (d : GameStateData) (count : Z)
  : GameStateData * Z :=
  if gameOver d || (count <=? 0) then (d, 0)
  else
    let gained := count * GameConfig.baseScorePerTile in
    let d1 := setScore d (score d + gained) in
    (updateGameOver d1, gained).

Definition canUseTeleport (d : GameStateData) : bool :=
  if gameOver d then false else 0 <? teleportsLeft d.

Definition useTeleport (d : GameStateData) : GameStateData * bool :=
  if negb (canUseTeleport d) then (d, false)
  else (setTeleportsLeft d (teleportsLeft d - 1), true).

(** The calls a client can make on a GameState, and their effect on the
    data. *)
Inductive Call :=
| CallApplyGroup (size : Z)
| CallApplyBomb (count : Z)
| CallUseReshuffle
| CallUseBomb
| CallUseTeleport.

Definition exec (d : GameStateData) (c : Call) : GameStateData :=
  match c with
  | CallApplyGroup size => fst (applyGroup d size)
  | CallApplyBomb count => fst (applyBomb d count)
  | CallUseReshuffle => fst (useReshuffle d)
  | CallUseBomb => fst (useBomb d)
  | CallUseTeleport => fst (useTeleport d)
  end.

(** The states a fresh GameState reaches under any sequence of calls. *)
Inductive reachable : GameStateData -> Prop :=
| reach_new : reachable new
| reach_call d c : reachable d -> reachable (exec d c).
(** What every reachable state satisfies: no counter is negative, and a
    game that is not over has a move left. *)
Definition counters_ok (d : GameStateData) : Prop :=
  0 <= movesLeft d /\ 0 <= reshufflesLeft d /\ 0 <= bombsLeft d
  /\ 0 <= teleportsLeft d /\ (gameOver d = false -> 1 <= movesLeft d).
End GameState.

(** ** Controllers

    A controller keeps a reference to the board ([null] until [setBoard]).
    The record field holds the referenced board itself: a mutation made
    through the reference is the new value of the field. *)

Module TeleportController.
Inductive TeleportClickResult :=
| select (pos : TilePos)
| deselect (pos : TilePos)
| reselect (from to : TilePos)
| swap (from to : TilePos).

Record t := mk {
  boardModel : option BoardModel;
  active : bool;
  first : option TilePos
}.

Definition new (b : option BoardModel) : t := mk b false None.

Definition isActive (tc : t) : bool := active tc.

Definition resetSelection (tc : t) : t :=
  mk (boardModel tc) (active tc) None.

Definition toggle (tc : t) : t * bool :=
  let tc1 := mk (boardModel tc) (negb (active tc)) (first tc) in
  (resetSelection tc1, active tc1).

Definition reset (tc : t) : t :=
  let tc1 := resetSelection tc in
  mk (boardModel tc1) false (first tc1).

Definition setBoard (tc : t) (b : BoardModel) : t :=
  reset (mk (Some b) (active tc) (first tc)).

Definition handleClick (tc : t) (payloadRow payloadCol : Z)
  : t * option TeleportClickResult :=
  if negb (active tc) then (tc, None)
  else
    match boardModel tc with
    | None => (tc, None)
    | Some b =>
      let pos := mkPos payloadRow payloadCol in
      match first tc with
      | None => (mk (Some b) (active tc) (Some pos), Some (select pos))
      | Some f =>
        if bool_decide (row f = row pos) && bool_decide (col f = col pos)
        then (mk (Some b) (active tc) None, Some (deselect f))
        else
          let dr := Z.abs (row f - row pos) in
          let dc := Z.abs (col f - col pos) in
          let isNeighbor := bool_decide ((dr + dc)%Z = 1%Z) in
          if negb isNeighbor then
            (mk (Some b) (active tc) (Some pos), Some (reselect f pos))
          else
            let b' := swapTiles b f pos in
            (mk (Some b') false None, Some (swap f pos))
      end
    end.
End TeleportController.

Module BombController.
Record t := mk {
  board : option BoardModel;
  active : bool;
  radius : Z
}.

Definition new (b : option BoardModel) : t :=
  mk b false GameConfig.bombRadius.

Definition setBoard (bc : t) (b : option BoardModel) : t :=
  mk b false (radius bc).

Definition setRadius (bc : t) (r : Z) : t := mk (board bc) (active bc) r.
Definition getRadius (bc : t) : Z := radius bc.
Definition reset (bc : t) : t := mk (board bc) false (radius bc).
Definition toggle (bc : t) : t := mk (board bc) (negb (active bc)) (radius bc).
Definition isActive (bc : t) : bool := active bc.

(** [for (i = lo; i <= hi; i++)], towards increasing [i]. *)
Definition loopRange {S} (lo hi : Z) (body : Z -> S -> S) (st : S) : S :=
  loopUp (Z.to_nat (hi - lo + 1)) (fun i => body (lo + i)%Z) st.

Definition handleClick (bc : t) (r0 c0 : Z) : t * list TilePos :=
  if negb (active bc) then (bc, [])
  else
    match board bc with
    | None => (bc, [])
    | Some b =>
      let bc' := mk (Some b) false (radius bc) in
      let R := radius bc in
      let cells :=
        loopRange (r0 - R) (r0 + R) (fun r cells =>
          loopRange (c0 - R) (c0 + R) (fun c cells =>
            if ((r <? 0) || (rows b <=? r) || (c <? 0) || (cols b <=? c))%Z
            then cells
            else
              match cellAt (grid b) r c with
              | None => cells
              | Some _ => cells ++ [mkPos r c]
              end) cells) [] in
      (bc', cells)
    end.
End BombController.

(** How a call that indexes the grid without a bounds check can end; [S]
    is the state the call leaves behind, [A] its result. *)
Inductive Completion (S A : Type) : Type :=
| Returns (s : S) (a : A)
    (** normal return *)
| Throws (s : S)
    (** a TypeError: [grid[r]] is [undefined] and is indexed *)
| OffGrid.
    (** [grid[r][c] = v] with [c] outside the row: JavaScript stores the
        value outside the [cols] columns, and the row stops being a row of
        the board's geometry *)
Arguments Returns {S A} s a.
Arguments Throws {S A} s.
Arguments OffGrid {S A}.

(** An unguarded read [m[r][c]]. *)
Inductive JsRead (A : Type) : Type :=
| ReadThrows
| ReadUndefined
| ReadValue (a : A).
Arguments ReadThrows {A}.
Arguments ReadUndefined {A}.
Arguments ReadValue {A} a.

Definition jsRead {A} (m : list (list A)) (r c : Z) : JsRead A :=
  if (r <? 0)%Z then ReadThrows
  else
    match m !! Z.to_nat r with
    | None => ReadThrows
    | Some rowArr =>
      if (c <? 0)%Z then ReadUndefined
      else
        match rowArr !! Z.to_nat c with
        | None => ReadUndefined
        | Some x => ReadValue x
        end
    end.

Module MegaBombController.
Record MegaBombCreationResult := mkCreation {
  created : bool;
  center : option TilePos;
  removedCells : list TilePos
}.

Record MegaBombExplosionResult := mkExplosion {
  explodedCells : list TilePos;
  totalTiles : Z
}.

Record t := mk {
  board : option BoardModel;
  minGroupSize : Z
}.

Definition setBoard (mc : t) (b : option BoardModel) : t :=
  mk b (minGroupSize mc).

Definition canCreateFromSize (mc : t) (size : Z) : bool :=
  (minGroupSize mc <=? size)%Z.

Definition isMegaBomb (mc : t) (r c : Z) : Completion t bool :=
  match board mc with
  | None => Returns mc false
  | Some b =>
    match jsRead (grid b) r c with
    | ReadThrows => Throws mc
    | ReadUndefined => Returns mc false
    | ReadValue x =>
      Returns mc (bool_decide (x = Some TileColor.MegaBomb))
    end
  end.

Definition createFromGroup (mc : t) (group : list TilePos) (ctr : TilePos)
  : Completion t MegaBombCreationResult :=
  match board mc with
  | None => Returns mc (mkCreation false None [])
  | Some b =>
    let size := Z.of_nat (length group) in
    if (size <? minGroupSize mc)%Z then
      Returns mc (mkCreation false None [])
    else
      let withoutCenter :=
        List.filter (fun p =>
          negb (bool_decide (row p = row ctr)
                && bool_decide (col p = col ctr))) group in
      let b1 := removeGroup b withoutCenter in
      (* grid[center.row][center.col] = MegaBomb: the assignment indexes
         the grid unguarded, as a read does *)
      match jsRead (grid b1) (row ctr) (col ctr) with
      | ReadThrows => Throws (mk (Some b1) (minGroupSize mc))
      | ReadUndefined => OffGrid
      | ReadValue _ =>
        let g := mset (grid b1) (row ctr) (col ctr)
                   (Some TileColor.MegaBomb) in
        Returns (mk (Some (setGrids b1 g (specialGrid b1)))
                    (minGroupSize mc))
                (mkCreation true (Some ctr) withoutCenter)
      end
  end.

Definition explode (mc : t) (r0 c0 : Z)
  : Completion t (option MegaBombExplosionResult) :=
  match board mc with
  | None => Returns mc None
  | Some b =>
    match jsRead (grid b) r0 c0 with
    | ReadThrows => Throws mc
    | ReadUndefined => Returns mc None
    | ReadValue x =>
      if negb (bool_decide (x = Some TileColor.MegaBomb)) then
        Returns mc None
      else
        let removed :=
          loopUp (Z.to_nat (rows b)) (fun r removed =>
            loopUp (Z.to_nat (cols b)) (fun c removed =>
              match cellAt (grid b) r c with
              | Some _ => removed ++ [mkPos r c]
              | None => removed
              end) removed) [] in
        let total := Z.of_nat (length removed) in
        if bool_decide (total = 0%Z) then Returns mc None
        else
          Returns (mk (Some (removeGroup b removed)) (minGroupSize mc))
                  (Some (mkExplosion removed total))
    end
  end.
End MegaBombController.

(** ** Statement vocabulary *)

(** A board has its declared geometry when both grids are [rows] arrays of
    [cols] elements (what [randomFill] builds and every operation
    preserves). *)
Definition wfMatrix {A} (nrows ncols : Z) (m : list (list A)) : Prop :=
  length m = Z.to_nat nrows /\ Forall (fun r => length r = Z.to_nat ncols) m.

Definition wfBoard (b : BoardModel) : Prop :=
  wfMatrix (rows b) (cols b) (grid b)
  /\ wfMatrix (rows b) (cols b) (specialGrid b).

Definition manhattan (p q : TilePos) : Z :=
  (Z.abs (row p - row q) + Z.abs (col p - col q))%Z.

Definition chebyshev (p q : TilePos) : Z :=
  Z.max (Z.abs (row p - row q)) (Z.abs (col p - col q)).

(** What one iteration of the inner loop of [BombController.handleClick]
    appends. *)
Definition bombCell (b : BoardModel) (r c : Z) : list TilePos :=
  if ((r <? 0) || (rows b <=? r) || (c <? 0) || (cols b <=? c))%Z then []
  else match cellAt (grid b) r c with
       | None => []
       | Some _ => [mkPos r c]
       end.

(** No cell of the special layer is marked. *)
Definition allNone (s : list (list TileSpecial.t)) : Prop :=
  Forall (Forall (eq TileSpecial.None)) s.

(** The boards a game can hold: a freshly constructed board filled by
    [randomFill], then any of the public operations, among them the two
    mega-bomb operations of a controller attached to the board (with the
    board they leave behind when they return and when they throw). *)
Inductive boardReachable : BoardModel -> Prop :=
| reach_new nrows ncols colors pick :
    boardReachable (randomFill pick (newBoardModel nrows ncols colors))
| reach_randomFill b pick :
    boardReachable b -> boardReachable (randomFill pick b)
| reach_removeGroup b group :
    boardReachable b -> boardReachable (removeGroup b group)
| reach_applyGravity b :
    boardReachable b -> boardReachable (fst (applyGravity b))
| reach_refillEmptyCells b pick :
    boardReachable b -> boardReachable (fst (refillEmptyCells pick b))
| reach_swapTiles b p q :
    boardReachable b -> boardReachable (swapTiles b p q)
| reach_clearAllTiles b :
    boardReachable b -> boardReachable (fst (clearAllTiles b))
| reach_createFromGroup b b' minSize group ctr res :
    boardReachable b ->
    MegaBombController.createFromGroup
      (MegaBombController.mk (Some b) minSize) group ctr
      = Returns (MegaBombController.mk (Some b') minSize) res ->
    boardReachable b'
| reach_createFromGroup_throws b b' minSize group ctr :
    boardReachable b ->
    MegaBombController.createFromGroup
      (MegaBombController.mk (Some b) minSize) group ctr
      = Throws (MegaBombController.mk (Some b') minSize) ->
    boardReachable b'
| reach_explode b b' minSize r c res :
    boardReachable b ->
    MegaBombController.explode (MegaBombController.mk (Some b) minSize) r c
      = Returns (MegaBombController.mk (Some b') minSize) res ->
    boardReachable b'.

(** Column [c] of a grid of [n] rows, from the top row down. *)
Definition column (g : TileGrid) (n : nat) (c : Z) : list Cell :=
  (fun i => cellAt g (Z.of_nat i) c) <$> seq 0 n.

(** The colors of the tiles of a column, in order, empty cells skipped. *)
Fixpoint survivors (l : list Cell) : list TileColor.t :=
  match l with
  | [] => []
  | None :: l' => survivors l'
  | Some clr :: l' => clr :: survivors l'
  end.

(** Where gravity takes the tile of row [r], column [c]: the bottom row,
    raised by one row for every tile below it in its column. *)
Definition landingRow (b : BoardModel) (r c : Z) : Z :=
  (rows b - 1
   - Z.of_nat (length (survivors
        (drop (S (Z.to_nat r))
              (column (grid b) (Z.to_nat (rows b)) c)))))%Z.

(** [p] is reached from [start] by steps between 4-adjacent cells of the
    board that all hold the color [clr]. *)
Inductive connected (b : BoardModel) (clr : TileColor.t) (start : TilePos)
  : TilePos -> Prop :=
| conn_start :
    inBounds b (row start) (col start) = true ->
    cellAt (grid b) (row start) (col start) = Some clr ->
    connected b clr start start
| conn_step p q :
    connected b clr start p ->
    manhattan p q = 1%Z ->
    inBounds b (row q) (col q) = true ->
    cellAt (grid b) (row q) (col q) = Some clr ->
    connected b clr start q.

(** Cells of the [visited] array not marked yet. *)
Definition countFalse (l : list bool) : nat := length (List.filter negb l).

Definition unvisited (v : list (list bool)) : nat :=
  foldr (fun rowArr acc => (countFalse rowArr + acc)%nat) 0%nat v.

Definition isVisited (v : list (list bool)) (p : TilePos) : Prop :=
  mget v (row p) (col p) = Some true.

(** What holds of [visited], [stack] and [group] at every turn of the
    flood-fill loop started at [start], a cell of color [clr]. *)
Definition fillInv (b : BoardModel) (clr : TileColor.t) (start : TilePos)
    (visited : list (list bool)) (stack group : list TilePos) : Prop :=
  wfMatrix (rows b) (cols b) visited
  /\ (forall p, p ∈ group -> connected b clr start p /\ isVisited visited p)
  /\ NoDup group
  /\ (forall p, isVisited visited p ->
                cellAt (grid b) (row p) (col p) = Some clr -> p ∈ group)
  /\ (forall q, q ∈ stack ->
                q = start \/ exists p, p ∈ group /\ manhattan p q = 1%Z)
  /\ (forall p q, p ∈ group -> manhattan p q = 1%Z ->
                  inBounds b (row q) (col q) = true ->
                  q ∈ stack \/ isVisited visited q)
  /\ (start ∈ stack \/ isVisited visited start).

(** What the loop's result satisfies. *)
Definition isGroup (b : BoardModel) (clr : TileColor.t) (start : TilePos)
    (g : list TilePos) : Prop :=
  start ∈ g
  /\ NoDup g
  /\ (forall p, p ∈ g -> connected b clr start p)
  /\ (forall p q, p ∈ g -> manhattan p q = 1%Z ->
                  inBounds b (row q) (col q) = true ->
                  cellAt (grid b) (row q) (col q) = Some clr -> q ∈ g).

(** [landingRow] on a column given as a list. *)
Definition landing (nrows : Z) (l0 : list Cell) (r : Z) : Z :=
  (nrows - 1 - Z.of_nat (length (survivors (drop (S (Z.to_nat r)) l0))))%Z.

(** The move gravity reports for the tile [clr] of row [r], column [c]. *)
Definition relocation (nrows : Z) (l0 : list Cell) (c r : Z)
    (clr : TileColor.t) : GravityMovement :=
  mkMove (mkPos r c) (mkPos (landing nrows l0 r) c) clr.

(** The state of the bottom-up walk over column [c] when rows [k] and
    below have been handled: [g0] is the grid and [mv0] the movement list
    at the start of the walk. *)
Definition scanInv (nrows ncols c : Z) (g0 : TileGrid)
    (mv0 : list GravityMovement) (k : nat) (st : GravityState * Z) : Prop :=
  let l0 := column g0 (Z.to_nat nrows) c in
  let tiles := survivors (drop k l0) in
  let g := gGrid (fst st) in
  let w := snd st in
  wfMatrix nrows ncols g
  /\ wfMatrix nrows ncols (gSpecial (fst st))
  /\ w = (nrows - 1 - Z.of_nat (length tiles))%Z
  /\ (forall r c', c' <> c -> cellAt g r c' = cellAt g0 r c')
  /\ (forall r, (0 <= r < Z.of_nat k)%Z -> cellAt g r c = cellAt g0 r c)
  /\ (forall r, (Z.of_nat k <= r <= w)%Z -> cellAt g r c = None)
  /\ (forall r, (w < r < nrows)%Z ->
                cellAt g r c = tiles !! Z.to_nat (r - w - 1))
  /\ (forall m, m ∈ gMoves (fst st) <->
                m ∈ mv0
                \/ exists r clr,
                     (Z.of_nat k <= r < nrows)%Z
                     /\ cellAt g0 r c = Some clr
                     /\ landing nrows l0 r <> r
                     /\ m = relocation nrows l0 c r clr)
  /\ NoDup (gMoves (fst st)).

(** Column [c] of [g] is column [c] of [g0] after compaction: the tiles
    of [g0]'s column, in order, at the bottom, and empty cells above. *)
Definition compacted (nrows c : Z) (g0 g : TileGrid) : Prop :=
  let tiles := survivors (column g0 (Z.to_nat nrows) c) in
  let w := (nrows - 1 - Z.of_nat (length tiles))%Z in
  (forall r, (0 <= r <= w)%Z -> cellAt g r c = None)
  /\ (forall r, (w < r < nrows)%Z ->
                cellAt g r c = tiles !! Z.to_nat (r - w - 1)).

(** The state of [applyGravity] on board [b] when columns [0 .. j-1] have
    been handled. *)
Definition gravityInv (b : BoardModel) (j : nat) (gs : GravityState) : Prop :=
  wfMatrix (rows b) (cols b) (gGrid gs)
  /\ wfMatrix (rows b) (cols b) (gSpecial gs)
  /\ (forall r c, ~ (0 <= c < Z.of_nat j)%Z ->
                  cellAt (gGrid gs) r c = cellAt (grid b) r c)
  /\ (forall c, (0 <= c < Z.of_nat j)%Z ->
                compacted (rows b) c (grid b) (gGrid gs))
  /\ (forall m, m ∈ gMoves gs <->
                exists r c clr,
                  (0 <= c < Z.of_nat j)%Z /\ (0 <= r < rows b)%Z
                  /\ cellAt (grid b) r c = Some clr
                  /\ landingRow b r c <> r
                  /\ m = mkMove (mkPos r c) (mkPos (landingRow b r c) c) clr)
  /\ NoDup (gMoves gs).

(** [f 0 + ... + f (n-1)]. *)
Definition sumZ (n : nat) (f : Z -> Z) : Z :=
  loopUp n (fun i acc => (acc + f i)%Z) 0%Z.

(** 1 for an occupied cell, 0 for an empty one. *)
Definition occupied (g : TileGrid) (r c : Z) : Z :=
  match cellAt g r c with Some _ => 1%Z | None => 0%Z end.

(** The number of occupied cells among the first [nr] rows and [nc]
    columns of a grid. *)
Definition countCells (nr nc : nat) (g : TileGrid) : Z :=
  sumZ nr (fun r => sumZ nc (fun c => occupied g r c)).

(** 1 for a tile, 0 for [null]. *)
Definition occupiedCell (x : Cell) : Z :=
  match x with Some _ => 1%Z | None => 0%Z end.

(** What [refillEmptyCells] leaves in a cell that held [x]. *)
Definition refilledCell (b : BoardModel) (pick : Z -> Z -> nat) (r c : Z)
    (x : Cell) : Cell :=
  match x with
  | Some clr => Some clr
  | None => Some (drawColor b pick r c)
  end.

(** Cell [(r, c)] comes before the point [(i, j)] of a row-major walk. *)
Definition walked (i j : nat) (r c : Z) : Prop :=
  (r < Z.of_nat i \/ (r = Z.of_nat i /\ c < Z.of_nat j))%Z.

(** [refillEmptyCells] and [clearAllTiles] walk the board row by row and,
    at each cell, either leave everything as it is or rewrite the cell,
    clear its special flag and append one item to their result.
    [walkStep upd item] is that step: [item r c x] is the item appended
    for a cell holding [x] (if any) and [upd r c x] the new content. *)
Definition walkStep {T} (upd : Z -> Z -> Cell -> Cell)
    (item : Z -> Z -> Cell -> option T) (r c : Z)
    (st : TileGrid * list (list TileSpecial.t) * list T)
  : TileGrid * list (list TileSpecial.t) * list T :=
  let '(g, s, l) := st in
  match item r c (cellAt g r c) with
  | Some m =>
    (mset g r c (upd r c (cellAt g r c)), mset s r c TileSpecial.None,
     l ++ [m])
  | None => st
  end.

Definition refillItem (b : BoardModel) (pick : Z -> Z -> nat) (r c : Z)
    (x : Cell) : option RefillInfo :=
  match x with
  | None => Some (mkRefill (mkPos r c) (drawColor b pick r c))
  | Some _ => None
  end.

Definition clearItem (r c : Z) (x : Cell) : option TilePos :=
  match x with
  | Some _ => Some (mkPos r c)
  | None => None
  end.

(** The state of such a walk over the grid [g0] when it has reached row
    [i], column [j]; every appended item changes the count of occupied
    cells by [delta]. *)
Definition walkInv {T} (nrows ncols : Z) (g0 : TileGrid)
    (upd : Z -> Z -> Cell -> Cell) (item : Z -> Z -> Cell -> option T)
    (delta : Z) (i j : nat)
    (st : TileGrid * list (list TileSpecial.t) * list T) : Prop :=
  let g := fst (fst st) in
  let l := snd st in
  wfMatrix nrows ncols g
  /\ wfMatrix nrows ncols (snd (fst st))
  /\ (forall r c, (0 <= r < nrows)%Z -> (0 <= c < ncols)%Z ->
        walked i j r c ->
        cellAt g r c
        = match item r c (cellAt g0 r c) with
          | Some _ => upd r c (cellAt g0 r c)
          | None => cellAt g0 r c
          end)
  /\ (forall r c, (0 <= r < nrows)%Z -> (0 <= c < ncols)%Z ->
        ~ walked i j r c -> cellAt g r c = cellAt g0 r c)
  /\ (forall m, m ∈ l <->
        exists r c, (0 <= r < nrows)%Z /\ (0 <= c < ncols)%Z
                    /\ walked i j r c
                    /\ item r c (cellAt g0 r c) = Some m)
  /\ NoDup l
  /\ countCells (Z.to_nat nrows) (Z.to_nat ncols) g
     = (countCells (Z.to_nat nrows) (Z.to_nat ncols) g0
        + delta * Z.of_nat (length l))%Z.

(** How the fields of a GameState hang together in every state a fresh
    GameState reaches: the target is the configured one, the score is not
    negative, no counter exceeds its starting value, a running game has no
    reason and has not reached the target, and a finished game has the
    reason that matches its score and moves. *)
Definition stateFacts (d : GameState.GameStateData) : Prop :=
  (GameState.targetScore d = GameConfig.targetScore
   /\ 0 <= GameState.score d
   /\ GameState.movesLeft d <= GameConfig.startMoves
   /\ GameState.reshufflesLeft d <= GameConfig.reshuffleLimit
   /\ GameState.bombsLeft d <= GameConfig.startBombs
   /\ GameState.teleportsLeft d <= GameConfig.startTeleports
   /\ (GameState.gameOver d = false ->
       GameState.gameOverReason d = None
       /\ GameState.score d < GameState.targetScore d
       /\ 1 <= GameState.movesLeft d)
   /\ (GameState.gameOver d = true ->
       (GameState.gameOverReason d = Some GameState.win
        /\ GameState.targetScore d <= GameState.score d)
       \/ (GameState.gameOverReason d = Some GameState.lose
           /\ GameState.score d < GameState.targetScore d
           /\ GameState.movesLeft d = 0)))%Z.

(** ** app/NoMovesManager.ts *)

Module NoMovesManager.
Record t := mk {
  maxReshuffles : Z;
  reshufflesLeft : Z
}.

(** The constructor. *)
Definition new (maxReshuffles : Z) : t := mk maxReshuffles maxReshuffles.

Definition reset (m : t) : t := mk (maxReshuffles m) (maxReshuffles m).

Definition getReshufflesLeft (m : t) : Z := reshufflesLeft m.

Definition canReshuffle (m : t) : bool := (0 <? reshufflesLeft m)%Z.

Definition useReshuffle (m : t) : t * bool :=
  if (reshufflesLeft m <=? 0)%Z then (m, false)
  else (mk (maxReshuffles m) (reshufflesLeft m - 1)%Z, true).
End NoMovesManager.

(** ** app/EventBus.ts

    [listeners] is a [Map<string, Handler[]>].  Handlers are functions,
    compared by identity ([indexOf] uses [===]); here they are the values
    of any type with a decidable equality. *)

From stdpp Require Import gmap strings.

Module EventBus.
Section WithHandlers.
Context {Handler : Type} `{EqDecision Handler}.

Definition t : Type := gmap string (list Handler).

(** The fresh bus: [new Map()]. *)
Definition new : t := ∅.

(** [list.indexOf(handler)]: the first index holding [handler], [None]
    for JavaScript's [-1]. *)
Fixpoint indexOf (l : list Handler) (handler : Handler) : option nat :=
  match l with
  | [] => None
  | x :: l' =>
    if decide (x = handler) then Some 0%nat
    else S <$> indexOf l' handler
  end.

Definition on (bus : t) (signal : string) (handler : Handler) : t :=
  let list := default [] (bus !! signal) in
  match indexOf list handler with
  | None => <[signal := list ++ [handler]]> bus
  | Some _ => bus
  end.

(** [list.splice(idx, 1)] changes the array stored in the map in place. *)
Definition off (bus : t) (signal : string) (handler : Handler) : t :=
  match bus !! signal with
  | None => bus
  | Some list =>
    let list' :=
      match indexOf list handler with
      | Some idx => delete idx list
      | None => list
      end in
    match list' with
    | [] => delete signal bus
    | _ => <[signal := list']> bus
    end
  end.

(** What [emit(signal)] iterates over: a copy of the registered list. *)
Definition handlersFor (bus : t) (signal : string) : list Handler :=
  default [] (bus !! signal).

(** The calls a client can make to subscribe and unsubscribe. *)
Inductive reachable : t -> Prop :=
| reach_new : reachable new
| reach_on bus signal handler :
    reachable bus -> reachable (on bus signal handler)
| reach_off bus signal handler :
    reachable bus -> reachable (off bus signal handler).

(** A component subscribes its handlers one call after the other when it
    loads and unsubscribes them likewise when it is destroyed. *)
Definition onAll (bus : t) (subs : list (string * Handler)) : t :=
  foldl (fun b p => on b (fst p) (snd p)) bus subs.

Definition offAll (bus : t) (subs : list (string * Handler)) : t :=
  foldl (fun b p => off b (fst p) (snd p)) bus subs.

(** No signal is mapped to an empty array and no array holds a handler
    twice. *)
Definition tidy (bus : t) : Prop :=
  forall signal list,
    bus !! signal = Some list -> list <> [] /\ NoDup list.
End WithHandlers.
End EventBus.

(** ** app/GameController.ts

    The controller owns the board and the turn counters and drives the
    three booster controllers.  The record holds its fields other than
    the view objects ([boardFiller], [hudScore]) and the five callbacks;
    calls into the view change no field and are left out, and a method
    returns, in order, the calls it makes to the callbacks (the code skips
    the call of a callback that is not set).

    Embedded are the methods that run to their end within the call:
    [initNewGame], the two booster buttons, the confirmation of the
    no-moves popup and what they use.  A tile click ends in animations
    whose completion the view reports later; it is not embedded. *)

Module GameController.
Local Open Scope Z_scope.

Inductive Notice :=
| onWin
| onLose
| onNoMoves (reshufflesLeft : Z)
| onBombsChanged (bombsLeft : Z)
| onTeleportsChanged (teleportsLeft : Z).

Record t := mk {
  boardModel : option BoardModel;
  gameState : option GameState.GameStateData;
  lastSelected : option TilePos;
  teleportController : TeleportController.t;
  bombController : BombController.t;
  megaBombController : MegaBombController.t;
  isAnimating : bool
}.

(** The constructor. *)
Definition new : t :=
  mk None None None (TeleportController.new None) (BombController.new None)
    (MegaBombController.mk None GameConfig.megaBombMinGroupSize) false.

Definition setGameState (g : t) (d : GameState.GameStateData) : t :=
  mk (boardModel g) (Some d) (lastSelected g) (teleportController g)
    (bombController g) (megaBombController g) (isAnimating g).

Definition setLastSelected (g : t) (p : option TilePos) : t :=
  mk (boardModel g) (gameState g) p (teleportController g)
    (bombController g) (megaBombController g) (isAnimating g).

Definition setTeleportController (g : t) (tc : TeleportController.t) : t :=
  mk (boardModel g) (gameState g) (lastSelected g) tc
    (bombController g) (megaBombController g) (isAnimating g).

Definition setBombController (g : t) (bc : BombController.t) : t :=
  mk (boardModel g) (gameState g) (lastSelected g) (teleportController g)
    bc (megaBombController g) (isAnimating g).

(** The board is one object, referenced by the controller and, from
    [initNewGame] on, by its three booster controllers; [attached] says
    that the four references are the same.  A mutation of the board is
    stored in every field that holds the reference. *)
Definition attached (g : t) : Prop :=
  TeleportController.boardModel (teleportController g) = boardModel g
  /\ BombController.board (bombController g) = boardModel g
  /\ MegaBombController.board (megaBombController g) = boardModel g.

Definition storeBoard (g : t) (b : BoardModel) : t :=
  mk (Some b) (gameState g) (lastSelected g)
    (TeleportController.mk (Some b)
       (TeleportController.active (teleportController g))
       (TeleportController.first (teleportController g)))
    (BombController.mk (Some b)
       (BombController.active (bombController g))
       (BombController.radius (bombController g)))
    (MegaBombController.mk (Some b)
       (MegaBombController.minGroupSize (megaBombController g)))
    (isAnimating g).

Definition isGameInteractive (g : t) : bool :=
  match boardModel g, gameState g with
  | Some _, Some d => negb (GameState.gameOver d) && negb (isAnimating g)
  | _, _ => false
  end.

Definition clearSelection (g : t) : t :=
  match lastSelected g with
  | None => g
  | Some _ => setLastSelected g None
  end.

Definition isTeleportActive (g : t) : bool :=
  TeleportController.isActive (teleportController g).

Definition isBombActive (g : t) : bool :=
  BombController.isActive (bombController g).

Definition onBoosterTeleportClick (g : t) : t :=
  if negb (isGameInteractive g) then g
  else
    match gameState g with
    | None => g
    | Some d =>
      if negb (GameState.canUseTeleport d) then g
      else
        let g1 :=
          setBombController g (BombController.reset (bombController g)) in
        let g2 := clearSelection g1 in
        setTeleportController g2
          (fst (TeleportController.toggle (teleportController g2)))
    end.

Definition onBoosterBombClick (g : t) : t :=
  if negb (isGameInteractive g) then g
  else
    match gameState g with
    | None => g
    | Some d =>
      if negb (GameState.canUseBomb d) then g
      else
        let g1 :=
          setTeleportController g
            (TeleportController.reset (teleportController g)) in
        setBombController g1 (BombController.toggle (bombController g1))
    end.

Definition checkGameOver (g : t) : list Notice :=
  match gameState g with
  | None => []
  | Some d =>
    if negb (GameState.gameOver d) then []
    else
      match GameState.gameOverReason d with
      | Some GameState.win => [onWin]
      | Some GameState.lose => [onLose]
      | None => []
      end
  end.

(** [data.gameOver] and [data.gameOverReason] are written directly. *)
Definition forceLoseByNoMoves (g : t) : t * list Notice :=
  match gameState g with
  | None => (g, [])
  | Some d =>
    if GameState.gameOver d then (g, [])
    else
      let g' := setGameState g (GameState.setGameOver d GameState.lose) in
      (g', checkGameOver g')
  end.

Definition ensureHasMoves (g : t) : t * list Notice :=
  match boardModel g, gameState g with
  | Some b, Some d =>
    if GameState.gameOver d then (g, [])
    else if hasAnyMoves b GameConfig.minGroupSize then (g, [])
    else if negb (GameState.canUseReshuffle d) then forceLoseByNoMoves g
    else (g, [onNoMoves (GameState.reshufflesLeft d)])
  | _, _ => (g, [])
  end.

Definition reshuffleBoard (pick : Z -> Z -> nat) (g : t) : t :=
  match boardModel g, gameState g with
  | Some b, Some d =>
    if GameState.gameOver d then g
    else
      let g1 := storeBoard g (randomFill pick b) in
      let g2 := setLastSelected g1 None in
      let g3 :=
        setTeleportController g2
          (TeleportController.reset (teleportController g2)) in
      setBombController g3 (BombController.reset (bombController g3))
  | _, _ => g
  end.

Definition onNoMovesPopupOk (pick : Z -> Z -> nat) (g : t)
  : t * list Notice :=
  if negb (isGameInteractive g) then (g, [])
  else
    match gameState g with
    | None => (g, [])
    | Some d =>
      let '(d', used) := GameState.useReshuffle d in
      let g1 := setGameState g d' in
      if negb used then forceLoseByNoMoves g1
      else
        let g2 := reshuffleBoard pick g1 in
        let '(g3, notes) := ensureHasMoves g2 in
        (g3, notes ++ checkGameOver g3)
    end.

Definition initNewGame (pick : Z -> Z -> nat) (g : t) : t * list Notice :=
  let b :=
    randomFill pick
      (newBoardModel BoardConfig.rows BoardConfig.cols TILE_COLORS) in
  let d := GameState.new in
  let tc :=
    TeleportController.reset
      (TeleportController.setBoard (teleportController g) b) in
  let bc :=
    BombController.reset
      (BombController.setBoard (bombController g) (Some b)) in
  let mc := MegaBombController.setBoard (megaBombController g) (Some b) in
  let g1 := mk (Some b) (Some d) None tc bc mc false in
  let '(g2, notes) := ensureHasMoves g1 in
  (g2,
   [onBombsChanged (GameState.bombsLeft d);
    onTeleportsChanged (GameState.teleportsLeft d)] ++ notes).

Definition onRestartRequested (pick : Z -> Z -> nat) (g : t)
  : t * list Notice :=
  initNewGame pick g.

(** The two booster buttons. *)
Inductive Booster := teleport | bomb.

Definition onBoosterClick (g : t) (k : Booster) : t :=
  match k with
  | teleport => onBoosterTeleportClick g
  | bomb => onBoosterBombClick g
  end.
End GameController.

(** * Turn counters (GameState) *)

Section GameStateFacts.
Import GameState.
Local Open Scope Z_scope.

Lemma counters_ok_new : counters_ok new.
Proof. unfold counters_ok; repeat split; vm_compute; congruence. Qed.

Lemma updateGameOver_fields d :
  let d' := updateGameOver d in
  score d' = score d /\ movesLeft d' = movesLeft d
  /\ reshufflesLeft d' = reshufflesLeft d /\ bombsLeft d' = bombsLeft d
  /\ teleportsLeft d' = teleportsLeft d /\ targetScore d' = targetScore d.
Proof.
  unfold updateGameOver.
  destruct (gameOver d); [tauto|].
  destruct (targetScore d <=? score d); [cbn; tauto|].
  destruct (movesLeft d <=? 0); cbn; tauto.
Qed.

Lemma updateGameOver_running d :
  gameOver (updateGameOver d) = false -> 0 < movesLeft d.
Proof.
  unfold updateGameOver.
  destruct (gameOver d) eqn:E; [congruence|].
  destruct (targetScore d <=? score d); [cbn; congruence|].
  destruct (movesLeft d <=? 0) eqn:M; [cbn; congruence|].
  intros _. apply Z.leb_gt in M. exact M.
Qed.

Lemma counters_ok_exec d c : counters_ok d -> counters_ok (exec d c).
Proof.
  intros Hok. pose proof Hok as (Hm & Hr & Hb & Ht & Hrun).
  destruct c as [size|count| | |]; cbn [exec].
  - unfold applyGroup, canRemoveGroup.
    destruct (gameOver d) eqn:Eg; cbn [negb fst]; [exact Hok|].
    destruct (GameConfig.minGroupSize <=? size); cbn [negb fst];
      [|exact Hok].
    match goal with |- counters_ok (updateGameOver ?x) =>
      pose proof (updateGameOver_fields x) as F;
      pose proof (updateGameOver_running x) as R; cbn zeta in F;
      set (d' := updateGameOver x) in *; cbn in F, R end.
    destruct F as (_ & F2 & F3 & F4 & F5 & _).
    specialize (Hrun eq_refl).
    unfold counters_ok. rewrite F2, F3, F4, F5.
    repeat split; try lia. intros G. specialize (R G). lia.
  - unfold applyBomb.
    destruct (gameOver d) eqn:Eg; cbn [orb fst]; [exact Hok|].
    destruct (count <=? 0); cbn [fst]; [exact Hok|].
    match goal with |- counters_ok (updateGameOver ?x) =>
      pose proof (updateGameOver_fields x) as F;
      pose proof (updateGameOver_running x) as R; cbn zeta in F;
      set (d' := updateGameOver x) in *; cbn in F, R end.
    destruct F as (_ & F2 & F3 & F4 & F5 & _).
    specialize (Hrun eq_refl).
    unfold counters_ok. rewrite F2, F3, F4, F5.
    repeat split; try lia.
  - unfold useReshuffle, canUseReshuffle.
    destruct (gameOver d) eqn:Eg; cbn [negb fst]; [exact Hok|].
    destruct (0 <? reshufflesLeft d) eqn:E; cbn [negb fst]; [|exact Hok].
    apply Z.ltb_lt in E. unfold counters_ok; cbn. rewrite Eg.
    repeat split; auto; lia.
  - unfold useBomb, canUseBomb.
    destruct (gameOver d) eqn:Eg; cbn [negb fst]; [exact Hok|].
    destruct (0 <? bombsLeft d) eqn:E; cbn [negb fst]; [|exact Hok].
    apply Z.ltb_lt in E. unfold counters_ok; cbn. rewrite Eg.
    repeat split; auto; lia.
  - unfold useTeleport, canUseTeleport.
    destruct (gameOver d) eqn:Eg; cbn [negb fst]; [exact Hok|].
    destruct (0 <? teleportsLeft d) eqn:E; cbn [negb fst]; [|exact Hok].
    apply Z.ltb_lt in E. unfold counters_ok; cbn. rewrite Eg.
    repeat split; auto; lia.
Qed.

Lemma reachable_counters_ok d : reachable d -> counters_ok d.
Proof.
  induction 1 as [|d c _ IH];
    [apply counters_ok_new | apply counters_ok_exec, IH].
Qed.

Lemma score_monotone d c : score d <= score (exec d c).
Proof.
  destruct c as [size|count| | |]; cbn [exec].
  - unfold applyGroup, canRemoveGroup.
    destruct (gameOver d); cbn [negb fst]; [lia|].
    destruct (GameConfig.minGroupSize <=? size) eqn:E;
      cbn [negb fst]; [|lia].
    apply Z.leb_le in E. unfold GameConfig.minGroupSize in E.
    match goal with |- _ <= score (updateGameOver ?x) =>
      destruct (updateGameOver_fields x) as (F & _) end.
    rewrite F. cbn. unfold GameConfig.baseScorePerTile. lia.
  - unfold applyBomb.
    destruct (gameOver d); cbn [orb fst]; [lia|].
    destruct (count <=? 0) eqn:E; cbn [fst]; [lia|].
    apply Z.leb_gt in E.
    match goal with |- _ <= score (updateGameOver ?x) =>
      destruct (updateGameOver_fields x) as (F & _) end.
    rewrite F. cbn. unfold GameConfig.baseScorePerTile. lia.
  - unfold useReshuffle. destruct (canUseReshuffle d); cbn; lia.
  - unfold useBomb. destruct (canUseBomb d); cbn; lia.
  - unfold useTeleport. destruct (canUseTeleport d); cbn; lia.
Qed.

(** C3.  [applyGroup(size)] returns 0 and changes nothing when
    [canRemoveGroup(size)] is false, which is exactly when the game is
    over or [size < minGroupSize].  Otherwise it returns
    [size * baseScorePerTile], adds it to the score, takes exactly one
    move, touches no other counter, and then settles the end of the game
    with win first: a score that reached the target gives game over with
    reason win; failing that, no move left gives game over with reason
    lose; failing both, the game goes on. *)
Theorem applyGroup_spec (d : GameStateData) (size : Z) :
  (canRemoveGroup d size = false
     <-> gameOver d = true \/ size < GameConfig.minGroupSize)
  /\ (canRemoveGroup d size = false -> applyGroup d size = (d, 0))
  /\ (canRemoveGroup d size = true ->
      let d' := fst (applyGroup d size) in
      let gained := snd (applyGroup d size) in
      gained = size * GameConfig.baseScorePerTile
      /\ score d' = score d + size * GameConfig.baseScorePerTile
      /\ movesLeft d' = movesLeft d - 1
      /\ targetScore d' = targetScore d
      /\ reshufflesLeft d' = reshufflesLeft d
      /\ bombsLeft d' = bombsLeft d
      /\ teleportsLeft d' = teleportsLeft d
      /\ (targetScore d' <= score d' ->
          gameOver d' = true /\ gameOverReason d' = Some win)
      /\ (score d' < targetScore d' -> movesLeft d' <= 0 ->
          gameOver d' = true /\ gameOverReason d' = Some lose)
      /\ (score d' < targetScore d' -> 0 < movesLeft d' ->
          gameOver d' = false /\ gameOverReason d' = gameOverReason d)).
Proof.
  split; [|split].
  - unfold canRemoveGroup. destruct (gameOver d).
    + split; auto.
    + rewrite Z.leb_gt. split; [auto|]. intros [H|H]; [discriminate|lia].
  - intros H. unfold applyGroup. rewrite H. reflexivity.
  - intros H. unfold applyGroup. rewrite H. cbn [negb fst snd].
    assert (G : gameOver d = false).
    { unfold canRemoveGroup in H. destruct (gameOver d); congruence. }
    unfold updateGameOver, setMovesLeft, setScore.
    cbn [gameOver score targetScore movesLeft]. rewrite G.
    match goal with |- context [targetScore d <=? ?x] =>
      destruct (targetScore d <=? x) eqn:T;
        [apply Z.leb_le in T | apply Z.leb_gt in T] end.
    { cbn. repeat split; auto; try lia. }
    destruct (movesLeft d - 1 <=? 0) eqn:M;
      [apply Z.leb_le in M | apply Z.leb_gt in M].
    { cbn. repeat split; auto; try lia. }
    cbn. repeat split; auto; try lia.
Qed.

(** C6.  In every state a fresh GameState reaches by any sequence of
    [applyGroup], [applyBomb], [useReshuffle], [useBomb] and
    [useTeleport] calls, [movesLeft], [reshufflesLeft], [bombsLeft] and
    [teleportsLeft] are not negative; no call lowers the score; and each
    of [useReshuffle], [useBomb], [useTeleport] returns false and leaves
    the whole state as it was when its charge is 0 or the game is
    over. *)
Theorem counters_never_negative (d : GameStateData) (c : Call) :
  reachable d ->
  (0 <= movesLeft d /\ 0 <= reshufflesLeft d /\ 0 <= bombsLeft d
   /\ 0 <= teleportsLeft d)
  /\ score d <= score (exec d c)
  /\ (reshufflesLeft d = 0 \/ gameOver d = true ->
      useReshuffle d = (d, false))
  /\ (bombsLeft d = 0 \/ gameOver d = true -> useBomb d = (d, false))
  /\ (teleportsLeft d = 0 \/ gameOver d = true ->
      useTeleport d = (d, false)).
Proof.
  intros Hr. apply reachable_counters_ok in Hr.
  destruct Hr as (Hm & Hre & Hb & Ht & _).
  split; [tauto|]. split; [apply score_monotone|].
  unfold useReshuffle, canUseReshuffle, useBomb, canUseBomb,
    useTeleport, canUseTeleport.
  repeat split; intros [H|H]; rewrite H;
    try reflexivity; destruct (gameOver d); reflexivity.
Qed.

(** The state after a 3-tile group, a 4-tile bomb and a used bomb
    charge obeys C6. *)
Lemma counters_never_negative_witness :
  let d := exec (exec (exec new (CallApplyGroup 3)) (CallApplyBomb 4))
             CallUseBomb in
  (0 <= movesLeft d /\ 0 <= reshufflesLeft d /\ 0 <= bombsLeft d
   /\ 0 <= teleportsLeft d)
  /\ score d <= score (exec d CallUseTeleport)
  /\ (reshufflesLeft d = 0 \/ gameOver d = true ->
      useReshuffle d = (d, false))
  /\ (bombsLeft d = 0 \/ gameOver d = true -> useBomb d = (d, false))
  /\ (teleportsLeft d = 0 \/ gameOver d = true ->
      useTeleport d = (d, false)).
Proof.
  apply (counters_never_negative
           (exec (exec (exec new (CallApplyGroup 3)) (CallApplyBomb 4))
              CallUseBomb) CallUseTeleport).
  repeat apply reach_call. apply reach_new.
Defined.
End GameStateFacts.

(** * Counted loops *)

Section Loops.
Context {S : Type}.

Lemma loopUp_ext (n : nat) (f g : Z -> S -> S) (st : S) :
  (forall i s, (0 <= i < Z.of_nat n)%Z -> f i s = g i s) ->
  loopUp n f st = loopUp n g st.
Proof.
  induction n as [|n IH]; intros H; cbn; [reflexivity|].
  rewrite IH by (intros; apply H; lia). apply H. lia.
Qed.

(** An invariant that every iteration preserves holds after the loop. *)
Lemma loopUp_invariant (P : S -> Prop) (n : nat) (f : Z -> S -> S) st :
  P st ->
  (forall i s, (0 <= i < Z.of_nat n)%Z -> P s -> P (f i s)) ->
  P (loopUp n f st).
Proof.
  intros H0 Hstep. induction n as [|n IH]; cbn; [exact H0|].
  apply Hstep; [lia|]. apply IH. intros; apply Hstep; [lia|assumption].
Qed.

Lemma loopDown_invariant (P : S -> Prop) (n : nat) (f : Z -> S -> S) st :
  P st ->
  (forall i s, (0 <= i < Z.of_nat n)%Z -> P s -> P (f i s)) ->
  P (loopDown n f st).
Proof.
  revert st. induction n as [|n IH]; intros st H0 Hstep; cbn; [exact H0|].
  apply IH; [apply Hstep; [lia|exact H0]|].
  intros; apply Hstep; [lia|assumption].
Qed.
End Loops.

Section Collect.
Context {A : Type}.
Implicit Types (f : Z -> list A) (acc : list A).

Lemma loopUp_collect n f acc :
  loopUp n (fun i a => a ++ f i) acc = acc ++ collect n f.
Proof.
  unfold collect. induction n as [|n IH]; cbn.
  - by rewrite app_nil_r.
  - rewrite IH. by rewrite <- app_assoc.
Qed.

Lemma collect_S n f : collect (S n) f = collect n f ++ f (Z.of_nat n).
Proof. reflexivity. Qed.

Lemma elem_of_collect n f (x : A) :
  x ∈ collect n f <-> exists i, (0 <= i < Z.of_nat n)%Z /\ x ∈ f i.
Proof.
  induction n as [|n IH].
  - cbn. split; [intros H; inversion H | intros (i & ? & _); lia].
  - rewrite collect_S, elem_of_app, IH. split.
    + intros [(i & ? & ?)|H]; [exists i|exists (Z.of_nat n)];
        split; auto; lia.
    + intros (i & Hi & Hx).
      destruct (decide (i = Z.of_nat n)) as [->|]; [right; exact Hx|].
      left. exists i. split; [lia|exact Hx].
Qed.

Lemma NoDup_collect n f :
  (forall i, (0 <= i < Z.of_nat n)%Z -> NoDup (f i)) ->
  (forall i j x, (0 <= i < j)%Z -> (j < Z.of_nat n)%Z ->
                 x ∈ f i -> x ∈ f j -> False) ->
  NoDup (collect n f).
Proof.
  induction n as [|n IH]; intros Hnd Hdisj; [constructor|].
  rewrite collect_S. apply NoDup_app. split; [|split].
  - apply IH; [intros; apply Hnd; lia|].
    intros i j x ? ?; apply Hdisj; lia.
  - intros x Hx Hx'. apply elem_of_collect in Hx as (i & Hi & Hx).
    eapply (Hdisj i (Z.of_nat n)); eauto; lia.
  - apply Hnd. lia.
Qed.

Lemma collect_ext n f g :
  (forall i, (0 <= i < Z.of_nat n)%Z -> f i = g i) ->
  collect n f = collect n g.
Proof.
  intros H. unfold collect. apply loopUp_ext. intros i s Hi.
  by rewrite H.
Qed.
End Collect.

(** * Teleport mode *)

Section TeleportFacts.
Import TeleportController.

(** C8.  In an active teleport controller attached to a board: a click
    with nothing selected selects the clicked cell; a click on the
    selected cell clears the selection; a click at Manhattan distance
    other than 1 from the selection moves the selection to the clicked
    cell and leaves the board as it is; a click at Manhattan distance 1
    swaps the two cells with [swapTiles], clears the selection and
    leaves the mode.  An inactive controller returns no result and does
    not change. *)
Theorem teleport_handleClick_spec
    (b : BoardModel) (sel : TilePos) (r c : Z) :
  let p := mkPos r c in
  handleClick (mk (Some b) true None) r c
    = (mk (Some b) true (Some p), Some (select p))
  /\ handleClick (mk (Some b) true (Some p)) r c
    = (mk (Some b) true None, Some (deselect p))
  /\ (sel <> p -> manhattan sel p <> 1%Z ->
      handleClick (mk (Some b) true (Some sel)) r c
        = (mk (Some b) true (Some p), Some (reselect sel p)))
  /\ (manhattan sel p = 1%Z ->
      handleClick (mk (Some b) true (Some sel)) r c
        = (mk (Some (swapTiles b sel p)) false None, Some (swap sel p)))
  /\ (forall tc, active tc = false -> handleClick tc r c = (tc, None)).
Proof.
  cbn zeta. split; [reflexivity|]. split.
  { unfold handleClick. cbn.
    rewrite !bool_decide_eq_true_2 by reflexivity. reflexivity. }
  split; [|split].
  - intros Hne Hd. unfold handleClick. cbn.
    destruct sel as [sr sc]. cbn in *.
    destruct (bool_decide (sr = r)) eqn:E1;
      destruct (bool_decide (sc = c)) eqn:E2; cbn;
      try (apply bool_decide_eq_true in E1);
      try (apply bool_decide_eq_true in E2);
      try (subst; congruence);
      unfold manhattan in Hd; cbn in Hd;
      rewrite bool_decide_eq_false_2 by exact Hd; reflexivity.
  - intros Hd. unfold handleClick. cbn.
    destruct sel as [sr sc]. unfold manhattan in Hd. cbn in *.
    destruct (bool_decide (sr = r)) eqn:E1;
      destruct (bool_decide (sc = c)) eqn:E2; cbn;
      try (apply bool_decide_eq_true in E1);
      try (apply bool_decide_eq_true in E2);
      try (subst; exfalso; lia);
      rewrite bool_decide_eq_true_2 by exact Hd; reflexivity.
  - intros tc H. unfold handleClick. rewrite H. reflexivity.
Qed.
End TeleportFacts.

(** * Bomb mode *)

Section BombFacts.
Import BombController.
Local Open Scope Z_scope.

Lemma elem_of_bombCell b r c p :
  p ∈ bombCell b r c <->
  p = mkPos r c /\ inBounds b r c = true /\ cellAt (grid b) r c <> None.
Proof.
  unfold bombCell, inBounds.
  destruct (r <? 0) eqn:E1, (rows b <=? r) eqn:E2, (c <? 0) eqn:E3,
    (cols b <=? c) eqn:E4; cbn [orb];
    try (split; [by intros ?%elem_of_nil | intros (_ & H & _)];
         revert H; rewrite ?andb_true_iff;
         rewrite ?Z.leb_le, ?Z.ltb_lt; lia).
  assert (((0 <=? r) && (r <? rows b) && (0 <=? c) && (c <? cols b))%bool
          = true) as ->.
  { rewrite !andb_true_iff, !Z.leb_le, !Z.ltb_lt. lia. }
  destruct (cellAt (grid b) r c).
  - rewrite list_elem_of_singleton.
    split; [intros ->; repeat split; congruence | by intros (-> & _)].
  - split; [by intros ?%elem_of_nil | intros (_ & _ & H); congruence].
Qed.

Lemma handleClick_active b R r0 c0 :
  handleClick (mk (Some b) true R) r0 c0
  = (mk (Some b) false R,
     collect (Z.to_nat (r0 + R - (r0 - R) + 1)) (fun i =>
       collect (Z.to_nat (c0 + R - (c0 - R) + 1)) (fun j =>
         bombCell b (r0 - R + i) (c0 - R + j)))).
Proof.
  unfold handleClick, loopRange. cbn. f_equal.
  unfold collect at 1. apply loopUp_ext. intros i cells _.
  rewrite <- loopUp_collect. apply loopUp_ext. intros j cells' _.
  unfold bombCell.
  destruct ((_ <? 0) || _ || _ || _)%bool; [by rewrite app_nil_r|].
  destruct (cellAt _ _ _); [reflexivity | by rewrite app_nil_r].
Qed.

(** C7.  A click on an active bomb controller attached to a board turns
    the controller off at once and changes nothing else (the board, and so
    the grid, is the one it had); the cells it returns are exactly the
    occupied cells of the board within Chebyshev distance [radius] of the
    click, none twice; any further click on the resulting controller
    returns the empty list until [toggle] makes it active again.  A click on
    an inactive controller returns the empty list and changes nothing. *)
Theorem bomb_handleClick_spec (b : BoardModel) (R r0 c0 : Z) :
  wfBoard b ->
  let bc := mk (Some b) true R in
  let bc' := fst (handleClick bc r0 c0) in
  let cells := snd (handleClick bc r0 c0) in
  bc' = mk (Some b) false R
  /\ (forall p, p ∈ cells <->
        inBounds b (row p) (col p) = true
        /\ cellAt (grid b) (row p) (col p) <> None
        /\ chebyshev p (mkPos r0 c0) <= R)
  /\ NoDup cells
  /\ (forall r c, handleClick bc' r c = (bc', []))
  /\ active (toggle bc') = true
  /\ (forall bc0, active bc0 = false -> handleClick bc0 r0 c0 = (bc0, [])).
Proof.
  intros _. cbn zeta. rewrite handleClick_active. cbn [fst snd].
  split; [reflexivity|]. split; [|split; [|split; [|split]]].
  - intros p. rewrite elem_of_collect. split.
    + intros (i & Hi & Hp). apply elem_of_collect in Hp as (j & Hj & Hp).
      apply elem_of_bombCell in Hp as (-> & Hin & Hocc).
      cbn [row col]. unfold chebyshev. cbn [row col].
      repeat split; auto. lia.
    + intros (Hin & Hocc & Hd). destruct p as [r c].
      unfold chebyshev in Hd. cbn [row col] in *.
      exists (r - (r0 - R)). split; [lia|].
      apply elem_of_collect. exists (c - (c0 - R)). split; [lia|].
      apply elem_of_bombCell.
      replace (r0 - R + (r - (r0 - R))) with r by lia.
      replace (c0 - R + (c - (c0 - R))) with c by lia. auto.
  - apply NoDup_collect.
    + intros i _. apply NoDup_collect.
      * intros j _. unfold bombCell.
        destruct ((_ <? 0) || _ || _ || _)%bool; [constructor|].
        destruct (cellAt _ _ _); [apply NoDup_singleton | constructor].
      * intros j j' x Hj Hj' H1 H2.
        apply elem_of_bombCell in H1 as (-> & _).
        apply elem_of_bombCell in H2 as (H2 & _).
        inversion H2. lia.
    + intros i i' x Hi Hi' H1 H2.
      apply elem_of_collect in H1 as (j & _ & H1).
      apply elem_of_collect in H2 as (j' & _ & H2).
      apply elem_of_bombCell in H1 as (-> & _).
      apply elem_of_bombCell in H2 as (H2 & _).
      inversion H2. lia.
  - reflexivity.
  - reflexivity.
  - intros bc0 H. unfold handleClick. rewrite H. reflexivity.
Qed.
(** C7 on a 3 x 3 all-green board, clicked in a corner with radius 1. *)
Lemma bomb_handleClick_spec_witness :
  let b := randomFill (fun _ _ => 0%nat) (newBoardModel 3 3 TILE_COLORS) in
  let bc := mk (Some b) true 1 in
  let bc' := fst (handleClick bc 0 0) in
  let cells := snd (handleClick bc 0 0) in
  bc' = mk (Some b) false 1
  /\ (forall p, p ∈ cells <->
        inBounds b (row p) (col p) = true
        /\ cellAt (grid b) (row p) (col p) <> None
        /\ chebyshev p (mkPos 0 0) <= 1)
  /\ NoDup cells
  /\ (forall r c, handleClick bc' r c = (bc', []))
  /\ active (toggle bc') = true
  /\ (forall bc0, active bc0 = false -> handleClick bc0 0 0 = (bc0, [])).
Proof.
  apply (bomb_handleClick_spec
           (randomFill (fun _ _ => 0%nat) (newBoardModel 3 3 TILE_COLORS))
           1 0 0).
  split; split; vm_compute; repeat constructor.
Defined.
End BombFacts.

(** * Two-dimensional arrays *)

Section Matrix.
Context {A : Type}.
Implicit Types (m : list (list A)) (x y : A) (r c : Z).
Local Open Scope Z_scope.

Lemma mget_Some m r c x :
  mget m r c = Some x <->
  0 <= r /\ 0 <= c /\
  exists rowArr, m !! Z.to_nat r = Some rowArr
                 /\ rowArr !! Z.to_nat c = Some x.
Proof.
  unfold mget.
  destruct (r <? 0) eqn:Er; [apply Z.ltb_lt in Er | apply Z.ltb_ge in Er];
    cbn [orb].
  { split; [discriminate | lia]. }
  destruct (c <? 0) eqn:Ec; [apply Z.ltb_lt in Ec | apply Z.ltb_ge in Ec].
  { split; [discriminate | lia]. }
  destruct (m !! Z.to_nat r) as [rowArr|]; cbn.
  - split; [intros H; repeat split; eauto | intros (_ & _ & ? & [= <-] & H)];
      auto.
  - split; [discriminate | intros (_ & _ & ? & [=] & _)].
Qed.

Lemma mget_mset_eq m r c x y :
  mget m r c = Some y -> mget (mset m r c x) r c = Some x.
Proof.
  intros (Hr & Hc & rowArr & H1 & H2)%mget_Some.
  apply mget_Some. repeat split; auto.
  unfold mset. replace (r <? 0) with false by lia.
  replace (c <? 0) with false by lia. cbn [orb].
  exists (<[Z.to_nat c := x]> rowArr). split.
  - by rewrite list_lookup_alter_eq, H1.
  - apply list_lookup_insert_eq. by eapply lookup_lt_Some.
Qed.

Lemma mget_mset_ne m r c x r' c' :
  r' <> r \/ c' <> c -> mget (mset m r c x) r' c' = mget m r' c'.
Proof.
  intros Hne. unfold mget, mset.
  destruct (r' <? 0) eqn:Er'; cbn [orb]; [reflexivity|].
  destruct (c' <? 0) eqn:Ec'; [reflexivity|].
  destruct (r <? 0) eqn:Er; cbn [orb]; [reflexivity|].
  destruct (c <? 0) eqn:Ec; [reflexivity|].
  apply Z.ltb_ge in Er', Ec', Er, Ec.
  destruct (decide (r' = r)) as [->|Hr].
  - rewrite list_lookup_alter_eq.
    destruct (m !! Z.to_nat r); cbn; [|reflexivity].
    apply list_lookup_insert_ne. lia.
  - rewrite list_lookup_alter_ne by lia. reflexivity.
Qed.

Lemma mget_mset m r c x r' c' :
  mget (mset m r c x) r' c'
  = if decide (r' = r /\ c' = c) then (fun _ => x) <$> mget m r c
    else mget m r' c'.
Proof.
  destruct (decide _) as [[-> ->]|Hne].
  - destruct (mget m r c) eqn:E; cbn.
    + eapply mget_mset_eq, E.
    + destruct (mget (mset m r c x) r c) eqn:E'; [|reflexivity].
      exfalso. apply mget_Some in E' as (Hr & Hc & rowArr & H1 & H2).
      unfold mset in H1. replace (r <? 0) with false in H1 by lia.
      replace (c <? 0) with false in H1 by lia. cbn [orb] in H1.
      rewrite list_lookup_alter_eq in H1.
      destruct (m !! Z.to_nat r) as [row0|] eqn:E0; [|discriminate].
      injection H1 as <-.
      assert (is_Some (row0 !! Z.to_nat c)) as [y Hy].
      { apply lookup_lt_is_Some. rewrite <- (length_insert row0 (Z.to_nat c) x).
        by eapply lookup_lt_Some. }
      assert (mget m r c = Some y) as E''; [|congruence].
      apply mget_Some. eauto 6.
  - apply mget_mset_ne. lia.
Qed.

Lemma wfMatrix_mset nr nc m r c x :
  wfMatrix nr nc m -> wfMatrix nr nc (mset m r c x).
Proof.
  intros [Hl Hf]. unfold mset.
  destruct ((r <? 0) || (c <? 0))%bool; [by split|].
  split; [by rewrite length_alter|].
  apply Forall_alter; [exact Hf|]. intros rowArr _ H.
  by rewrite length_insert.
Qed.

Lemma wfMatrix_mget nr nc m r c :
  wfMatrix nr nc m -> 0 <= r < nr -> 0 <= c < nc -> is_Some (mget m r c).
Proof.
  intros [Hl Hf] Hr Hc.
  destruct (lookup_lt_is_Some_2 m (Z.to_nat r)) as [rowArr Hrow]; [lia|].
  pose proof (Forall_lookup_1 _ _ _ _ Hf Hrow) as Hlen. cbn in Hlen.
  destruct (lookup_lt_is_Some_2 rowArr (Z.to_nat c)) as [x Hx]; [lia|].
  exists x. apply mget_Some. eauto 6 with lia.
Qed.

Lemma wfMatrix_mget_inv nr nc m r c x :
  wfMatrix nr nc m -> mget m r c = Some x -> 0 <= r < nr /\ 0 <= c < nc.
Proof.
  intros [Hl Hf] (Hr & Hc & rowArr & H1 & H2)%mget_Some.
  pose proof (Forall_lookup_1 _ _ _ _ Hf H1) as Hlen. cbn in Hlen.
  apply lookup_lt_Some in H1, H2. lia.
Qed.

Lemma Forall2d_mset (P : A -> Prop) m r c x :
  Forall (Forall P) m -> P x -> Forall (Forall P) (mset m r c x).
Proof.
  intros H Hx. unfold mset.
  destruct ((r <? 0) || (c <? 0))%bool; [exact H|].
  apply Forall_alter; [exact H|]. intros rowArr _ Hrow.
  by apply Forall_insert.
Qed.

Lemma Forall2d_mget (P : A -> Prop) m r c x :
  Forall (Forall P) m -> mget m r c = Some x -> P x.
Proof.
  intros H (_ & _ & rowArr & H1 & H2)%mget_Some.
  eapply Forall_lookup_1; [|exact H2]. eapply Forall_lookup_1; eauto.
Qed.
End Matrix.

(** * Board operations: geometry and the special layer *)

Section BoardFacts.
Local Open Scope Z_scope.

Lemma inBounds_spec b r c :
  inBounds b r c = true <-> 0 <= r < rows b /\ 0 <= c < cols b.
Proof.
  unfold inBounds. rewrite !andb_true_iff, !Z.leb_le, !Z.ltb_lt. lia.
Qed.

Lemma inBounds_false b r c :
  inBounds b r c = false <-> ~ (0 <= r < rows b /\ 0 <= c < cols b).
Proof.
  rewrite <- inBounds_spec. destruct (inBounds b r c); split; congruence.
Qed.

Lemma allNone_specialAt s r c : allNone s -> specialAt s r c = TileSpecial.None.
Proof.
  intros H. unfold specialAt. destruct (mget s r c) eqn:E; [|reflexivity].
  cbn. symmetry. eapply (Forall2d_mget _ _ _ _ _ H E).
Qed.

Lemma cellAt_Some_mget g r c clr :
  cellAt g r c = Some clr <-> mget g r c = Some (Some clr).
Proof.
  unfold cellAt. destruct (mget g r c) as [[?|]|]; cbn;
    split; intros H; try discriminate H; injection H as ->; reflexivity.
Qed.

Lemma cellAt_mset_ne g r c x r' c' :
  r' <> r \/ c' <> c -> cellAt (mset g r c x) r' c' = cellAt g r' c'.
Proof. intros H. unfold cellAt. by rewrite mget_mset_ne. Qed.

Lemma cellAt_mset_eq nr nc g r c x :
  wfMatrix nr nc g -> 0 <= r < nr -> 0 <= c < nc ->
  cellAt (mset g r c x) r c = x.
Proof.
  intros Hwf Hr Hc. unfold cellAt.
  destruct (wfMatrix_mget _ _ _ _ _ Hwf Hr Hc) as [y Hy].
  by rewrite (mget_mset_eq _ _ _ _ _ Hy).
Qed.

Lemma cellAt_outside nr nc g r c :
  wfMatrix nr nc g -> ~ (0 <= r < nr /\ 0 <= c < nc) -> cellAt g r c = None.
Proof.
  intros Hwf Hout. unfold cellAt. destruct (mget g r c) eqn:E; [|reflexivity].
  exfalso. apply Hout. eapply wfMatrix_mget_inv; eauto.
Qed.

(** *** removeGroup *)

Lemma removeGroup_fold b group g s :
  wfMatrix (rows b) (cols b) g ->
  let gs := foldl (removeCell b) (g, s) group in
  wfMatrix (rows b) (cols b) (fst gs)
  /\ (forall r c, cellAt (fst gs) r c
                  = if decide (mkPos r c ∈ group) then None
                    else cellAt g r c)
  /\ (allNone s -> allNone (snd gs))
  /\ (forall nr nc, wfMatrix nr nc s -> wfMatrix nr nc (snd gs)).
Proof.
  revert g s. induction group as [|p group IH]; intros g s Hwf; cbn zeta.
  - cbn. split; [exact Hwf|]. split; [|auto].
    intros r c. destruct (decide _) as [H|]; [|reflexivity].
    by apply elem_of_nil in H.
  - cbn [foldl]. unfold removeCell at 2 4 6 8. cbn [fst snd].
    destruct (inBounds b (row p) (col p)) eqn:Hin; cbn [negb].
    + destruct (IH (mset g (row p) (col p) None)
                   (mset s (row p) (col p) TileSpecial.None))
        as (W & C & N & M); [by apply wfMatrix_mset|].
      split; [exact W|]. split; [|split].
      * intros r c. rewrite C. apply inBounds_spec in Hin.
        destruct (decide (mkPos r c ∈ group)) as [H|H].
        { rewrite decide_True; [reflexivity | by apply elem_of_cons; right]. }
        destruct (decide (mkPos r c = p)) as [<-|Hp].
        { rewrite decide_True by apply list_elem_of_here. cbn [row col] in *.
          eapply cellAt_mset_eq; [exact Hwf | lia | lia]. }
        rewrite decide_False.
        2:{ intros [?|?]%elem_of_cons; congruence. }
        apply cellAt_mset_ne. destruct p as [pr pc]. cbn.
        destruct (decide (r = pr)); [|auto].
        destruct (decide (c = pc)); [|auto]. subst. congruence.
      * intros Hs. apply N. by apply Forall2d_mset.
      * intros nr nc Hs. apply M. by apply wfMatrix_mset.
    + destruct (IH g s Hwf) as (W & C & N & M).
      split; [exact W|]. split; [|auto].
      intros r c. rewrite C.
      destruct (decide (mkPos r c ∈ group)) as [H|H].
      { rewrite decide_True; [reflexivity | by apply elem_of_cons; right]. }
      destruct (decide (mkPos r c = p)) as [<-|Hp].
      { rewrite decide_True by apply list_elem_of_here. cbn [row col] in *.
        apply inBounds_false in Hin. eapply cellAt_outside; eauto. }
      rewrite decide_False; [reflexivity|].
      intros [?|?]%elem_of_cons; congruence.
Qed.

Lemma removeGroup_dims b group :
  rows (removeGroup b group) = rows b /\ cols (removeGroup b group) = cols b.
Proof. split; reflexivity. Qed.

Lemma removeGroup_wf b group : wfBoard b -> wfBoard (removeGroup b group).
Proof.
  intros [Hg Hs].
  destruct (removeGroup_fold b group (grid b) (specialGrid b) Hg)
    as (W & _ & _ & M).
  split; cbn; [exact W | by apply M].
Qed.

Lemma removeGroup_cellAt b group r c :
  wfBoard b ->
  cellAt (grid (removeGroup b group)) r c
  = if decide (mkPos r c ∈ group) then None else cellAt (grid b) r c.
Proof.
  intros [Hg Hs].
  destruct (removeGroup_fold b group (grid b) (specialGrid b) Hg)
    as (_ & C & _). apply C.
Qed.

Lemma removeGroup_allNone b group :
  allNone (specialGrid b) -> allNone (specialGrid (removeGroup b group)).
Proof.
  unfold removeGroup. cbn. generalize (grid b) (specialGrid b).
  induction group as [|p group IH]; intros g s Hs; cbn; [exact Hs|].
  unfold removeCell at 2. destruct (inBounds b (row p) (col p)); cbn.
  - apply IH. by apply Forall2d_mset.
  - by apply IH.
Qed.
End BoardFacts.

(** * The special layer never holds a mega bomb *)

Section SpecialLayer.
Local Open Scope Z_scope.

Lemma randomFill_allNone pick b : allNone (specialGrid (randomFill pick b)).
Proof.
  unfold randomFill. cbn [specialGrid setGrids].
  apply (loopUp_invariant (fun gs => allNone (snd gs))); [constructor|].
  intros r [g s] _ Hs.
  match goal with |- context [loopUp ?n ?f ?i] =>
    assert (Forall (eq TileSpecial.None) (snd (loopUp n f i))) as Hrow;
    [|destruct (loopUp n f i) as [ra sr]] end.
  { apply (loopUp_invariant (fun rs => Forall (eq TileSpecial.None) (snd rs)));
      [constructor|].
    intros c [ra sr] _ Hsr. cbn in *. apply Forall_app. split; [exact Hsr|].
    by constructor. }
  cbn in *. apply Forall_app. split; [exact Hs|]. by constructor.
Qed.

Lemma gravityStep_allNone c r st :
  allNone (gSpecial (fst st)) -> allNone (gSpecial (fst (gravityStep c r st))).
Proof.
  destruct st as [gs w]. unfold gravityStep. cbn [fst]. intros H.
  destruct (cellAt (gGrid gs) r c); [|exact H].
  destruct (bool_decide (w <> r)); [|exact H]. cbn.
  apply Forall2d_mset; [|reflexivity]. apply Forall2d_mset; [exact H|].
  symmetry. by apply allNone_specialAt.
Qed.

Lemma gravityColumn_allNone nrows c gs :
  allNone (gSpecial gs) -> allNone (gSpecial (gravityColumn nrows c gs)).
Proof.
  intros H. unfold gravityColumn.
  match goal with |- context [loopDown ?n ?f ?i] =>
    assert (allNone (gSpecial (fst (loopDown n f i)))) as H1;
    [|destruct (loopDown n f i) as [gs1 w]] end.
  { apply (loopDown_invariant (fun st => allNone (gSpecial (fst st))));
      [exact H|].
    intros r st _. apply gravityStep_allNone. }
  cbn [fst] in H1. apply loopDown_invariant; [exact H1|].
  intros r s _ Hs. cbn. by apply Forall2d_mset.
Qed.

Lemma applyGravity_allNone b :
  allNone (specialGrid b) -> allNone (specialGrid (fst (applyGravity b))).
Proof.
  intros H. unfold applyGravity. cbn.
  apply (loopUp_invariant (fun gs => allNone (gSpecial gs))); [exact H|].
  intros c gs _. apply gravityColumn_allNone.
Qed.

Lemma refillEmptyCells_allNone pick b :
  allNone (specialGrid b) ->
  allNone (specialGrid (fst (refillEmptyCells pick b))).
Proof.
  intros H. unfold refillEmptyCells.
  match goal with |- context [loopUp ?n ?f ?i] =>
    assert (allNone (snd (fst (loopUp n f i)))) as H1;
    [|destruct (loopUp n f i) as [[g s] l]; exact H1] end.
  apply (loopUp_invariant (fun st => allNone (snd (fst st)))); [exact H|].
  intros r st _ Hst.
  apply (loopUp_invariant (fun st => allNone (snd (fst st)))); [exact Hst|].
  intros c [[g s] l] _ Hs. cbn in *.
  destruct (cellAt g r c); [exact Hs|]. cbn. by apply Forall2d_mset.
Qed.

Lemma clearAllTiles_allNone b :
  allNone (specialGrid b) -> allNone (specialGrid (fst (clearAllTiles b))).
Proof.
  intros H. unfold clearAllTiles.
  match goal with |- context [loopUp ?n ?f ?i] =>
    assert (allNone (snd (fst (loopUp n f i)))) as H1;
    [|destruct (loopUp n f i) as [[g s] l]; exact H1] end.
  apply (loopUp_invariant (fun st => allNone (snd (fst st)))); [exact H|].
  intros r st _ Hst.
  apply (loopUp_invariant (fun st => allNone (snd (fst st)))); [exact Hst|].
  intros c [[g s] l] _ Hs. cbn in *.
  destruct (cellAt g r c); [|exact Hs]. cbn. by apply Forall2d_mset.
Qed.

Lemma swapTiles_allNone b p q :
  allNone (specialGrid b) -> allNone (specialGrid (swapTiles b p q)).
Proof.
  intros H. unfold swapTiles.
  destruct (negb _ || negb _)%bool; [exact H|]. cbn.
  apply Forall2d_mset; [apply Forall2d_mset; [exact H|]|];
    symmetry; by apply allNone_specialAt.
Qed.

Lemma createFromGroup_allNone b b' minSize group ctr :
  allNone (specialGrid b) ->
  (exists res,
     MegaBombController.createFromGroup
       (MegaBombController.mk (Some b) minSize) group ctr
     = Returns (MegaBombController.mk (Some b') minSize) res)
  \/ MegaBombController.createFromGroup
       (MegaBombController.mk (Some b) minSize) group ctr
     = Throws (MegaBombController.mk (Some b') minSize) ->
  allNone (specialGrid b').
Proof.
  intros H. unfold MegaBombController.createFromGroup.
  cbn [MegaBombController.board MegaBombController.minGroupSize].
  destruct (_ <? minSize).
  { intros [(res & [= <-])|[=]]. exact H. }
  match goal with |- context [removeGroup b ?l] =>
    pose proof (removeGroup_allNone b l H) as H1;
    set (b1 := removeGroup b l) in * end.
  destruct (jsRead (grid b1) (row ctr) (col ctr)).
  - intros [(res & [=])|[= <-]]. exact H1.
  - intros [(res & [=])|[=]].
  - intros [(res & [= <-])|[=]]. exact H1.
Qed.

Lemma explode_allNone b b' minSize r c res :
  allNone (specialGrid b) ->
  MegaBombController.explode (MegaBombController.mk (Some b) minSize) r c
    = Returns (MegaBombController.mk (Some b') minSize) res ->
  allNone (specialGrid b').
Proof.
  intros H. unfold MegaBombController.explode.
  cbn [MegaBombController.board MegaBombController.minGroupSize].
  destruct (jsRead (grid b) r c); try (intros [= <-]; exact H);
    try discriminate.
  destruct (negb _); [intros [= <-]; exact H|].
  destruct (bool_decide _); [intros [= <-]; exact H|].
  intros [= <-]. by apply removeGroup_allNone.
Qed.

Lemma reachable_allNone b : boardReachable b -> allNone (specialGrid b).
Proof.
  induction 1 as [| | | | | | |b b' m g ctr res _ IH E
                  |b b' m g ctr _ IH E|b b' m r c res _ IH E];
    eauto using randomFill_allNone, removeGroup_allNone,
      applyGravity_allNone, refillEmptyCells_allNone, swapTiles_allNone,
      clearAllTiles_allNone, explode_allNone.
  - eapply createFromGroup_allNone; [exact IH|]. left. eauto.
  - eapply createFromGroup_allNone; [exact IH|]. right. eauto.
Qed.

(** C10.  On every board reachable from [randomFill] through
    [removeGroup], [applyGravity], [refillEmptyCells], [swapTiles],
    [clearAllTiles] and the mega-bomb controller's [createFromGroup] and
    [explode], every entry of [specialGrid] is [TileSpecial.None], so
    [BoardModel.isMegaBomb(row, col)] is false for every cell. *)
Theorem special_grid_stays_none (b : BoardModel) :
  boardReachable b ->
  Forall (Forall (eq TileSpecial.None)) (specialGrid b)
  /\ forall r c, isMegaBomb b r c = false.
Proof.
  intros H%reachable_allNone. split; [exact H|].
  intros r c. unfold isMegaBomb, getSpecial.
  destruct (negb (inBounds b r c)).
  - by apply bool_decide_eq_false_2.
  - rewrite allNone_specialAt by exact H. by apply bool_decide_eq_false_2.
Qed.
End SpecialLayer.

Lemma special_grid_stays_none_witness :
  let b := removeGroup
             (randomFill (fun _ _ => 0%nat) (newBoardModel 2 2 []))
             [mkPos 0 0] in
  Forall (Forall (eq TileSpecial.None)) (specialGrid b)
  /\ forall r c, isMegaBomb b r c = false.
Proof.
  apply (special_grid_stays_none
           (removeGroup
              (randomFill (fun _ _ => 0%nat) (newBoardModel 2 2 []))
              [mkPos 0 0])).
  apply reach_removeGroup, reach_new.
Defined.

(** * The mega bomb *)

Section MegaBombFacts.
Import MegaBombController.
Local Open Scope Z_scope.

Lemma jsRead_value {A} (m : list (list A)) r c x :
  mget m r c = Some x -> jsRead m r c = ReadValue x.
Proof.
  intros (Hr & Hc & rowArr & H1 & H2)%mget_Some. unfold jsRead.
  replace (r <? 0) with false by lia. rewrite H1.
  replace (c <? 0) with false by lia. by rewrite H2.
Qed.

Lemma jsRead_row_outside {A} nr nc (m : list (list A)) r c :
  wfMatrix nr nc m -> ~ (0 <= r < nr) -> jsRead m r c = ReadThrows.
Proof.
  intros [Hl _] Hout. unfold jsRead.
  destruct (r <? 0) eqn:E; [reflexivity|]. apply Z.ltb_ge in E.
  rewrite (lookup_ge_None_2 m (Z.to_nat r)) by lia. reflexivity.
Qed.

Lemma jsRead_col_outside {A} nr nc (m : list (list A)) r c :
  wfMatrix nr nc m -> 0 <= r < nr -> ~ (0 <= c < nc) ->
  jsRead m r c = ReadUndefined.
Proof.
  intros [Hl Hf] Hr Hout. unfold jsRead.
  replace (r <? 0) with false by lia.
  destruct (lookup_lt_is_Some_2 m (Z.to_nat r)) as [rowArr Hrow]; [lia|].
  rewrite Hrow.
  pose proof (Forall_lookup_1 _ _ _ _ Hf Hrow) as Hlen. cbn in Hlen.
  destruct (c <? 0) eqn:E; [reflexivity|]. apply Z.ltb_ge in E.
  rewrite (lookup_ge_None_2 rowArr (Z.to_nat c)) by lia. reflexivity.
Qed.

Lemma swapTiles_out_of_bounds b p q :
  inBounds b (row p) (col p) = false \/ inBounds b (row q) (col q) = false ->
  swapTiles b p q = b.
Proof.
  intros H. unfold swapTiles.
  destruct H as [-> | ->]; cbn; [reflexivity|].
  by rewrite orb_true_r.
Qed.

Lemma explode_row_out_of_range b minSize r c :
  wfBoard b -> ~ (0 <= r < rows b) ->
  explode (mk (Some b) minSize) r c = Throws (mk (Some b) minSize).
Proof.
  intros [Hg _] Hout. unfold explode. cbn [board].
  by rewrite (jsRead_row_outside _ _ _ _ _ Hg Hout).
Qed.

Lemma explode_not_mega_bomb b minSize r c :
  wfBoard b -> inBounds b r c = true ->
  cellAt (grid b) r c <> Some TileColor.MegaBomb ->
  explode (mk (Some b) minSize) r c = Returns (mk (Some b) minSize) None.
Proof.
  intros [Hg _] Hin%inBounds_spec Hcell. unfold explode. cbn [board].
  destruct (wfMatrix_mget _ _ _ _ _ Hg (proj1 Hin) (proj2 Hin)) as [x Hx].
  rewrite (jsRead_value _ _ _ _ Hx).
  unfold cellAt in Hcell. rewrite Hx in Hcell. cbn in Hcell.
  by rewrite bool_decide_eq_false_2.
Qed.

(** C4, at the input where the code departs from it: on the 1 x 1 board
    holding one green tile, [explode(-1, 0)] does not return a none
    result; indexing [grid[-1]] raises a TypeError.  (A swap with an
    endpoint outside the board is the no-op the claim describes, see
    [swapTiles_out_of_bounds].) *)
Theorem explode_out_of_range_throws :
  let b := randomFill (fun _ _ => 0%nat) (newBoardModel 1 1 TILE_COLORS) in
  let mc := mk (Some b) GameConfig.megaBombMinGroupSize in
  grid b = [[Some TileColor.Green]]
  /\ inBounds b (-1) 0 = false
  /\ explode mc (-1) 0 = Throws mc
  /\ isMegaBomb mc (-1) 0 = Throws mc
  /\ swapTiles b (mkPos (-1) 0) (mkPos 0 0) = b.
Proof. cbn zeta. repeat split. Qed.

Lemma filter_without_center (group : list TilePos) (ctr p : TilePos) :
  p ∈ List.filter (fun q =>
        negb (bool_decide (row q = row ctr)
              && bool_decide (col q = col ctr))) group
  <-> p ∈ group /\ p <> ctr.
Proof.
  rewrite !list_elem_of_In, filter_In. destruct p as [pr pc], ctr as [cr cc].
  cbn. rewrite negb_true_iff, andb_false_iff, !bool_decide_eq_false.
  split; intros [H1 H2]; (split; [exact H1|]).
  - intros [= -> ->]. tauto.
  - destruct (decide (pr = cr)); [|auto].
    destruct (decide (pc = cc)); [|auto]. subst. congruence.
Qed.

(** C9.  On a board of the declared geometry, for a center cell of the
    board: [createFromGroup(group, center)] with
    [group.length >= megaBombMinGroupSize] returns [created = true] with
    the given center and with [removedCells] equal to the group minus the
    center, so the center is never in it; afterwards every cell of the group
    other than the center is empty, the center holds the MegaBomb color,
    and every other cell is as before.  With
    [group.length < megaBombMinGroupSize] it returns [created = false]
    with no removed cells and changes nothing. *)
Theorem createFromGroup_spec
    (b : BoardModel) (minSize : Z) (group : list TilePos) (ctr : TilePos) :
  wfBoard b ->
  inBounds b (row ctr) (col ctr) = true ->
  let mc := mk (Some b) minSize in
  (minSize <= Z.of_nat (length group) ->
   exists b' removed,
     createFromGroup mc group ctr
       = Returns (mk (Some b') minSize) (mkCreation true (Some ctr) removed)
     /\ (ctr ∉ removed)
     /\ (forall p, p ∈ removed <-> p ∈ group /\ p <> ctr)
     /\ cellAt (grid b') (row ctr) (col ctr) = Some TileColor.MegaBomb
     /\ (forall p, p ∈ group -> p <> ctr ->
                   cellAt (grid b') (row p) (col p) = None)
     /\ (forall p, (p ∉ group) -> p <> ctr ->
                   cellAt (grid b') (row p) (col p)
                   = cellAt (grid b) (row p) (col p))
     /\ wfBoard b')
  /\ (Z.of_nat (length group) < minSize ->
      createFromGroup mc group ctr = Returns mc (mkCreation false None [])).
Proof.
  intros Hwf Hin. cbn zeta. split.
  - intros Hsize. unfold createFromGroup. cbn [board minGroupSize].
    replace (_ <? minSize) with false by lia.
    set (removed := List.filter _ group).
    pose proof (removeGroup_wf b removed Hwf) as Hwf1.
    pose proof (removeGroup_cellAt b removed) as Hcell.
    set (b1 := removeGroup b removed) in *.
    apply inBounds_spec in Hin.
    destruct Hwf1 as [Hg1 Hs1].
    destruct (wfMatrix_mget _ _ _ _ _ Hg1 (proj1 Hin) (proj2 Hin))
      as [x Hx].
    rewrite (jsRead_value _ _ _ _ Hx).
    eexists _, _. split; [reflexivity|].
    assert (Hrem : forall p, p ∈ removed <-> p ∈ group /\ p <> ctr)
      by (intros p; apply filter_without_center).
    split; [intros H%Hrem; tauto|]. split; [exact Hrem|].
    cbn [grid setGrids]. split; [|split; [|split]].
    + eapply cellAt_mset_eq; [exact Hg1 | apply Hin | apply Hin].
    + intros p Hp Hne. rewrite cellAt_mset_ne.
      2:{ destruct p as [pr pc], ctr as [cr cc]. cbn.
          destruct (decide (pr = cr)); [|auto].
          destruct (decide (pc = cc)); [|auto]. subst. congruence. }
      rewrite Hcell by exact Hwf. destruct p as [pr pc]. cbn [row col].
      rewrite decide_True; [reflexivity|]. apply Hrem. auto.
    + intros p Hp Hne. rewrite cellAt_mset_ne.
      2:{ destruct p as [pr pc], ctr as [cr cc]. cbn.
          destruct (decide (pr = cr)); [|auto].
          destruct (decide (pc = cc)); [|auto]. subst. congruence. }
      rewrite Hcell by exact Hwf. destruct p as [pr pc]. cbn [row col].
      rewrite decide_False; [reflexivity|]. intros H%Hrem. tauto.
    + split; cbn; [by apply wfMatrix_mset | exact Hs1].
  - intros Hsize. unfold createFromGroup. cbn [board minGroupSize].
    by replace (_ <? minSize) with true by lia.
Qed.
(** C9 on a 2 x 3 all-green board: a five-cell group around (0,1). *)
Lemma createFromGroup_spec_witness :
  let b := randomFill (fun _ _ => 0%nat) (newBoardModel 2 3 TILE_COLORS) in
  let group := [mkPos 0 0; mkPos 0 1; mkPos 0 2; mkPos 1 0; mkPos 1 1] in
  let ctr := mkPos 0 1 in
  let mc := mk (Some b) 5 in
  (5 <= Z.of_nat (length group) ->
   exists b' removed,
     createFromGroup mc group ctr
       = Returns (mk (Some b') 5) (mkCreation true (Some ctr) removed)
     /\ (ctr ∉ removed)
     /\ (forall p, p ∈ removed <-> p ∈ group /\ p <> ctr)
     /\ cellAt (grid b') (row ctr) (col ctr) = Some TileColor.MegaBomb
     /\ (forall p, p ∈ group -> p <> ctr ->
                   cellAt (grid b') (row p) (col p) = None)
     /\ (forall p, (p ∉ group) -> p <> ctr ->
                   cellAt (grid b') (row p) (col p)
                   = cellAt (grid b) (row p) (col p))
     /\ wfBoard b')
  /\ (Z.of_nat (length group) < 5 ->
      createFromGroup mc group ctr = Returns mc (mkCreation false None [])).
Proof.
  apply (createFromGroup_spec
           (randomFill (fun _ _ => 0%nat) (newBoardModel 2 3 TILE_COLORS))
           5 [mkPos 0 0; mkPos 0 1; mkPos 0 2; mkPos 1 0; mkPos 1 1]
           (mkPos 0 1)).
  - split; split; vm_compute; repeat constructor.
  - reflexivity.
Defined.
End MegaBombFacts.

(** * Move availability *)

Section MoveFacts.
Local Open Scope Z_scope.

Lemma existsb_seqZ (f : Z -> bool) (n : Z) :
  existsb f (seqZ 0 n) = true <-> exists i, 0 <= i < n /\ f i = true.
Proof.
  rewrite existsb_exists. split; intros (i & Hi & Hf); exists i;
    (split; [|exact Hf]).
  - apply list_elem_of_In, elem_of_seqZ in Hi. lia.
  - apply list_elem_of_In, elem_of_seqZ. lia.
Qed.

(** C5.  [hasAnyMoves(minGroupSize)] is true whenever
    [minGroupSize <= 1]; for a larger threshold, whatever its value, it is
    true exactly when some cell of the board holds a color that its down
    neighbor or its right neighbor holds too. *)
Theorem hasAnyMoves_spec (b : BoardModel) (minGroupSize : Z) :
  wfBoard b ->
  (minGroupSize <= 1 -> hasAnyMoves b minGroupSize = true)
  /\ (1 < minGroupSize ->
      (hasAnyMoves b minGroupSize = true <->
       exists r c clr,
         inBounds b r c = true
         /\ cellAt (grid b) r c = Some clr
         /\ ((inBounds b (r + 1) c = true
              /\ cellAt (grid b) (r + 1) c = Some clr)
             \/ (inBounds b r (c + 1) = true
                 /\ cellAt (grid b) r (c + 1) = Some clr)))).
Proof.
  intros _. unfold hasAnyMoves. split.
  - intros H. by replace (minGroupSize <=? 1) with true by lia.
  - intros H. replace (minGroupSize <=? 1) with false by lia.
    rewrite existsb_seqZ. split.
    + intros (r & Hr & (c & Hc & Hf)%existsb_seqZ).
      destruct (cellAt (grid b) r c) as [clr|] eqn:E; [|discriminate].
      exists r, c, clr. split; [apply inBounds_spec; lia|].
      split; [exact E|].
      apply orb_true_iff in Hf as [Hf|Hf];
        apply andb_true_iff in Hf as [H1 H2%bool_decide_eq_true]; auto.
    + intros (r & c & clr & Hin%inBounds_spec & Hcell & Hnb).
      exists r. split; [lia|]. apply existsb_seqZ. exists c.
      split; [lia|]. rewrite Hcell. apply orb_true_iff.
      destruct Hnb as [[H1 H2]|[H1 H2]]; [left|right];
        rewrite H1, H2; by rewrite bool_decide_eq_true_2.
Qed.

(** C5 on a 1 x 2 board with two green tiles. *)
Lemma hasAnyMoves_spec_witness :
  let b := randomFill (fun _ _ => 0%nat) (newBoardModel 1 2 TILE_COLORS) in
  (3 <= 1 -> hasAnyMoves b 3 = true)
  /\ (1 < 3 ->
      (hasAnyMoves b 3 = true <->
       exists r c clr,
         inBounds b r c = true
         /\ cellAt (grid b) r c = Some clr
         /\ ((inBounds b (r + 1) c = true
              /\ cellAt (grid b) (r + 1) c = Some clr)
             \/ (inBounds b r (c + 1) = true
                 /\ cellAt (grid b) r (c + 1) = Some clr)))).
Proof.
  apply (hasAnyMoves_spec
           (randomFill (fun _ _ => 0%nat) (newBoardModel 1 2 TILE_COLORS)) 3).
  split; split; vm_compute; repeat constructor.
Defined.
End MoveFacts.

(** * Sums and columns *)

Section IndexedLoops.
Context {S : Type}.

(** Invariants that depend on how far the loop has come. *)
Lemma loopUp_invariant_ix (P : nat -> S -> Prop) (n : nat)
    (f : Z -> S -> S) st :
  P 0%nat st ->
  (forall k s, (k < n)%nat -> P k s -> P (Datatypes.S k) (f (Z.of_nat k) s)) ->
  P n (loopUp n f st).
Proof.
  intros H0 Hstep. induction n as [|n IH]; cbn; [exact H0|].
  apply Hstep; [lia|]. apply IH. intros; apply Hstep; [lia|assumption].
Qed.

Lemma loopDown_invariant_ix (P : nat -> S -> Prop) (n : nat)
    (f : Z -> S -> S) st :
  P n st ->
  (forall k s, (k < n)%nat -> P (Datatypes.S k) s -> P k (f (Z.of_nat k) s)) ->
  P 0%nat (loopDown n f st).
Proof.
  revert st. induction n as [|n IH]; intros st H0 Hstep; cbn; [exact H0|].
  apply IH; [apply Hstep; [lia|exact H0]|].
  intros; apply Hstep; [lia|assumption].
Qed.
End IndexedLoops.

Section Sums.
Local Open Scope Z_scope.

Lemma sumZ_S n f : sumZ (S n) f = sumZ n f + f (Z.of_nat n).
Proof. reflexivity. Qed.

Lemma loopUp_sum n f a :
  loopUp n (fun i acc => acc + f i) a = a + sumZ n f.
Proof.
  induction n as [|n IH]; cbn; [lia|]. rewrite IH.
  change (loopUp n (fun i acc => acc + f i) 0) with (sumZ n f). lia.
Qed.

Lemma sumZ_ext n f g :
  (forall i, 0 <= i < Z.of_nat n -> f i = g i) -> sumZ n f = sumZ n g.
Proof.
  intros H. unfold sumZ. apply loopUp_ext. intros i s Hi. by rewrite H.
Qed.

Lemma sumZ_plus n f g :
  sumZ n (fun i => f i + g i) = sumZ n f + sumZ n g.
Proof.
  induction n as [|n IH]; [reflexivity|]. rewrite !sumZ_S, IH. lia.
Qed.

Lemma sumZ_zero n : sumZ n (fun _ => 0) = 0.
Proof. induction n as [|n IH]; [reflexivity|]. rewrite sumZ_S, IH. lia. Qed.

Lemma sumZ_swap n m (f : Z -> Z -> Z) :
  sumZ n (fun i => sumZ m (fun j => f i j))
  = sumZ m (fun j => sumZ n (fun i => f i j)).
Proof.
  induction n as [|n IH].
  - cbn. symmetry. apply sumZ_zero.
  - rewrite sumZ_S, IH, <- sumZ_plus. apply sumZ_ext. intros j _.
    by rewrite sumZ_S.
Qed.
End Sums.

Section Columns.
Local Open Scope Z_scope.
Implicit Types (g : TileGrid) (l : list Cell).

Lemma survivors_app l1 l2 : survivors (l1 ++ l2) = survivors l1 ++ survivors l2.
Proof.
  induction l1 as [|[clr|] l1 IH]; cbn; [reflexivity| |exact IH].
  by rewrite IH.
Qed.

Lemma survivors_length l : (length (survivors l) <= length l)%nat.
Proof. induction l as [|[clr|] l IH]; cbn; lia. Qed.

Lemma survivors_replicate_None k : survivors (replicate k None) = [].
Proof. induction k as [|k IH]; [reflexivity|exact IH]. Qed.

Lemma survivors_Some (t : list TileColor.t) : survivors (Some <$> t) = t.
Proof. induction t as [|x t IH]; cbn; [reflexivity|]. by rewrite IH. Qed.

Lemma column_length g n c : length (column g n c) = n.
Proof. unfold column. by rewrite length_fmap, length_seq. Qed.

Lemma column_lookup g n c i :
  (i < n)%nat -> column g n c !! i = Some (cellAt g (Z.of_nat i) c).
Proof.
  intros H. unfold column. rewrite list_lookup_fmap.
  by rewrite lookup_seq_lt.
Qed.

Lemma column_ext g g' n c :
  (forall r, 0 <= r < Z.of_nat n -> cellAt g r c = cellAt g' r c) ->
  column g n c = column g' n c.
Proof.
  intros H. apply list_eq. intros i.
  destruct (decide (i < n)%nat) as [Hi|Hi].
  - rewrite !column_lookup by exact Hi. f_equal. apply H. lia.
  - rewrite !lookup_ge_None_2; [reflexivity| |]; rewrite column_length; lia.
Qed.

(** Splitting a column at a row. *)
Lemma column_drop g n c k :
  (k < n)%nat ->
  drop k (column g n c) = cellAt g (Z.of_nat k) c :: drop (S k) (column g n c).
Proof.
  intros H. apply drop_S. by apply column_lookup.
Qed.

Lemma survivors_drop g n c k :
  (k < n)%nat ->
  survivors (drop k (column g n c))
  = match cellAt g (Z.of_nat k) c with
    | Some clr => clr :: survivors (drop (S k) (column g n c))
    | None => survivors (drop (S k) (column g n c))
    end.
Proof.
  intros H. rewrite (column_drop _ _ _ _ H).
  by destruct (cellAt g (Z.of_nat k) c).
Qed.

Lemma survivors_drop_length l k :
  (length (survivors (drop k l)) <= length l - k)%nat.
Proof.
  pose proof (survivors_length (drop k l)) as H.
  rewrite length_drop in H. exact H.
Qed.

Lemma sumZ_occupied g n c :
  sumZ n (fun r => occupied g r c)
  = Z.of_nat (length (survivors (column g n c))).
Proof.
  induction n as [|n IH]; [reflexivity|].
  rewrite sumZ_S, IH. unfold column. rewrite seq_S, fmap_app, survivors_app.
  rewrite length_app. cbn. unfold occupied.
  destruct (cellAt g (Z.of_nat n) c); cbn; lia.
Qed.

Lemma countNonEmptyTiles_columns b :
  countNonEmptyTiles b
  = sumZ (Z.to_nat (cols b)) (fun c =>
      Z.of_nat (length (survivors
        (column (grid b) (Z.to_nat (rows b)) c)))).
Proof.
  unfold countNonEmptyTiles.
  transitivity (sumZ (Z.to_nat (rows b)) (fun r =>
                  sumZ (Z.to_nat (cols b)) (fun c => occupied (grid b) r c))).
  - unfold sumZ at 1. apply loopUp_ext. intros r cnt _.
    rewrite <- loopUp_sum. apply loopUp_ext. intros c cnt' _.
    unfold occupied. destruct (cellAt (grid b) r c); lia.
  - rewrite sumZ_swap. apply sumZ_ext. intros c _. apply sumZ_occupied.
Qed.
End Columns.

(** * Gravity *)

Section GravityColumn.
Local Open Scope Z_scope.
Variables (nrows ncols c : Z) (g0 : TileGrid) (mv0 : list GravityMovement).
Hypothesis Hc : 0 <= c < ncols.
Hypothesis Hmv0 : forall m, m ∈ mv0 -> col (from m) <> c.

Let l0 := column g0 (Z.to_nat nrows) c.

Lemma scanInv_init s0 :
  wfMatrix nrows ncols g0 -> wfMatrix nrows ncols s0 -> NoDup mv0 ->
  scanInv nrows ncols c g0 mv0 (Z.to_nat nrows)
    (mkGravity g0 s0 mv0, nrows - 1).
Proof.
  intros Hg Hs Hnd. unfold scanInv. cbn [fst snd gGrid gSpecial gMoves].
  rewrite drop_ge by (rewrite column_length; lia). cbn [survivors length].
  split; [exact Hg|]. split; [exact Hs|]. split; [lia|].
  split; [auto|]. split; [auto|]. split; [intros; lia|].
  split; [intros; lia|]. split; [|exact Hnd].
  intros m. split; [auto|]. intros [H|(r & clr & Hr & _)]; [exact H|lia].
Qed.

Lemma scanInv_step k st :
  (k < Z.to_nat nrows)%nat ->
  scanInv nrows ncols c g0 mv0 (S k) st ->
  scanInv nrows ncols c g0 mv0 k (gravityStep c (Z.of_nat k) st).
Proof.
  intros Hk. destruct st as [gs w]. unfold scanInv.
  cbn [fst snd]. fold l0.
  intros (Hg & Hs & Hw & Hoth & Hup & Hmid & Hlow & Hmv & Hnd).
  pose proof (survivors_drop g0 (Z.to_nat nrows) c k Hk) as Hsd. fold l0 in Hsd.
  pose proof (survivors_drop_length l0 (S k)) as Hlen.
  unfold l0 in Hlen at 2. rewrite column_length in Hlen.
  assert (Hland : landing nrows l0 (Z.of_nat k) = w).
  { unfold landing. rewrite Nat2Z.id. lia. }
  assert (Hcell : cellAt (gGrid gs) (Z.of_nat k) c = cellAt g0 (Z.of_nat k) c)
    by (apply Hup; lia).
  unfold gravityStep. rewrite Hcell.
  destruct (cellAt g0 (Z.of_nat k) c) as [clr|] eqn:E0.
  - (* a tile *)
    rewrite Hsd.
    destruct (decide (w = Z.of_nat k)) as [Hwk|Hwk].
    + (* already in place *)
      rewrite bool_decide_eq_false_2 by (intros H; apply H; exact Hwk).
      cbn [fst snd length].
      split; [exact Hg|]. split; [exact Hs|]. split; [lia|].
      split; [exact Hoth|]. split; [intros r Hr; apply Hup; lia|].
      split; [intros r Hr; lia|]. split; [|split; [|exact Hnd]].
      * intros r Hr. destruct (decide (r = Z.of_nat k)) as [->|Hne].
        { rewrite Hcell.
          replace (Z.to_nat (Z.of_nat k - (w - 1) - 1)) with 0%nat by lia.
          reflexivity. }
        rewrite Hlow by lia.
        replace (Z.to_nat (r - (w - 1) - 1))
          with (S (Z.to_nat (r - w - 1))) by lia.
        reflexivity.
      * intros m. rewrite Hmv. split.
        { intros [H|(r & clr' & Hr & H)]; [auto|].
          right. exists r, clr'. split; [lia|exact H]. }
        { intros [H|(r & clr' & Hr & Hc0 & Hl & Hm)]; [auto|].
          right. exists r, clr'. split; [|auto].
          destruct (decide (r = Z.of_nat k)) as [->|]; [|lia].
          exfalso. apply Hl. lia. }
    + (* the tile falls to row w *)
      rewrite bool_decide_eq_true_2 by exact Hwk.
      cbn [fst snd length gGrid gSpecial gMoves].
      assert (Hwr : 0 <= w < nrows) by lia.
      split; [by do 2 apply wfMatrix_mset|].
      split; [by do 2 apply wfMatrix_mset|]. split; [lia|].
      split; [|split; [|split; [|split; [|split]]]].
      * intros r c' Hc'. rewrite !cellAt_mset_ne by auto. by apply Hoth.
      * intros r Hr. rewrite !cellAt_mset_ne by lia. apply Hup. lia.
      * intros r Hr. destruct (decide (r = Z.of_nat k)) as [->|Hne].
        { eapply cellAt_mset_eq; [by apply wfMatrix_mset | lia | lia]. }
        rewrite !cellAt_mset_ne by lia. apply Hmid. lia.
      * intros r Hr. rewrite cellAt_mset_ne by lia.
        destruct (decide (r = w)) as [->|Hne].
        { rewrite (cellAt_mset_eq _ _ _ _ _ _ Hg) by lia.
          replace (Z.to_nat (w - (w - 1) - 1)) with 0%nat by lia.
          reflexivity. }
        rewrite cellAt_mset_ne by lia. rewrite Hlow by lia.
        replace (Z.to_nat (r - (w - 1) - 1))
          with (S (Z.to_nat (r - w - 1))) by lia.
        reflexivity.
      * intros m. rewrite elem_of_app, list_elem_of_singleton, Hmv. split.
        { intros [[H|(r & clr' & Hr & H)]| ->]; [auto| |].
          - right. exists r, clr'. split; [lia|exact H].
          - right. exists (Z.of_nat k), clr. split; [lia|].
            split; [exact E0|]. split; [lia|].
            unfold relocation. by rewrite Hland. }
        { intros [H|(r & clr' & Hr & Hc0 & Hl & Hm)]; [auto|].
          destruct (decide (r = Z.of_nat k)) as [->|].
          - right. rewrite Hm. unfold relocation. rewrite Hland. congruence.
          - left. right. exists r, clr'. split; [lia|auto]. }
      * apply NoDup_app. split; [exact Hnd|]. split; [|apply NoDup_singleton].
        intros m Hm ->%list_elem_of_singleton.
        apply Hmv in Hm as [Hm|(r & clr' & Hr & _ & _ & Hm)].
        { by apply Hmv0 in Hm. }
        unfold relocation in Hm. injection Hm as Hm _ _. lia.
  - (* an empty cell *)
    rewrite Hsd. cbn [fst snd].
    split; [exact Hg|]. split; [exact Hs|]. split; [lia|].
    split; [exact Hoth|]. split; [intros r Hr; apply Hup; lia|].
    split; [|split; [|split; [|exact Hnd]]].
    + intros r Hr. destruct (decide (r = Z.of_nat k)) as [->|Hne].
      * by rewrite Hcell.
      * apply Hmid. lia.
    + exact Hlow.
    + intros m. rewrite Hmv. split.
      * intros [H|(r & clr' & Hr & H)]; [auto|].
        right. exists r, clr'. split; [lia|exact H].
      * intros [H|(r & clr' & Hr & Hc0 & Hl & Hm)]; [auto|].
        right. exists r, clr'. split; [|auto].
        destruct (decide (r = Z.of_nat k)) as [->|]; [|lia]. congruence.
Qed.
(** The clearing loop writes [null] only where the walk left [null]. *)
Lemma scanInv_clear w gs r :
  0 <= r <= w ->
  scanInv nrows ncols c g0 mv0 0 (gs, w) ->
  scanInv nrows ncols c g0 mv0 0 (gravityClear c r gs, w).
Proof.
  intros Hr. unfold scanInv. cbn [fst snd gGrid gSpecial gMoves]. fold l0.
  intros (Hg & Hs & Hw & Hoth & Hup & Hmid & Hlow & Hmv & Hnd).
  pose proof (survivors_drop_length l0 0) as Hlen.
  unfold l0 in Hlen at 2. rewrite column_length in Hlen.
  assert (Hsame : forall r' c',
             cellAt (mset (gGrid gs) r c None) r' c' = cellAt (gGrid gs) r' c').
  { intros r' c'. destruct (decide (r' = r /\ c' = c)) as [[-> ->]|Hne].
    - rewrite (cellAt_mset_eq _ _ _ _ _ _ Hg) by lia.
      symmetry. apply Hmid. lia.
    - apply cellAt_mset_ne. lia. }
  split; [by apply wfMatrix_mset|]. split; [by apply wfMatrix_mset|].
  split; [exact Hw|].
  split; [intros; rewrite Hsame; by apply Hoth|].
  split; [intros; rewrite Hsame; by apply Hup|].
  split; [intros; rewrite Hsame; by apply Hmid|].
  split; [intros; rewrite Hsame; by apply Hlow|].
  split; [exact Hmv | exact Hnd].
Qed.

Lemma gravityColumn_scanInv s0 :
  wfMatrix nrows ncols g0 -> wfMatrix nrows ncols s0 -> NoDup mv0 ->
  exists w,
    scanInv nrows ncols c g0 mv0 0
      (gravityColumn nrows c (mkGravity g0 s0 mv0), w).
Proof.
  intros Hg Hs Hnd. unfold gravityColumn.
  pose proof (loopDown_invariant_ix (scanInv nrows ncols c g0 mv0)
                (Z.to_nat nrows) (gravityStep c) _
                (scanInv_init s0 Hg Hs Hnd)) as Hscan.
  destruct (loopDown (Z.to_nat nrows) (gravityStep c) _) as [gs1 w].
  specialize (Hscan (fun k s Hk => scanInv_step k s Hk)).
  exists w.
  apply (loopDown_invariant
           (fun gs => scanInv nrows ncols c g0 mv0 0 (gs, w)));
    [exact Hscan|].
  intros r gs Hr. apply scanInv_clear. lia.
Qed.
End GravityColumn.

Section GravityBoard.
Local Open Scope Z_scope.

Lemma landingRow_landing b r c :
  landingRow b r c = landing (rows b) (column (grid b) (Z.to_nat (rows b)) c) r.
Proof. reflexivity. Qed.

Lemma gravityInv_init b :
  wfBoard b -> gravityInv b 0 (mkGravity (grid b) (specialGrid b) []).
Proof.
  intros [Hg Hs]. unfold gravityInv. cbn [gGrid gSpecial gMoves].
  split; [exact Hg|]. split; [exact Hs|]. split; [auto|].
  split; [intros; lia|]. split; [|constructor].
  intros m. split; [by intros ?%elem_of_nil|].
  intros (r & c & clr & Hc & _). lia.
Qed.

Lemma gravityInv_step b j gs :
  (j < Z.to_nat (cols b))%nat ->
  gravityInv b j gs ->
  gravityInv b (S j) (gravityColumn (rows b) (Z.of_nat j) gs).
Proof.
  intros Hj. destruct gs as [g s mv]. unfold gravityInv at 1.
  cbn [gGrid gSpecial gMoves].
  intros (Hg & Hs & Hrest & Hdone & Hmv & Hnd).
  assert (Hcj : 0 <= Z.of_nat j < cols b) by lia.
  assert (Hmv0 : forall m, m ∈ mv -> col (from m) <> Z.of_nat j).
  { intros m (r & c & clr & Hc & _ & _ & _ & ->)%Hmv. cbn. lia. }
  destruct (gravityColumn_scanInv (rows b) (cols b) (Z.of_nat j) g mv
              Hcj Hmv0 s Hg Hs Hnd) as (w & Hinv).
  set (gs' := gravityColumn (rows b) (Z.of_nat j) (mkGravity g s mv)) in *.
  unfold scanInv in Hinv. cbn [fst snd] in Hinv.
  assert (Hcol : column g (Z.to_nat (rows b)) (Z.of_nat j)
                 = column (grid b) (Z.to_nat (rows b)) (Z.of_nat j)).
  { apply column_ext. intros r _. apply Hrest. lia. }
  rewrite Hcol in Hinv. rewrite drop_0 in Hinv.
  destruct Hinv as (Hg' & Hs' & Hw & Hoth & _ & Hmid & Hlow & Hmv' & Hnd').
  unfold gravityInv.
  split; [exact Hg'|]. split; [exact Hs'|].
  split; [|split; [|split; [|exact Hnd']]].
  - intros r c Hc. rewrite Hoth by lia. apply Hrest. lia.
  - intros c Hc. destruct (decide (c = Z.of_nat j)) as [->|Hne].
    + unfold compacted. cbn zeta. rewrite <- Hw. split.
      * intros r Hr. apply Hmid. lia.
      * exact Hlow.
    + destruct (Hdone c) as [D1 D2]; [lia|]. unfold compacted.
      split; intros r Hr; rewrite Hoth by exact Hne; [by apply D1|by apply D2].
  - intros m. rewrite Hmv', Hmv. split.
    + intros [(r & c & clr & Hc & H)|(r & clr & Hr & Hcell & Hl & ->)].
      * exists r, c, clr. split; [lia|exact H].
      * exists r, (Z.of_nat j), clr. split; [lia|]. split; [lia|].
        rewrite <- Hrest by lia. rewrite landingRow_landing. auto.
    + intros (r & c & clr & Hc & Hr & Hcell & Hl & ->).
      destruct (decide (c = Z.of_nat j)) as [->|Hne].
      * right. exists r, clr. split; [lia|].
        rewrite Hrest by lia. rewrite landingRow_landing in Hl. auto.
      * left. exists r, c, clr. split; [lia|auto].
Qed.

Lemma applyGravity_gravityInv b :
  wfBoard b ->
  gravityInv b (Z.to_nat (cols b))
    (loopUp (Z.to_nat (cols b)) (gravityColumn (rows b))
       (mkGravity (grid b) (specialGrid b) [])).
Proof.
  intros Hwf. apply (loopUp_invariant_ix (gravityInv b)).
  - by apply gravityInv_init.
  - intros k s Hk. by apply gravityInv_step.
Qed.

(** A compacted column, as a list. *)
Lemma compacted_column nrows c g0 g :
  compacted nrows c g0 g ->
  let tiles := survivors (column g0 (Z.to_nat nrows) c) in
  column g (Z.to_nat nrows) c
  = replicate (Z.to_nat nrows - length tiles) None ++ (Some <$> tiles).
Proof.
  intros [D1 D2]. cbn zeta.
  set (tiles := survivors (column g0 (Z.to_nat nrows) c)) in *.
  assert (Hlen : (length tiles <= Z.to_nat nrows)%nat).
  { pose proof (survivors_length (column g0 (Z.to_nat nrows) c)) as H.
    by rewrite column_length in H. }
  apply list_eq. intros i.
  destruct (decide (i < Z.to_nat nrows)%nat) as [Hi|Hi].
  - rewrite column_lookup by exact Hi.
    destruct (decide (i < Z.to_nat nrows - length tiles)%nat) as [Hlt|Hge].
    + rewrite lookup_app_l by (rewrite length_replicate; lia).
      rewrite lookup_replicate_2 by lia. f_equal. apply D1. lia.
    + rewrite lookup_app_r by (rewrite length_replicate; lia).
      rewrite length_replicate, list_lookup_fmap. rewrite D2 by lia.
      replace (Z.to_nat (Z.of_nat i
                 - (nrows - 1 - Z.of_nat (length tiles)) - 1))
        with (i - (Z.to_nat nrows - length tiles))%nat by lia.
      destruct (lookup_lt_is_Some_2 tiles
                  (i - (Z.to_nat nrows - length tiles))) as [x Hx]; [lia|].
      by rewrite Hx.
  - rewrite !lookup_ge_None_2; [reflexivity| |].
    + rewrite length_app, length_replicate, length_fmap. lia.
    + rewrite column_length. lia.
Qed.

(** The tile of row [r] is found at its landing row. *)
Lemma compacted_landing nrows c g0 g r clr :
  compacted nrows c g0 g ->
  0 <= r < nrows -> cellAt g0 r c = Some clr ->
  let l0 := column g0 (Z.to_nat nrows) c in
  0 <= landing nrows l0 r < nrows
  /\ cellAt g (landing nrows l0 r) c = Some clr.
Proof.
  intros [D1 D2] Hr Hcell. cbn zeta.
  set (l0 := column g0 (Z.to_nat nrows) c) in *.
  assert (Hl0 : l0 !! Z.to_nat r = Some (Some clr)).
  { unfold l0. rewrite column_lookup by lia. rewrite Z2Nat.id by lia.
    by rewrite Hcell. }
  assert (Hsplit : survivors l0
                   = survivors (take (Z.to_nat r) l0)
                     ++ clr :: survivors (drop (S (Z.to_nat r)) l0)).
  { rewrite <- (take_drop_middle l0 (Z.to_nat r) (Some clr) Hl0) at 1.
    by rewrite survivors_app. }
  pose proof (survivors_drop_length l0 (S (Z.to_nat r))) as Hlen.
  unfold l0 in Hlen at 2. rewrite column_length in Hlen.
  unfold landing. split; [lia|].
  rewrite D2.
  2:{ fold l0. rewrite Hsplit, length_app. cbn [length]. lia. }
  fold l0. rewrite Hsplit at 2.
  match goal with |- _ !! ?i = _ =>
    replace i with (length (survivors (take (Z.to_nat r) l0)) + 0)%nat end.
  - by rewrite lookup_app_r, Nat.add_comm, Nat.add_sub by lia.
  - rewrite Hsplit, length_app. cbn [length]. lia.
Qed.
End GravityBoard.

Section GravityTheorem.
Local Open Scope Z_scope.

(** C1.  On a board of the declared geometry, [applyGravity()] keeps
    [countNonEmptyTiles()]; it leaves every column with the same colors in
    the same top-to-bottom order, now at the bottom of the column under
    empty cells; and the movement list holds, once each, exactly the
    records (from, to, color) of the tiles whose landing row differs from
    their row, a tile that stays in its row being never listed.  Each tile
    is found at its landing row in the new grid. *)
Theorem applyGravity_spec (b : BoardModel) :
  wfBoard b ->
  let b' := fst (applyGravity b) in
  let moves := snd (applyGravity b) in
  let n := Z.to_nat (rows b) in
  wfBoard b'
  /\ countNonEmptyTiles b' = countNonEmptyTiles b
  /\ (forall c, 0 <= c < cols b ->
        survivors (column (grid b') n c) = survivors (column (grid b) n c))
  /\ (forall c, 0 <= c < cols b ->
        let tiles := survivors (column (grid b) n c) in
        column (grid b') n c
        = replicate (n - length tiles) None ++ (Some <$> tiles))
  /\ (forall m, m ∈ moves <->
        exists r c clr,
          inBounds b r c = true
          /\ cellAt (grid b) r c = Some clr
          /\ landingRow b r c <> r
          /\ m = mkMove (mkPos r c) (mkPos (landingRow b r c) c) clr)
  /\ NoDup moves
  /\ (forall r c clr,
        inBounds b r c = true -> cellAt (grid b) r c = Some clr ->
        inBounds b (landingRow b r c) c = true
        /\ cellAt (grid b') (landingRow b r c) c = Some clr).
Proof.
  intros Hwf. cbn zeta. unfold applyGravity. cbn [fst snd].
  pose proof (applyGravity_gravityInv b Hwf) as Hinv.
  set (gs := loopUp _ _ _) in *.
  destruct Hinv as (Hg & Hs & _ & Hdone & Hmv & Hnd).
  assert (Hcols : forall c, 0 <= c < cols b ->
            column (gGrid gs) (Z.to_nat (rows b)) c
            = replicate (Z.to_nat (rows b)
                         - length (survivors
                             (column (grid b) (Z.to_nat (rows b)) c))) None
              ++ (Some <$> survivors (column (grid b) (Z.to_nat (rows b)) c))).
  { intros c Hc. apply compacted_column. apply Hdone. lia. }
  assert (Hsurv : forall c, 0 <= c < cols b ->
            survivors (column (gGrid gs) (Z.to_nat (rows b)) c)
            = survivors (column (grid b) (Z.to_nat (rows b)) c)).
  { intros c Hc. rewrite (Hcols c Hc), survivors_app.
    by rewrite survivors_replicate_None, survivors_Some. }
  split; [by split|]. split; [|split; [|split; [|split; [|split]]]].
  - rewrite !countNonEmptyTiles_columns. cbn [rows cols grid setGrids].
    apply sumZ_ext. intros c Hc. by rewrite Hsurv by lia.
  - exact Hsurv.
  - exact Hcols.
  - intros m. rewrite Hmv. split.
    + intros (r & c & clr & Hc & Hr & H). exists r, c, clr.
      split; [apply inBounds_spec; lia | exact H].
    + intros (r & c & clr & Hin%inBounds_spec & H). exists r, c, clr.
      split; [lia|]. split; [lia | exact H].
  - exact Hnd.
  - intros r c clr Hin%inBounds_spec Hcell.
    destruct (compacted_landing (rows b) c (grid b) (gGrid gs) r clr)
      as [H1 H2]; [apply Hdone; lia | lia | exact Hcell |].
    rewrite landingRow_landing. split; [apply inBounds_spec; lia | exact H2].
Qed.

(** C1 on a 3 x 2 board with holes:
    column 0 is green, empty, blue; column 1 is empty, red, empty. *)
Lemma applyGravity_spec_witness :
  let b := mkBoard 3 2 TILE_COLORS
             [[Some TileColor.Green; None];
              [None; Some TileColor.Red];
              [Some TileColor.Blue; None]]
             [[TileSpecial.None; TileSpecial.None];
              [TileSpecial.None; TileSpecial.None];
              [TileSpecial.None; TileSpecial.None]] in
  let b' := fst (applyGravity b) in
  let moves := snd (applyGravity b) in
  let n := Z.to_nat (rows b) in
  wfBoard b'
  /\ countNonEmptyTiles b' = countNonEmptyTiles b
  /\ (forall c, 0 <= c < cols b ->
        survivors (column (grid b') n c) = survivors (column (grid b) n c))
  /\ (forall c, 0 <= c < cols b ->
        let tiles := survivors (column (grid b) n c) in
        column (grid b') n c
        = replicate (n - length tiles) None ++ (Some <$> tiles))
  /\ (forall m, m ∈ moves <->
        exists r c clr,
          inBounds b r c = true
          /\ cellAt (grid b) r c = Some clr
          /\ landingRow b r c <> r
          /\ m = mkMove (mkPos r c) (mkPos (landingRow b r c) c) clr)
  /\ NoDup moves
  /\ (forall r c clr,
        inBounds b r c = true -> cellAt (grid b) r c = Some clr ->
        inBounds b (landingRow b r c) c = true
        /\ cellAt (grid b') (landingRow b r c) c = Some clr).
Proof.
  apply (applyGravity_spec
           (mkBoard 3 2 TILE_COLORS
              [[Some TileColor.Green; None];
               [None; Some TileColor.Red];
               [Some TileColor.Blue; None]]
              [[TileSpecial.None; TileSpecial.None];
               [TileSpecial.None; TileSpecial.None];
               [TileSpecial.None; TileSpecial.None]])).
  split; split; vm_compute; repeat constructor.
Defined.

(** The same board, run: the green tile falls one row, the red tile one
    row, the blue tile stays and is not reported. *)
Example applyGravity_run :
  let b := mkBoard 3 2 TILE_COLORS
             [[Some TileColor.Green; None];
              [None; Some TileColor.Red];
              [Some TileColor.Blue; None]]
             [[TileSpecial.None; TileSpecial.None];
              [TileSpecial.None; TileSpecial.None];
              [TileSpecial.None; TileSpecial.None]] in
  grid (fst (applyGravity b))
  = [[None; None];
     [Some TileColor.Green; None];
     [Some TileColor.Blue; Some TileColor.Red]]
  /\ snd (applyGravity b)
  = [mkMove (mkPos 0 0) (mkPos 1 0) TileColor.Green;
     mkMove (mkPos 1 1) (mkPos 2 1) TileColor.Red].
Proof. split; reflexivity. Qed.
End GravityTheorem.

(** * Group search *)

Section FloodFill.
Local Open Scope Z_scope.

Lemma neighbours_manhattan p q : q ∈ neighbours p <-> manhattan p q = 1.
Proof.
  unfold neighbours, manhattan. destruct p as [pr pc], q as [qr qc].
  cbn [row col]. rewrite !elem_of_cons. split.
  - intros [[= -> ->]|[[= -> ->]|[[= -> ->]|[[= -> ->]|H]]]];
      [lia|lia|lia|lia|by apply elem_of_nil in H].
  - intros H.
    destruct (decide (qr = pr - 1)) as [->|]; [left; f_equal; lia|].
    destruct (decide (qr = pr + 1)) as [->|]; [right; left; f_equal; lia|].
    destruct (decide (qc = pc - 1)) as [->|];
      [right; right; left; f_equal; lia|].
    right; right; right; left. f_equal; lia.
Qed.

Lemma countFalse_insert (l : list bool) (i : nat) :
  l !! i = Some false ->
  (countFalse (<[i:=true]> l) + 1 = countFalse l)%nat.
Proof.
  unfold countFalse. revert i. induction l as [|x l IH]; intros i H.
  - discriminate.
  - destruct i as [|i].
    + injection H as ->. cbn. lia.
    + specialize (IH i H).
      change (<[S i:=true]> (x :: l)) with (x :: <[i:=true]> l).
      cbn [List.filter]. destruct (negb x); cbn [length]; lia.
Qed.

Lemma unvisited_mset (v : list (list bool)) r c :
  mget v r c = Some false ->
  (unvisited (mset v r c true) + 1 = unvisited v)%nat.
Proof.
  intros (Hr & Hc & rowArr & H1 & H2)%mget_Some. unfold mset.
  replace (r <? 0) with false by lia. replace (c <? 0) with false by lia.
  cbn [orb]. revert H1. generalize (Z.to_nat r) as i. clear Hr.
  induction v as [|x v IH]; intros i H1; [discriminate|].
  destruct i as [|i]; cbn in *.
  - injection H1 as ->. pose proof (countFalse_insert _ _ H2). lia.
  - specialize (IH i H1). unfold unvisited in IH. lia.
Qed.

Lemma countFalse_replicate n : countFalse (replicate n false) = n.
Proof.
  unfold countFalse. induction n as [|n IH]; cbn; [reflexivity|].
  by rewrite IH.
Qed.

Lemma unvisited_replicate m n :
  unvisited (replicate m (replicate n false)) = (m * n)%nat.
Proof.
  induction m as [|m IH]; [reflexivity|].
  change (unvisited (replicate (S m) (replicate n false)))
    with (countFalse (replicate n false)
          + unvisited (replicate m (replicate n false)))%nat.
  rewrite IH, countFalse_replicate. reflexivity.
Qed.

Lemma wfMatrix_replicate {A} nrows ncols (x : A) :
  wfMatrix nrows ncols
    (replicate (Z.to_nat nrows) (replicate (Z.to_nat ncols) x)).
Proof.
  split; [by rewrite length_replicate|].
  apply Forall_replicate. by rewrite length_replicate.
Qed.

Lemma mget_replicate {A} m n (x y : A) r c :
  mget (replicate m (replicate n x)) r c = Some y -> y = x.
Proof.
  intros (_ & _ & rowArr & H1 & H2)%mget_Some.
  apply lookup_replicate in H1 as [-> _].
  by apply lookup_replicate in H2 as [-> _].
Qed.

Lemma isVisited_mset v p q :
  isVisited (mset v (row p) (col p) true) q ->
  q = p \/ isVisited v q.
Proof.
  unfold isVisited. rewrite mget_mset.
  destruct (decide _) as [[H1 H2]|_]; [|auto].
  intros _. left. destruct p, q; cbn in *; congruence.
Qed.

Lemma isVisited_mset_self b v p :
  wfMatrix (rows b) (cols b) v ->
  inBounds b (row p) (col p) = true ->
  isVisited (mset v (row p) (col p) true) p.
Proof.
  intros Hwf Hin%inBounds_spec. unfold isVisited.
  destruct (wfMatrix_mget _ _ _ _ _ Hwf (proj1 Hin) (proj2 Hin)) as [x Hx].
  eapply mget_mset_eq, Hx.
Qed.

Lemma isVisited_mset_mono v p q :
  isVisited v q -> isVisited (mset v (row p) (col p) true) q.
Proof.
  unfold isVisited. intros H. rewrite mget_mset.
  destruct (decide _) as [[H1 H2]|_]; [|exact H].
  rewrite <- H1, <- H2, H. reflexivity.
Qed.
End FloodFill.

Section FloodFillLoop.
Local Open Scope Z_scope.
Variables (b : BoardModel) (clr : TileColor.t) (start : TilePos).
Hypothesis Hstart_in : inBounds b (row start) (col start) = true.
Hypothesis Hstart_clr : cellAt (grid b) (row start) (col start) = Some clr.

(** With the stack empty the loop invariant is the result's property. *)
Lemma fillInv_done visited group :
  fillInv b clr start visited [] group -> isGroup b clr start group.
Proof.
  intros (Hwf & HG & Hnd & HV & HS & HC & HSt). unfold isGroup.
  split; [|split; [exact Hnd|split]].
  - destruct HSt as [H|H]; [by apply elem_of_nil in H|]. by apply HV.
  - intros p Hp. by apply HG.
  - intros p q Hp Hadj Hin Hq.
    destruct (HC p q Hp Hadj Hin) as [H|H]; [by apply elem_of_nil in H|].
    by apply HV.
Qed.

(** A popped position outside the board, or already visited, is dropped. *)
Lemma fillInv_skip visited p stack group :
  inBounds b (row p) (col p) = false \/ isVisited visited p ->
  fillInv b clr start visited (p :: stack) group ->
  fillInv b clr start visited stack group.
Proof.
  intros Hp (Hwf & HG & Hnd & HV & HS & HC & HSt). unfold fillInv.
  split; [exact Hwf|]. split; [exact HG|]. split; [exact Hnd|].
  split; [exact HV|]. split; [|split].
  - intros q Hq. apply HS. by apply elem_of_cons; right.
  - intros p0 q Hp0 Hadj Hin.
    destruct (HC p0 q Hp0 Hadj Hin) as [[->|H]%elem_of_cons|H]; auto.
    destruct Hp as [Hp|Hp]; [congruence|auto].
  - destruct HSt as [[->|H]%elem_of_cons|H]; auto.
    destruct Hp as [Hp|Hp]; [congruence|auto].
Qed.

(** A popped cell of another color is marked and dropped. *)
Lemma fillInv_other visited p stack group :
  inBounds b (row p) (col p) = true ->
  cellAt (grid b) (row p) (col p) <> Some clr ->
  fillInv b clr start visited (p :: stack) group ->
  fillInv b clr start (mset visited (row p) (col p) true) stack group.
Proof.
  intros Hin Hclr (Hwf & HG & Hnd & HV & HS & HC & HSt). unfold fillInv.
  split; [by apply wfMatrix_mset|]. split; [|split; [exact Hnd|]].
  { intros q Hq. destruct (HG q Hq) as [H1 H2].
    split; [exact H1 | by apply isVisited_mset_mono]. }
  split; [|split; [|split]].
  - intros q [->|Hq]%isVisited_mset Hc; [congruence | by apply HV].
  - intros q Hq. apply HS. by apply elem_of_cons; right.
  - intros p0 q Hp0 Hadj Hinq.
    destruct (HC p0 q Hp0 Hadj Hinq) as [[->|H]%elem_of_cons|H]; auto.
    + right. by eapply isVisited_mset_self.
    + right. by apply isVisited_mset_mono.
  - destruct HSt as [[->|H]%elem_of_cons|H]; auto.
    + right. by eapply isVisited_mset_self.
    + right. by apply isVisited_mset_mono.
Qed.

(** A popped cell of the start color joins the group and its four
    neighbours are pushed. *)
Lemma fillInv_take visited p stack group :
  inBounds b (row p) (col p) = true ->
  ~ isVisited visited p ->
  cellAt (grid b) (row p) (col p) = Some clr ->
  fillInv b clr start visited (p :: stack) group ->
  fillInv b clr start (mset visited (row p) (col p) true)
    (pushNeighbours p stack) (group ++ [p]).
Proof.
  intros Hin Hnv Hclr (Hwf & HG & Hnd & HV & HS & HC & HSt). unfold fillInv.
  assert (Hconn : connected b clr start p).
  { destruct (HS p) as [->|(p0 & Hp0 & Hadj)]; [apply list_elem_of_here| |].
    - by apply conn_start.
    - eapply conn_step; eauto. by apply HG. }
  split; [by apply wfMatrix_mset|]. split; [|split; [|split; [|split; [|split]]]].
  - intros q [Hq| ->%list_elem_of_singleton]%elem_of_app.
    + destruct (HG q Hq) as [H1 H2].
      split; [exact H1 | by apply isVisited_mset_mono].
    + split; [exact Hconn | by eapply isVisited_mset_self].
  - apply NoDup_app. split; [exact Hnd|]. split; [|apply NoDup_singleton].
    intros q Hq ->%list_elem_of_singleton. apply Hnv. by apply HG.
  - intros q [->|Hq]%isVisited_mset Hc; apply elem_of_app.
    + right. by apply list_elem_of_singleton.
    + left. by apply HV.
  - intros q [Hq|Hq]%elem_of_app.
    + right. exists p. split; [apply elem_of_app; right;
                                by apply list_elem_of_singleton|].
      apply neighbours_manhattan. apply list_elem_of_In.
      apply list_elem_of_In, in_rev in Hq. exact Hq.
    + destruct (HS q) as [->|(p0 & Hp0 & Hadj)];
        [by apply elem_of_cons; right | by left |].
      right. exists p0. split; [apply elem_of_app; by left | exact Hadj].
  - intros p0 q [Hp0| ->%list_elem_of_singleton]%elem_of_app Hadj Hinq.
    + destruct (HC p0 q Hp0 Hadj Hinq) as [[->|H]%elem_of_cons|H].
      * right. by eapply isVisited_mset_self.
      * left. apply elem_of_app. by right.
      * right. by apply isVisited_mset_mono.
    + left. apply elem_of_app. left.
      apply neighbours_manhattan in Hadj.
      apply list_elem_of_In. apply -> in_rev. by apply list_elem_of_In.
  - destruct HSt as [[->|H]%elem_of_cons|H].
    + right. by eapply isVisited_mset_self.
    + left. apply elem_of_app. by right.
    + right. by apply isVisited_mset_mono.
Qed.

(** The loop returns, and what it returns is the group of [start]. *)
Lemma findGroupLoop_spec fuel visited stack group :
  fillInv b clr start visited stack group ->
  (5 * unvisited visited + length stack < fuel)%nat ->
  exists g,
    findGroupLoop fuel b clr visited stack group = Some g
    /\ isGroup b clr start g.
Proof.
  revert visited stack group.
  induction fuel as [|fuel IH]; intros visited stack group Hinv Hfuel; [lia|].
  destruct stack as [|p stack]; cbn [findGroupLoop].
  { exists group. split; [reflexivity | by eapply fillInv_done]. }
  cbn [length] in Hfuel.
  destruct (inBounds b (row p) (col p)) eqn:Hin; cbn [negb].
  2:{ apply IH; [|lia]. eapply fillInv_skip; [|exact Hinv]. by left. }
  pose proof Hinv as (Hwf & _).
  apply inBounds_spec in Hin as Hin'.
  destruct (wfMatrix_mget _ _ _ _ _ Hwf (proj1 Hin') (proj2 Hin'))
    as [v Hv].
  rewrite Hv. cbn [default from_option id]. destruct v.
  { apply IH; [|lia]. eapply fillInv_skip; [|exact Hinv]. by right. }
  pose proof (unvisited_mset _ _ _ Hv) as Hun.
  assert (Hnv : ~ isVisited visited p).
  { unfold isVisited. rewrite Hv. discriminate. }
  destruct (bool_decide (cellAt (grid b) (row p) (col p) = Some clr))
    eqn:Hc; [apply bool_decide_eq_true in Hc
            | apply bool_decide_eq_false in Hc].
  - apply IH; [by apply fillInv_take|].
    unfold pushNeighbours. rewrite length_app, length_rev. cbn [neighbours length].
    lia.
  - apply IH; [by apply fillInv_other|]. lia.
Qed.
End FloodFillLoop.

Section FindGroup.
Local Open Scope Z_scope.

Lemma fillInv_init b clr r c :
  fillInv b clr (mkPos r c)
    (replicate (Z.to_nat (rows b)) (replicate (Z.to_nat (cols b)) false))
    [mkPos r c] [].
Proof.
  unfold fillInv. split; [apply wfMatrix_replicate|].
  split; [by intros p ?%elem_of_nil|]. split; [constructor|].
  split; [|split; [|split]].
  - intros p H. unfold isVisited in H. by apply mget_replicate in H.
  - intros q ->%list_elem_of_singleton. by left.
  - by intros p q ?%elem_of_nil.
  - left. apply list_elem_of_here.
Qed.

(** [findGroup] always returns: the fuel it passes to the loop suffices. *)
Lemma findGroup_total b r c : is_Some (findGroup b r c).
Proof.
  unfold findGroup.
  destruct (inBounds b r c) eqn:Hin; cbn [negb]; [|by eexists].
  destruct (cellAt (grid b) r c) as [clr|] eqn:Hc; [|by eexists].
  destruct (findGroupLoop_spec b clr (mkPos r c) Hin Hc (findGroupFuel b)
              _ _ _ (fillInv_init b clr r c)) as (g & Hg & _).
  - rewrite unvisited_replicate. unfold findGroupFuel. cbn [length]. lia.
  - rewrite Hg. by eexists.
Qed.

Lemma isGroup_connected b clr start g p :
  isGroup b clr start g -> (p ∈ g <-> connected b clr start p).
Proof.
  intros (Hs & _ & Hconn & Hclosed). split; [apply Hconn|].
  induction 1 as [|p q _ IH Hadj Hin Hc]; [exact Hs|].
  by eapply Hclosed.
Qed.

Lemma connected_cell b clr start p :
  connected b clr start p ->
  inBounds b (row p) (col p) = true
  /\ cellAt (grid b) (row p) (col p) = Some clr.
Proof. by destruct 1. Qed.

(** C2.  On a board of the declared geometry [findGroup(pos)] returns a
    list without repetition which is empty exactly when [pos] is out of
    bounds or its cell is empty.  Otherwise, with [clr] the color at
    [pos], the list contains [pos]; all its cells are cells of the board
    of color [clr]; its cells are exactly those reached from [pos] through
    4-adjacent cells of color [clr] (so the set is 4-connected); and every
    cell of color [clr] that is 4-adjacent to a cell of the list is in the
    list (so the set is maximal). *)
Theorem findGroup_spec (b : BoardModel) (r c : Z) :
  wfBoard b ->
  exists g,
    findGroup b r c = Some g
    /\ NoDup g
    /\ (g = [] <-> inBounds b r c = false \/ cellAt (grid b) r c = None)
    /\ (forall clr,
          inBounds b r c = true -> cellAt (grid b) r c = Some clr ->
          mkPos r c ∈ g
          /\ (forall p, p ∈ g ->
                inBounds b (row p) (col p) = true
                /\ cellAt (grid b) (row p) (col p) = Some clr)
          /\ (forall p, p ∈ g <-> connected b clr (mkPos r c) p)
          /\ (forall p q, p ∈ g -> manhattan p q = 1 ->
                inBounds b (row q) (col q) = true ->
                cellAt (grid b) (row q) (col q) = Some clr -> q ∈ g)).
Proof.
  intros _. unfold findGroup.
  destruct (inBounds b r c) eqn:Hin; cbn [negb].
  2:{ exists []. split; [reflexivity|]. split; [constructor|].
      split; [split; auto|]. intros clr H. discriminate. }
  destruct (cellAt (grid b) r c) as [clr|] eqn:Hc.
  2:{ exists []. split; [reflexivity|]. split; [constructor|].
      split; [split; auto|]. intros clr _ H. discriminate. }
  destruct (findGroupLoop_spec b clr (mkPos r c) Hin Hc (findGroupFuel b)
              _ _ _ (fillInv_init b clr r c)) as (g & Hg & Hgrp).
  { rewrite unvisited_replicate. unfold findGroupFuel. cbn [length]. lia. }
  exists g. split; [exact Hg|].
  pose proof Hgrp as (Hs & Hnd & Hconn & Hclosed).
  split; [exact Hnd|]. split.
  - split.
    + intros ->. by apply elem_of_nil in Hs.
    + intros [H|H]; discriminate.
  - intros clr' _ [= <-]. split; [exact Hs|]. split; [|split].
    + intros p Hp. by apply (connected_cell b clr (mkPos r c)), Hconn.
    + intros p. by apply isGroup_connected.
    + exact Hclosed.
Qed.

(** C2 on a 2 x 2 board: green, green / blue, green. *)
Lemma findGroup_spec_witness :
  let b := mkBoard 2 2 TILE_COLORS
             [[Some TileColor.Green; Some TileColor.Green];
              [Some TileColor.Blue; Some TileColor.Green]]
             [[TileSpecial.None; TileSpecial.None];
              [TileSpecial.None; TileSpecial.None]] in
  exists g,
    findGroup b 0 0 = Some g
    /\ NoDup g
    /\ (g = [] <-> inBounds b 0 0 = false \/ cellAt (grid b) 0 0 = None)
    /\ (forall clr,
          inBounds b 0 0 = true -> cellAt (grid b) 0 0 = Some clr ->
          mkPos 0 0 ∈ g
          /\ (forall p, p ∈ g ->
                inBounds b (row p) (col p) = true
                /\ cellAt (grid b) (row p) (col p) = Some clr)
          /\ (forall p, p ∈ g <-> connected b clr (mkPos 0 0) p)
          /\ (forall p q, p ∈ g -> manhattan p q = 1 ->
                inBounds b (row q) (col q) = true ->
                cellAt (grid b) (row q) (col q) = Some clr -> q ∈ g)).
Proof.
  apply (findGroup_spec
           (mkBoard 2 2 TILE_COLORS
              [[Some TileColor.Green; Some TileColor.Green];
               [Some TileColor.Blue; Some TileColor.Green]]
              [[TileSpecial.None; TileSpecial.None];
               [TileSpecial.None; TileSpecial.None]]) 0 0).
  split; split; vm_compute; repeat constructor.
Defined.

(** The same board, run from (0,0): the three green cells, in the order
    the stack yields them. *)
Example findGroup_run :
  findGroup
    (mkBoard 2 2 TILE_COLORS
       [[Some TileColor.Green; Some TileColor.Green];
        [Some TileColor.Blue; Some TileColor.Green]]
       [[TileSpecial.None; TileSpecial.None];
        [TileSpecial.None; TileSpecial.None]]) 0 0
  = Some [mkPos 0 0; mkPos 0 1; mkPos 1 1].
Proof. reflexivity. Qed.
End FindGroup.

(** * Further properties of the board operations *)

Section NestedLoops.
Context {S : Type}.

(** An invariant of a row-major double loop, indexed by the point the
    walk has reached. *)
Lemma loopUp2_invariant (P : nat -> nat -> S -> Prop) (nr nc : nat)
    (body : Z -> Z -> S -> S) (st : S) :
  P 0%nat 0%nat st ->
  (forall i j s, (i < nr)%nat -> (j < nc)%nat ->
     P i j s -> P i (Datatypes.S j) (body (Z.of_nat i) (Z.of_nat j) s)) ->
  (forall i s, (i < nr)%nat -> P i nc s -> P (Datatypes.S i) 0%nat s) ->
  P nr 0%nat (loopUp nr (fun r s => loopUp nc (fun c s' => body r c s') s) st).
Proof.
  intros H0 Hin Hout.
  apply (loopUp_invariant_ix (fun i s => P i 0%nat s)); [exact H0|].
  intros i s Hi Hs. apply Hout; [exact Hi|].
  apply (loopUp_invariant_ix (fun j s => P i j s)); [exact Hs|].
  intros j s' Hj. by apply Hin.
Qed.
End NestedLoops.

Section Counting.
Local Open Scope Z_scope.

Lemma sumZ_update n (f f' : Z -> Z) k :
  0 <= k < Z.of_nat n ->
  (forall i, 0 <= i < Z.of_nat n -> i <> k -> f' i = f i) ->
  sumZ n f' = sumZ n f - f k + f' k.
Proof.
  induction n as [|n IH]; intros Hk Hsame; [lia|].
  rewrite !sumZ_S. destruct (decide (k = Z.of_nat n)) as [->|Hne].
  - rewrite (sumZ_ext n f' f) by (intros; apply Hsame; lia). lia.
  - rewrite IH by (try lia; intros; apply Hsame; lia).
    rewrite (Hsame (Z.of_nat n)) by lia. lia.
Qed.

Lemma sumZ_const n (a : Z) : sumZ n (fun _ => a) = Z.of_nat n * a.
Proof. induction n as [|n IH]; [reflexivity|]. rewrite sumZ_S, IH. lia. Qed.

Lemma countNonEmptyTiles_countCells b :
  countNonEmptyTiles b
  = countCells (Z.to_nat (rows b)) (Z.to_nat (cols b)) (grid b).
Proof.
  unfold countNonEmptyTiles, countCells.
  unfold sumZ at 1. apply loopUp_ext. intros r cnt _.
  rewrite <- loopUp_sum. apply loopUp_ext. intros c cnt' _.
  unfold occupied. destruct (cellAt (grid b) r c); lia.
Qed.

Lemma occupied_cellAt g r c : occupied g r c = occupiedCell (cellAt g r c).
Proof. reflexivity. Qed.

(** Writing one cell changes the count by what the cell gains. *)
Lemma countCells_mset nrows ncols g r c x :
  wfMatrix nrows ncols g -> 0 <= r < nrows -> 0 <= c < ncols ->
  countCells (Z.to_nat nrows) (Z.to_nat ncols) (mset g r c x)
  = countCells (Z.to_nat nrows) (Z.to_nat ncols) g
    - occupiedCell (cellAt g r c) + occupiedCell x.
Proof.
  intros Hwf Hr Hc. unfold countCells.
  rewrite (sumZ_update _ (fun r' => sumZ (Z.to_nat ncols)
                                     (fun c' => occupied g r' c')) _ r);
    [|lia|].
  - rewrite (sumZ_update _ (fun c' => occupied g r c')
               (fun c' => occupied (mset g r c x) r c') c); [|lia|].
    + rewrite !occupied_cellAt.
      rewrite (cellAt_mset_eq _ _ _ _ _ _ Hwf Hr Hc). lia.
    + intros c' _ Hne. rewrite !occupied_cellAt.
      by rewrite cellAt_mset_ne by auto.
  - intros r' _ Hne. apply sumZ_ext. intros c' _.
    rewrite !occupied_cellAt. by rewrite cellAt_mset_ne by auto.
Qed.

Lemma countCells_ext nr nc g g' :
  (forall r c, 0 <= r < Z.of_nat nr -> 0 <= c < Z.of_nat nc ->
               cellAt g r c = cellAt g' r c) ->
  countCells nr nc g = countCells nr nc g'.
Proof.
  intros H. unfold countCells. apply sumZ_ext. intros r Hr.
  apply sumZ_ext. intros c Hc. rewrite !occupied_cellAt. by rewrite H.
Qed.

Lemma countCells_full nr nc g :
  (forall r c, 0 <= r < Z.of_nat nr -> 0 <= c < Z.of_nat nc ->
               cellAt g r c <> None) ->
  countCells nr nc g = Z.of_nat nr * Z.of_nat nc.
Proof.
  intros H. unfold countCells.
  rewrite (sumZ_ext nr _ (fun _ => Z.of_nat nc)).
  - rewrite sumZ_const. lia.
  - intros r Hr. rewrite (sumZ_ext nc _ (fun _ => 1)).
    + rewrite sumZ_const. lia.
    + intros c Hc. rewrite occupied_cellAt. specialize (H r c Hr Hc).
      by destruct (cellAt g r c).
Qed.

Lemma countCells_empty nr nc g :
  (forall r c, 0 <= r < Z.of_nat nr -> 0 <= c < Z.of_nat nc ->
               cellAt g r c = None) ->
  countCells nr nc g = 0.
Proof.
  intros H. unfold countCells.
  rewrite (sumZ_ext nr _ (fun _ => 0)); [apply sumZ_zero|].
  intros r Hr. rewrite (sumZ_ext nc _ (fun _ => 0)); [apply sumZ_zero|].
  intros c Hc. rewrite occupied_cellAt. by rewrite H.
Qed.

Lemma countCells_bounds nr nc g :
  0 <= countCells nr nc g <= Z.of_nat nr * Z.of_nat nc.
Proof.
  unfold countCells.
  assert (Hin : forall r, 0 <= sumZ nc (fun c => occupied g r c)
                          <= Z.of_nat nc).
  { intros r. induction nc as [|n IH]; [cbn; lia|].
    rewrite sumZ_S. unfold occupied at 2 4.
    destruct (cellAt g r (Z.of_nat n)); lia. }
  induction nr as [|n IH]; [cbn; lia|].
  rewrite sumZ_S. specialize (Hin (Z.of_nat n)). nia.
Qed.
End Counting.

Section MatrixEquality.
Context {A : Type}.
Local Open Scope Z_scope.

(** Two arrays of one geometry with the same elements are equal. *)
Lemma matrix_ext nrows ncols (m m' : list (list A)) :
  wfMatrix nrows ncols m -> wfMatrix nrows ncols m' ->
  (forall r c, 0 <= r < nrows -> 0 <= c < ncols ->
               mget m r c = mget m' r c) ->
  m = m'.
Proof.
  intros [Hl Hf] [Hl' Hf'] H. apply list_eq. intros i.
  destruct (decide (i < Z.to_nat nrows)%nat) as [Hi|Hi].
  2:{ rewrite !lookup_ge_None_2 by lia. reflexivity. }
  destruct (lookup_lt_is_Some_2 m i) as [x Hx]; [lia|].
  destruct (lookup_lt_is_Some_2 m' i) as [x' Hx']; [lia|].
  rewrite Hx, Hx'. f_equal.
  pose proof (Forall_lookup_1 _ _ _ _ Hf Hx) as Hlen.
  pose proof (Forall_lookup_1 _ _ _ _ Hf' Hx') as Hlen'.
  cbn in Hlen, Hlen'. apply list_eq. intros j.
  destruct (decide (j < Z.to_nat ncols)%nat) as [Hj|Hj].
  2:{ rewrite !lookup_ge_None_2 by lia. reflexivity. }
  specialize (H (Z.of_nat i) (Z.of_nat j)). unfold mget in H.
  replace (Z.of_nat i <? 0) with false in H by lia.
  replace (Z.of_nat j <? 0) with false in H by lia.
  cbn [orb] in H. rewrite !Nat2Z.id, Hx, Hx' in H. cbn in H.
  apply H; lia.
Qed.
End MatrixEquality.

Section Walks.
Local Open Scope Z_scope.
Context {T : Type}.
Variables (nrows ncols : Z) (g0 : TileGrid).
Variables (upd : Z -> Z -> Cell -> Cell) (item : Z -> Z -> Cell -> option T).
Variable delta : Z.
Hypothesis Hitem_inj :
  forall r c x r' c' x' m,
    item r c x = Some m -> item r' c' x' = Some m -> r = r' /\ c = c'.
Hypothesis Hdelta :
  forall r c x m,
    item r c x = Some m -> occupiedCell (upd r c x) = occupiedCell x + delta.

Lemma walked_next i j r c :
  walked i (S j) r c <-> walked i j r c \/ (r = Z.of_nat i /\ c = Z.of_nat j).
Proof. unfold walked. lia. Qed.

Lemma walked_row i r c :
  0 <= c < ncols ->
  (walked i (Z.to_nat ncols) r c <-> walked (S i) 0 r c).
Proof. unfold walked. lia. Qed.

Lemma walkInv_init s0 :
  wfMatrix nrows ncols g0 -> wfMatrix nrows ncols s0 ->
  walkInv nrows ncols g0 upd item delta 0 0 (g0, s0, []).
Proof.
  intros Hg Hs. unfold walkInv. cbn [fst snd length].
  split; [exact Hg|]. split; [exact Hs|].
  split; [intros r c Hr Hc Hw; unfold walked in Hw; lia|].
  split; [auto|]. split; [|split; [constructor|lia]].
  intros m. split; [by intros ?%elem_of_nil|].
  intros (r & c & Hr & Hc & Hw & _). unfold walked in Hw. lia.
Qed.

Lemma walkInv_row i st :
  walkInv nrows ncols g0 upd item delta i (Z.to_nat ncols) st ->
  walkInv nrows ncols g0 upd item delta (S i) 0 st.
Proof.
  unfold walkInv. intros (Hg & Hs & Hdone & Hrest & Hl & Hnd & Hcnt).
  split; [exact Hg|]. split; [exact Hs|]. split; [|split; [|split]].
  - intros r c Hr Hc Hw. apply Hdone; auto. by apply walked_row.
  - intros r c Hr Hc Hw. apply Hrest; auto. by rewrite walked_row.
  - intros m. rewrite Hl. split; intros (r & c & Hr & Hc & Hw & Hm);
      exists r, c; (split; [exact Hr|]); (split; [exact Hc|]);
      (split; [|exact Hm]); by apply (walked_row i r c Hc).
  - auto.
Qed.

Lemma walkInv_step i j st :
  (i < Z.to_nat nrows)%nat -> (j < Z.to_nat ncols)%nat ->
  walkInv nrows ncols g0 upd item delta i j st ->
  walkInv nrows ncols g0 upd item delta i (S j)
    (walkStep upd item (Z.of_nat i) (Z.of_nat j) st).
Proof.
  intros Hi Hj. destruct st as [[g s] l]. unfold walkInv, walkStep.
  cbn [fst snd]. intros (Hg & Hs & Hdone & Hrest & Hl & Hnd & Hcnt).
  assert (Hnw : ~ walked i j (Z.of_nat i) (Z.of_nat j))
    by (unfold walked; lia).
  rewrite (Hrest (Z.of_nat i) (Z.of_nat j)) by (auto; lia).
  destruct (item (Z.of_nat i) (Z.of_nat j)
              (cellAt g0 (Z.of_nat i) (Z.of_nat j))) as [m|] eqn:Em;
    cbn [fst snd].
  - split; [by apply wfMatrix_mset|]. split; [by apply wfMatrix_mset|].
    split; [|split; [|split; [|split]]].
    + intros r c Hr Hc [Hw|[-> ->]]%walked_next.
      * rewrite cellAt_mset_ne by (unfold walked in Hw; lia).
        by apply Hdone.
      * rewrite (cellAt_mset_eq _ _ _ _ _ _ Hg) by lia. by rewrite Em.
    + intros r c Hr Hc Hw. rewrite walked_next in Hw.
      rewrite cellAt_mset_ne by lia. apply Hrest; auto.
    + intros m'. rewrite elem_of_app, list_elem_of_singleton, Hl. split.
      * intros [(r & c & Hr & Hc & Hw & Hm)| ->].
        { exists r, c. split; [exact Hr|]. split; [exact Hc|].
          split; [|exact Hm]. apply walked_next. auto. }
        exists (Z.of_nat i), (Z.of_nat j).
        split; [lia|]. split; [lia|].
        split; [apply walked_next; auto | exact Em].
      * intros (r & c & Hr & Hc & [Hw|[-> ->]]%walked_next & Hm).
        { left. exists r, c. auto. }
        right. congruence.
    + apply NoDup_app. split; [exact Hnd|]. split; [|apply NoDup_singleton].
      intros m' Hm' ->%list_elem_of_singleton.
      apply Hl in Hm' as (r & c & Hr & Hc & Hw & Hm).
      destruct (Hitem_inj _ _ _ _ _ _ _ Hm Em) as [-> ->]. contradiction.
    + rewrite (countCells_mset _ _ _ _ _ _ Hg) by lia.
      rewrite (Hrest (Z.of_nat i) (Z.of_nat j)) by (auto; lia).
      rewrite (Hdelta _ _ _ _ Em), Hcnt, length_app. cbn [length]. lia.
  - split; [exact Hg|]. split; [exact Hs|].
    split; [|split; [|split; [|split]]]; auto.
    + intros r c Hr Hc [Hw|[-> ->]]%walked_next.
      * by apply Hdone.
      * rewrite Em. apply Hrest; auto.
    + intros r c Hr Hc Hw. rewrite walked_next in Hw. apply Hrest; auto.
    + intros m'. rewrite Hl. split.
      * intros (r & c & Hr & Hc & Hw & Hm). exists r, c.
        split; [exact Hr|]. split; [exact Hc|].
        split; [|exact Hm]. apply walked_next. auto.
      * intros (r & c & Hr & Hc & [Hw|[-> ->]]%walked_next & Hm).
        { exists r, c. auto. }
        congruence.
Qed.

(** The whole walk. *)
Lemma walkInv_loop s0 :
  wfMatrix nrows ncols g0 -> wfMatrix nrows ncols s0 ->
  walkInv nrows ncols g0 upd item delta (Z.to_nat nrows) 0
    (loopUp (Z.to_nat nrows) (fun r st =>
       loopUp (Z.to_nat ncols) (fun c st' => walkStep upd item r c st') st)
       (g0, s0, [])).
Proof.
  intros Hg Hs.
  apply (loopUp2_invariant (walkInv nrows ncols g0 upd item delta)).
  - by apply walkInv_init.
  - intros i j s Hi Hj. by apply walkInv_step.
  - intros i s _. apply walkInv_row.
Qed.

Lemma walked_all r c :
  0 <= r < nrows -> walked (Z.to_nat nrows) 0 r c.
Proof. unfold walked. lia. Qed.
End Walks.

Section RefillAndClear.
Local Open Scope Z_scope.

Lemma refill_loop_walk pick b :
  loopUp (Z.to_nat (rows b)) (fun r st =>
    loopUp (Z.to_nat (cols b)) (fun c '(g, s, refilled) =>
      match cellAt g r c with
      | None =>
        let clr := drawColor b pick r c in
        (mset g r c (Some clr), mset s r c TileSpecial.None,
         refilled ++ [mkRefill (mkPos r c) clr])
      | Some _ => (g, s, refilled)
      end) st)
    (grid b, specialGrid b, [])
  = loopUp (Z.to_nat (rows b)) (fun r st =>
      loopUp (Z.to_nat (cols b)) (fun c st' =>
        walkStep (refilledCell b pick) (refillItem b pick) r c st') st)
      (grid b, specialGrid b, []).
Proof.
  apply loopUp_ext. intros r st _. apply loopUp_ext.
  intros c [[g s] l] _. unfold walkStep.
  by destruct (cellAt g r c).
Qed.

Lemma clear_loop_walk b :
  loopUp (Z.to_nat (rows b)) (fun r st =>
    loopUp (Z.to_nat (cols b)) (fun c '(g, s, removed) =>
      match cellAt g r c with
      | Some _ =>
        (mset g r c None, mset s r c TileSpecial.None,
         removed ++ [mkPos r c])
      | None => (g, s, removed)
      end) st)
    (grid b, specialGrid b, [])
  = loopUp (Z.to_nat (rows b)) (fun r st =>
      loopUp (Z.to_nat (cols b)) (fun c st' =>
        walkStep (fun _ _ _ => None) clearItem r c st') st)
      (grid b, specialGrid b, []).
Proof.
  apply loopUp_ext. intros r st _. apply loopUp_ext.
  intros c [[g s] l] _. unfold walkStep.
  by destruct (cellAt g r c).
Qed.

Lemma refillEmptyCells_facts (b : BoardModel) (pick : Z -> Z -> nat) :
  wfBoard b ->
  let b' := fst (refillEmptyCells pick b) in
  let refilled := snd (refillEmptyCells pick b) in
  wfBoard b'
  /\ (forall r c, inBounds b r c = true ->
        cellAt (grid b') r c = refilledCell b pick r c (cellAt (grid b) r c)
        /\ cellAt (grid b') r c <> None)
  /\ (forall m, m ∈ refilled <->
        exists r c, inBounds b r c = true
                    /\ cellAt (grid b) r c = None
                    /\ m = mkRefill (mkPos r c) (drawColor b pick r c))
  /\ NoDup refilled
  /\ countNonEmptyTiles b' = Z.max 0 (rows b) * Z.max 0 (cols b)
  /\ Z.of_nat (length refilled)
     = Z.max 0 (rows b) * Z.max 0 (cols b) - countNonEmptyTiles b.
Proof.
  intros [Hg Hs]. cbn zeta. unfold refillEmptyCells.
  rewrite refill_loop_walk.
  pose proof (walkInv_loop (rows b) (cols b) (grid b)
                (refilledCell b pick) (refillItem b pick) 1) as Hinv.
  destruct (Hinv) with (s0 := specialGrid b)
    as (Hg' & Hs' & Hdone & _ & Hl & Hnd & Hcnt); [| |exact Hg|exact Hs|].
  { intros r c x r' c' x' m H1 H2. destruct x, x'; try discriminate.
    injection H1 as <-. by injection H2 as -> ->. }
  { intros r c x m H. destruct x; [discriminate|]. reflexivity. }
  clear Hinv.
  destruct (loopUp _ _ _) as [[g s] l]. cbn [fst snd] in *.
  assert (Hcell : forall r c, inBounds b r c = true ->
            cellAt g r c = refilledCell b pick r c (cellAt (grid b) r c)).
  { intros r c Hin%inBounds_spec.
    rewrite Hdone by (try apply walked_all; lia).
    by destruct (cellAt (grid b) r c). }
  assert (Hfull : countCells (Z.to_nat (rows b)) (Z.to_nat (cols b)) g
                  = Z.max 0 (rows b) * Z.max 0 (cols b)).
  { rewrite countCells_full; [lia|]. intros r c Hr Hc.
    rewrite Hcell by (apply inBounds_spec; lia).
    by destruct (cellAt (grid b) r c). }
  split; [by split|]. split; [|split; [|split; [exact Hnd|split]]].
  - intros r c Hin. split; [by apply Hcell|]. rewrite Hcell by exact Hin.
    by destruct (cellAt (grid b) r c).
  - intros m. rewrite Hl. split.
    + intros (r & c & Hr & Hc & _ & Hm). exists r, c.
      split; [apply inBounds_spec; lia|].
      destruct (cellAt (grid b) r c); [discriminate|].
      injection Hm as <-. auto.
    + intros (r & c & Hin%inBounds_spec & Hcell0 & ->). exists r, c.
      split; [lia|]. split; [lia|]. split; [apply walked_all; lia|].
      by rewrite Hcell0.
  - rewrite countNonEmptyTiles_countCells. exact Hfull.
  - rewrite countNonEmptyTiles_countCells. lia.
Qed.

(** X1.  On a board of the declared geometry [refillEmptyCells()] keeps
    the geometry and every tile in place, and puts the drawn palette color
    into every empty cell, so no cell of the board is empty afterwards; the
    list it returns names, once each, exactly the cells that were empty,
    with the color written there; its length is the number of cells that
    were empty, and [countNonEmptyTiles()] becomes rows * cols. *)
Theorem refillEmptyCells_spec (b : BoardModel) (pick : Z -> Z -> nat) :
  wfBoard b ->
  let b' := fst (refillEmptyCells pick b) in
  let refilled := snd (refillEmptyCells pick b) in
  wfBoard b'
  /\ (forall r c, inBounds b r c = true ->
        cellAt (grid b') r c = refilledCell b pick r c (cellAt (grid b) r c)
        /\ cellAt (grid b') r c <> None)
  /\ (forall m, m ∈ refilled <->
        exists r c, inBounds b r c = true
                    /\ cellAt (grid b) r c = None
                    /\ m = mkRefill (mkPos r c) (drawColor b pick r c))
  /\ NoDup refilled
  /\ countNonEmptyTiles b' = Z.max 0 (rows b) * Z.max 0 (cols b)
  /\ Z.of_nat (length refilled)
     = Z.max 0 (rows b) * Z.max 0 (cols b) - countNonEmptyTiles b.
Proof. exact (refillEmptyCells_facts b pick). Qed.

(** X2.  On a board of the declared geometry [clearAllTiles()] keeps the
    geometry and leaves every cell empty; the list it returns names, once
    each, exactly the cells that held a tile, so its length is what
    [countNonEmptyTiles()] returned before, and [countNonEmptyTiles()]
    returns 0 afterwards. *)
Theorem clearAllTiles_spec (b : BoardModel) :
  wfBoard b ->
  let b' := fst (clearAllTiles b) in
  let removed := snd (clearAllTiles b) in
  wfBoard b'
  /\ (forall r c, cellAt (grid b') r c = None)
  /\ (forall p, p ∈ removed <->
        inBounds b (row p) (col p) = true
        /\ cellAt (grid b) (row p) (col p) <> None)
  /\ NoDup removed
  /\ Z.of_nat (length removed) = countNonEmptyTiles b
  /\ countNonEmptyTiles b' = 0.
Proof.
  intros [Hg Hs]. cbn zeta. unfold clearAllTiles.
  rewrite clear_loop_walk.
  pose proof (walkInv_loop (rows b) (cols b) (grid b)
                (fun _ _ _ => None) clearItem (-1)) as Hinv.
  destruct (Hinv) with (s0 := specialGrid b)
    as (Hg' & Hs' & Hdone & _ & Hl & Hnd & Hcnt); [| |exact Hg|exact Hs|].
  { intros r c x r' c' x' m H1 H2. destruct x, x'; try discriminate.
    injection H1 as <-. by injection H2 as -> ->. }
  { intros r c x m H. destruct x; [|discriminate]. reflexivity. }
  clear Hinv.
  destruct (loopUp _ _ _) as [[g s] l]. cbn [fst snd] in *.
  assert (Hcell : forall r c, cellAt g r c = None).
  { intros r c.
    destruct (decide (0 <= r < rows b /\ 0 <= c < cols b)) as [[Hr Hc]|Hout].
    - rewrite Hdone by (try apply walked_all; lia).
      unfold clearItem. by destruct (cellAt (grid b) r c).
    - by eapply cellAt_outside. }
  assert (Hzero : countCells (Z.to_nat (rows b)) (Z.to_nat (cols b)) g = 0).
  { apply countCells_empty. intros. apply Hcell. }
  split; [by split|]. split; [exact Hcell|].
  split; [|split; [exact Hnd|split]].
  - intros p. rewrite Hl. destruct p as [pr pc]. cbn [row col]. split.
    + intros (r & c & Hr & Hc & _ & Hm). unfold clearItem in Hm.
      destruct (cellAt (grid b) r c) eqn:E; [|discriminate].
      injection Hm as <- <-. split; [apply inBounds_spec; lia|].
      by rewrite E.
    + intros (Hin%inBounds_spec & Hocc). exists pr, pc.
      split; [lia|]. split; [lia|]. split; [apply walked_all; lia|].
      unfold clearItem. by destruct (cellAt (grid b) pr pc).
  - rewrite countNonEmptyTiles_countCells. lia.
  - rewrite countNonEmptyTiles_countCells. exact Hzero.
Qed.
End RefillAndClear.

Section RandomFill.
Local Open Scope Z_scope.

Lemma randomFill_row b pick r n :
  loopUp n (fun c '(ra, sr) =>
    (ra ++ [Some (drawColor b pick r c)], sr ++ [TileSpecial.None]))
    ([], [])
  = ((fun j => Some (drawColor b pick r (Z.of_nat j))) <$> seq 0 n,
     replicate n TileSpecial.None).
Proof.
  induction n as [|n IH]; [reflexivity|].
  cbn [loopUp]. rewrite IH. rewrite seq_S, fmap_app. cbn. f_equal.
  clear. induction n as [|n IH]; [reflexivity|]. cbn. by rewrite IH.
Qed.

Lemma randomFill_grids b pick :
  grid (randomFill pick b)
  = (fun i => (fun j => Some (drawColor b pick (Z.of_nat i) (Z.of_nat j)))
                <$> seq 0 (Z.to_nat (cols b))) <$> seq 0 (Z.to_nat (rows b))
  /\ specialGrid (randomFill pick b)
     = replicate (Z.to_nat (rows b))
         (replicate (Z.to_nat (cols b)) TileSpecial.None).
Proof.
  unfold randomFill. cbn [grid specialGrid setGrids].
  generalize (Z.to_nat (rows b)) as n. intros n.
  match goal with |- context [loopUp n ?f ?init] =>
    assert (loopUp n f init
            = ((fun i => (fun j => Some (drawColor b pick (Z.of_nat i)
                                           (Z.of_nat j)))
                           <$> seq 0 (Z.to_nat (cols b))) <$> seq 0 n,
               replicate n (replicate (Z.to_nat (cols b)) TileSpecial.None)))
      as -> end; [|by split].
  induction n as [|n IH]; [reflexivity|].
  cbn [loopUp]. rewrite IH, randomFill_row. rewrite seq_S, fmap_app. cbn.
  f_equal. clear.
  generalize (replicate (Z.to_nat (cols b)) TileSpecial.None) as x.
  intros x. induction n as [|n IH]; [reflexivity|]. cbn. by rewrite IH.
Qed.

Lemma drawColor_palette b pick r c :
  availableColors b <> [] -> drawColor b pick r c ∈ availableColors b.
Proof.
  intros Hne. unfold drawColor.
  destruct (availableColors b !! _) as [x|] eqn:E.
  - cbn. by eapply list_elem_of_lookup_2.
  - exfalso. apply lookup_ge_None in E.
    assert (length (availableColors b) <> 0%nat)
      by (destruct (availableColors b); [congruence | cbn; lia]).
    pose proof (Nat.mod_upper_bound (pick r c) (length (availableColors b))).
    lia.
Qed.

(** X3.  Whatever the board held, [randomFill()] leaves a board of the
    declared geometry in which every cell holds the color drawn for it,
    every special flag is [None], and [countNonEmptyTiles()] is
    rows * cols; the drawn color belongs to the palette whenever the
    palette is not empty, which the constructor ensures. *)
Theorem randomFill_spec (b : BoardModel) (pick : Z -> Z -> nat) :
  let b' := randomFill pick b in
  wfBoard b'
  /\ rows b' = rows b /\ cols b' = cols b
  /\ availableColors b' = availableColors b
  /\ (forall r c, inBounds b r c = true ->
        cellAt (grid b') r c = Some (drawColor b pick r c)
        /\ specialAt (specialGrid b') r c = TileSpecial.None)
  /\ (availableColors b <> [] ->
      forall r c, drawColor b pick r c ∈ availableColors b)
  /\ (forall nrows ncols colors,
        availableColors (newBoardModel nrows ncols colors) <> [])
  /\ countNonEmptyTiles b' = Z.max 0 (rows b) * Z.max 0 (cols b).
Proof.
  cbn zeta. destruct (randomFill_grids b pick) as [Eg Es].
  assert (Hwf : wfBoard (randomFill pick b)).
  { split; unfold wfMatrix.
    - rewrite Eg, length_fmap, length_seq. split; [reflexivity|].
      apply Forall_fmap, Forall_forall. intros i _. cbn.
      by rewrite length_fmap, length_seq.
    - rewrite Es. apply wfMatrix_replicate. }
  assert (Hcell : forall r c, inBounds b r c = true ->
            cellAt (grid (randomFill pick b)) r c
            = Some (drawColor b pick r c)).
  { intros r c Hin%inBounds_spec. apply cellAt_Some_mget, mget_Some.
    split; [lia|]. split; [lia|]. rewrite Eg. eexists. split.
    - rewrite list_lookup_fmap, lookup_seq_lt by lia. reflexivity.
    - rewrite list_lookup_fmap, lookup_seq_lt by lia. cbn.
      by rewrite !Z2Nat.id by lia. }
  split; [exact Hwf|]. do 3 (split; [reflexivity|]).
  split; [|split; [|split]].
  - intros r c Hin. split; [by apply Hcell|].
    apply allNone_specialAt, randomFill_allNone.
  - intros Hne r c. by apply drawColor_palette.
  - intros nrows ncols colors. cbn. by destruct colors.
  - rewrite countNonEmptyTiles_countCells.
    change (rows (randomFill pick b)) with (rows b).
    change (cols (randomFill pick b)) with (cols b).
    rewrite countCells_full; [lia|]. intros r c Hr Hc.
    rewrite Hcell by (apply inBounds_spec; lia). discriminate.
Qed.
End RandomFill.

Section Swap.
Local Open Scope Z_scope.

Lemma mget_default {A} (d : A) nrows ncols (m : list (list A)) r c :
  wfMatrix nrows ncols m -> 0 <= r < nrows -> 0 <= c < ncols ->
  mget m r c = Some (default d (mget m r c)).
Proof.
  intros Hwf Hr Hc. destruct (wfMatrix_mget _ _ _ _ _ Hwf Hr Hc) as [x ->].
  reflexivity.
Qed.

(** Exchanging two elements of an array, the way [swapTiles] does it. *)
Lemma swap_lookup {A} (d : A) nrows ncols (m : list (list A)) pr pc qr qc :
  wfMatrix nrows ncols m ->
  0 <= pr < nrows -> 0 <= pc < ncols -> 0 <= qr < nrows -> 0 <= qc < ncols ->
  let get r c := default d (mget m r c) in
  let m' := mset (mset m pr pc (get qr qc)) qr qc (get pr pc) in
  wfMatrix nrows ncols m'
  /\ forall r c, 0 <= r < nrows -> 0 <= c < ncols ->
       default d (mget m' r c)
       = if decide (r = qr /\ c = qc) then get pr pc
         else if decide (r = pr /\ c = pc) then get qr qc
         else get r c.
Proof.
  intros Hwf Hpr Hpc Hqr Hqc. cbn zeta.
  split; [by do 2 apply wfMatrix_mset|].
  intros r c Hr Hc. rewrite !mget_mset.
  destruct (decide (r = qr /\ c = qc)) as [[-> ->]|Hq].
  - destruct (decide (qr = pr /\ qc = pc)) as [[-> ->]|Hp].
    + rewrite (mget_default d _ _ _ _ _ Hwf Hpr Hpc). reflexivity.
    + rewrite (mget_default d _ _ _ _ _ Hwf Hqr Hqc). reflexivity.
  - destruct (decide (r = pr /\ c = pc)) as [[-> ->]|Hp]; [|reflexivity].
    rewrite (mget_default d _ _ _ _ _ Hwf Hpr Hpc). reflexivity.
Qed.

Lemma swap_swap {A} (d : A) nrows ncols (m : list (list A)) pr pc qr qc :
  wfMatrix nrows ncols m ->
  0 <= pr < nrows -> 0 <= pc < ncols -> 0 <= qr < nrows -> 0 <= qc < ncols ->
  let get r c := default d (mget m r c) in
  let m' := mset (mset m pr pc (get qr qc)) qr qc (get pr pc) in
  let get' r c := default d (mget m' r c) in
  mset (mset m' pr pc (get' qr qc)) qr qc (get' pr pc) = m.
Proof.
  intros Hwf Hpr Hpc Hqr Hqc. cbn zeta.
  destruct (swap_lookup d _ _ m pr pc qr qc Hwf Hpr Hpc Hqr Hqc)
    as [Hwf' Hget']. cbn zeta in Hwf', Hget'.
  set (m' := mset (mset m pr pc _) qr qc _) in *.
  destruct (swap_lookup d _ _ m' pr pc qr qc Hwf' Hpr Hpc Hqr Hqc)
    as [Hwf'' Hget'']. cbn zeta in Hwf'', Hget''.
  set (m'' := mset (mset m' pr pc _) qr qc _) in *.
  apply (matrix_ext nrows ncols); [exact Hwf''|exact Hwf|].
  intros r c Hr Hc.
  rewrite (mget_default d _ _ _ _ _ Hwf'' Hr Hc).
  rewrite (mget_default d _ _ _ _ _ Hwf Hr Hc). f_equal.
  rewrite Hget'' by assumption. rewrite !Hget' by assumption.
  repeat (destruct (decide _) as [[? ?]|?]); subst; try reflexivity;
    try tauto.
Qed.

Lemma swapTiles_facts (b : BoardModel) (p q : TilePos) :
  wfBoard b ->
  inBounds b (row p) (col p) = true ->
  inBounds b (row q) (col q) = true ->
  let b' := swapTiles b p q in
  wfBoard b'
  /\ cellAt (grid b') (row p) (col p) = cellAt (grid b) (row q) (col q)
  /\ cellAt (grid b') (row q) (col q) = cellAt (grid b) (row p) (col p)
  /\ specialAt (specialGrid b') (row p) (col p)
     = specialAt (specialGrid b) (row q) (col q)
  /\ specialAt (specialGrid b') (row q) (col q)
     = specialAt (specialGrid b) (row p) (col p)
  /\ (forall r c, mkPos r c <> p -> mkPos r c <> q ->
        cellAt (grid b') r c = cellAt (grid b) r c
        /\ specialAt (specialGrid b') r c = specialAt (specialGrid b) r c)
  /\ countNonEmptyTiles b' = countNonEmptyTiles b
  /\ swapTiles b' p q = b.
Proof.
  intros [Hg Hs] Hp Hq. cbn zeta.
  assert (Hb' : swapTiles b p q
    = setGrids b
        (mset (mset (grid b) (row p) (col p)
                 (cellAt (grid b) (row q) (col q)))
           (row q) (col q) (cellAt (grid b) (row p) (col p)))
        (mset (mset (specialGrid b) (row p) (col p)
                 (specialAt (specialGrid b) (row q) (col q)))
           (row q) (col q) (specialAt (specialGrid b) (row p) (col p)))).
  { unfold swapTiles. by rewrite Hp, Hq. }
  apply inBounds_spec in Hp as [Hpr Hpc], Hq as [Hqr Hqc].
  destruct (swap_lookup None _ _ _ _ _ _ _ Hg Hpr Hpc Hqr Hqc)
    as [Hg' Hcell]. cbn zeta in Hg', Hcell.
  destruct (swap_lookup TileSpecial.None _ _ _ _ _ _ _ Hs Hpr Hpc Hqr Hqc)
    as [Hs' Hspec]. cbn zeta in Hs', Hspec.
  fold (cellAt (grid b) (row p) (col p)) in *.
  fold (cellAt (grid b) (row q) (col q)) in *.
  fold (specialAt (specialGrid b) (row p) (col p)) in *.
  fold (specialAt (specialGrid b) (row q) (col q)) in *.
  rewrite Hb'. cbn [grid specialGrid setGrids rows cols].
  split; [by split|].
  split; [|split; [|split; [|split; [|split; [|split]]]]].
  - unfold cellAt at 1. rewrite Hcell by assumption.
    destruct (decide _) as [[-> ->]|_]; [reflexivity|].
    by rewrite decide_True.
  - unfold cellAt at 1. rewrite Hcell by assumption. by rewrite decide_True.
  - unfold specialAt at 1. rewrite Hspec by assumption.
    destruct (decide _) as [[-> ->]|_]; [reflexivity|].
    by rewrite decide_True.
  - unfold specialAt at 1. rewrite Hspec by assumption.
    by rewrite decide_True.
  - intros r c Hnp Hnq.
    assert (~ (r = row p /\ c = col p))
      by (intros [-> ->]; apply Hnp; by destruct p).
    assert (~ (r = row q /\ c = col q))
      by (intros [-> ->]; apply Hnq; by destruct q).
    split.
    + rewrite !cellAt_mset_ne by lia. reflexivity.
    + unfold specialAt. rewrite !mget_mset_ne by lia. reflexivity.
  - rewrite !countNonEmptyTiles_countCells. cbn [grid rows cols setGrids].
    rewrite (countCells_mset (rows b) (cols b)) by
      (try apply wfMatrix_mset; assumption).
    rewrite (countCells_mset (rows b) (cols b) (grid b)) by assumption.
    assert (cellAt (mset (grid b) (row p) (col p)
                      (cellAt (grid b) (row q) (col q))) (row q) (col q)
            = cellAt (grid b) (row q) (col q)) as ->; [|lia].
    destruct (decide (row q = row p /\ col q = col p)) as [[-> ->]|Hne].
    + by apply (cellAt_mset_eq (rows b) (cols b)).
    + apply cellAt_mset_ne. lia.
  - unfold swapTiles, inBounds. cbn [rows cols grid specialGrid setGrids].
    replace ((0 <=? row p) && (row p <? rows b) && (0 <=? col p)
             && (col p <? cols b))%bool with true by lia.
    replace ((0 <=? row q) && (row q <? rows b) && (0 <=? col q)
             && (col q <? cols b))%bool with true by lia.
    cbn [negb orb].
    pose proof (swap_swap None _ _ _ _ _ _ _ Hg Hpr Hpc Hqr Hqc) as EG.
    pose proof (swap_swap TileSpecial.None _ _ _ _ _ _ _ Hs Hpr Hpc Hqr Hqc)
      as ES.
    cbn zeta in EG, ES.
    transitivity (setGrids b (grid b) (specialGrid b)); [|by destruct b].
    unfold setGrids. cbn [rows cols availableColors].
    f_equal; [exact EG | exact ES].
Qed.

(** X4.  On a board of the declared geometry, [swapTiles(a, b)] with both
    cells on the board exchanges the colors and the special flags of the
    two cells and leaves every other cell as it was; it keeps the geometry
    and [countNonEmptyTiles()]; and swapping the same two cells again
    gives back the board it started from. *)
Theorem swapTiles_spec (b : BoardModel) (p q : TilePos) :
  wfBoard b ->
  inBounds b (row p) (col p) = true ->
  inBounds b (row q) (col q) = true ->
  let b' := swapTiles b p q in
  wfBoard b'
  /\ cellAt (grid b') (row p) (col p) = cellAt (grid b) (row q) (col q)
  /\ cellAt (grid b') (row q) (col q) = cellAt (grid b) (row p) (col p)
  /\ specialAt (specialGrid b') (row p) (col p)
     = specialAt (specialGrid b) (row q) (col q)
  /\ specialAt (specialGrid b') (row q) (col q)
     = specialAt (specialGrid b) (row p) (col p)
  /\ (forall r c, mkPos r c <> p -> mkPos r c <> q ->
        cellAt (grid b') r c = cellAt (grid b) r c
        /\ specialAt (specialGrid b') r c = specialAt (specialGrid b) r c)
  /\ countNonEmptyTiles b' = countNonEmptyTiles b
  /\ swapTiles b' p q = b.
Proof. exact (swapTiles_facts b p q). Qed.
End Swap.

Section RemoveGroup.
Local Open Scope Z_scope.

Lemma removeGroup_out_of_bounds b group :
  (forall p, p ∈ group -> inBounds b (row p) (col p) = false) ->
  removeGroup b group = b.
Proof.
  intros H. unfold removeGroup.
  assert (foldl (removeCell b) (grid b, specialGrid b) group
          = (grid b, specialGrid b)) as ->; [|by destruct b].
  generalize (grid b, specialGrid b) as gs.
  induction group as [|p group IH]; intros gs; [reflexivity|].
  cbn [foldl]. unfold removeCell at 2.
  rewrite (H p) by apply list_elem_of_here. cbn [negb].
  apply IH. intros q Hq. apply H. by apply elem_of_cons; right.
Qed.

Lemma removeGroup_fold_count b group g s :
  wfMatrix (rows b) (cols b) g ->
  NoDup group ->
  (forall p, p ∈ group ->
     inBounds b (row p) (col p) = true /\ cellAt g (row p) (col p) <> None) ->
  countCells (Z.to_nat (rows b)) (Z.to_nat (cols b))
    (fst (foldl (removeCell b) (g, s) group))
  = countCells (Z.to_nat (rows b)) (Z.to_nat (cols b)) g
    - Z.of_nat (length group).
Proof.
  revert g s. induction group as [|p group IH]; intros g s Hwf Hnd Hocc.
  - cbn. lia.
  - apply NoDup_cons in Hnd as [Hp Hnd].
    destruct (Hocc p) as [Hin Hcell]; [apply list_elem_of_here|].
    cbn [foldl]. unfold removeCell at 2. rewrite Hin. cbn [negb fst snd].
    apply inBounds_spec in Hin as Hin'.
    rewrite IH; [|by apply wfMatrix_mset|exact Hnd|].
    + rewrite (countCells_mset _ _ _ _ _ _ Hwf) by lia.
      cbn [length occupiedCell].
      destruct (cellAt g (row p) (col p)); [cbn; lia|congruence].
    + intros q Hq. destruct (Hocc q) as [Hqin Hqcell];
        [by apply elem_of_cons; right|].
      split; [exact Hqin|]. rewrite cellAt_mset_ne; [exact Hqcell|].
      destruct (decide (row q = row p)) as [Er|]; [|auto].
      destruct (decide (col q = col p)) as [Ec|]; [|auto].
      exfalso. apply Hp. destruct p, q; cbn in *; by subst.
Qed.

Lemma removeGroup_count b group :
  wfBoard b -> NoDup group ->
  (forall p, p ∈ group ->
     inBounds b (row p) (col p) = true
     /\ cellAt (grid b) (row p) (col p) <> None) ->
  countNonEmptyTiles (removeGroup b group)
  = countNonEmptyTiles b - Z.of_nat (length group).
Proof.
  intros [Hg _] Hnd Hocc. rewrite !countNonEmptyTiles_countCells.
  exact (removeGroup_fold_count b group (grid b) (specialGrid b) Hg Hnd Hocc).
Qed.

(** X5.  On a board of the declared geometry [removeGroup(cells)] keeps
    the geometry, empties exactly the listed cells and leaves every other
    cell as it was; listed positions outside the board are ignored, so a
    list of such positions changes nothing; and when the list names
    occupied cells of the board, each once, [countNonEmptyTiles()] drops
    by the length of the list. *)
Theorem removeGroup_spec (b : BoardModel) (group : list TilePos) :
  wfBoard b ->
  let b' := removeGroup b group in
  wfBoard b'
  /\ (forall r c,
        cellAt (grid b') r c
        = if decide (mkPos r c ∈ group) then None else cellAt (grid b) r c)
  /\ ((forall p, p ∈ group -> inBounds b (row p) (col p) = false) -> b' = b)
  /\ (NoDup group ->
      (forall p, p ∈ group ->
         inBounds b (row p) (col p) = true
         /\ cellAt (grid b) (row p) (col p) <> None) ->
      countNonEmptyTiles b'
      = countNonEmptyTiles b - Z.of_nat (length group)).
Proof.
  intros Hwf. cbn zeta. split; [by apply removeGroup_wf|].
  split; [intros; by apply removeGroup_cellAt|].
  split; [apply removeGroup_out_of_bounds|].
  by apply removeGroup_count.
Qed.
End RemoveGroup.

Section SpecialFlags.
Local Open Scope Z_scope.

(** X6.  On a board of the declared geometry, [getSpecial] after
    [setSpecial(row, col, special)] returns [special] at that cell when
    the cell is on the board, and what it returned before everywhere
    else; a [setSpecial] outside the board changes nothing; the color grid
    is never touched; and [isMegaBomb] is true at a cell of the board once
    [TileSpecial.MegaBomb] has been set there. *)
Theorem setSpecial_getSpecial
    (b : BoardModel) (r c : Z) (special : TileSpecial.t) :
  wfBoard b ->
  let b' := setSpecial b r c special in
  wfBoard b'
  /\ grid b' = grid b
  /\ (forall r' c',
        getSpecial b' r' c'
        = if decide (r' = r /\ c' = c /\ inBounds b r c = true) then special
          else getSpecial b r' c')
  /\ (inBounds b r c = false -> b' = b)
  /\ (inBounds b r c = true ->
      isMegaBomb (setSpecial b r c TileSpecial.MegaBomb) r c = true).
Proof.
  intros [Hg Hs]. cbn zeta. unfold setSpecial.
  destruct (inBounds b r c) eqn:Hin; cbn [negb].
  - apply inBounds_spec in Hin as Hin'.
    split; [split; [exact Hg | by apply wfMatrix_mset]|].
    split; [reflexivity|]. split; [|split; [discriminate|]].
    + intros r' c'. unfold getSpecial, inBounds.
      cbn [rows cols specialGrid setGrids].
      fold (inBounds b r' c').
      destruct (decide _) as [(-> & -> & _)|Hne].
      * rewrite Hin. cbn [negb]. unfold specialAt.
        destruct (wfMatrix_mget _ _ _ _ _ Hs (proj1 Hin') (proj2 Hin'))
          as [y Hy].
        by rewrite (mget_mset_eq _ _ _ _ _ Hy).
      * destruct (inBounds b r' c'); cbn [negb]; [|reflexivity].
        unfold specialAt. rewrite mget_mset_ne; [reflexivity|].
        destruct (decide (r' = r)); [|auto].
        destruct (decide (c' = c)); [|auto]. tauto.
    + intros _. unfold isMegaBomb, getSpecial, inBounds.
      cbn [rows cols specialGrid setGrids]. fold (inBounds b r c).
      rewrite Hin. cbn [negb]. unfold specialAt.
      destruct (wfMatrix_mget _ _ _ _ _ Hs (proj1 Hin') (proj2 Hin'))
        as [y Hy].
      by rewrite (mget_mset_eq _ _ _ _ _ Hy).
  - split; [by split|]. split; [reflexivity|].
    split; [|split; [reflexivity|discriminate]].
    intros r' c'. destruct (decide _) as [(_ & _ & ?)|_];
      [discriminate|reflexivity].
Qed.
End SpecialFlags.

Section GravityAgain.
Local Open Scope Z_scope.

(** What the loop invariant gives for the whole of [applyGravity]. *)
Lemma applyGravity_facts b :
  wfBoard b ->
  let b' := fst (applyGravity b) in
  let n := Z.to_nat (rows b) in
  wfBoard b'
  /\ (forall c, 0 <= c < cols b ->
        column (grid b') n c
        = replicate (n - length (survivors (column (grid b) n c))) None
          ++ (Some <$> survivors (column (grid b) n c)))
  /\ (forall m, m ∈ snd (applyGravity b) ->
        exists r c clr,
          0 <= c < cols b /\ 0 <= r < rows b
          /\ cellAt (grid b) r c = Some clr
          /\ landingRow b r c <> r)
  /\ countNonEmptyTiles b' = countNonEmptyTiles b.
Proof.
  intros Hwf. cbn zeta. unfold applyGravity. cbn [fst snd].
  pose proof (applyGravity_gravityInv b Hwf) as Hinv.
  set (gs := loopUp _ _ _) in *.
  destruct Hinv as (Hg & Hs & _ & Hdone & Hmv & Hnd).
  assert (Hcols : forall c, 0 <= c < cols b ->
            column (gGrid gs) (Z.to_nat (rows b)) c
            = replicate (Z.to_nat (rows b)
                         - length (survivors
                             (column (grid b) (Z.to_nat (rows b)) c))) None
              ++ (Some <$> survivors (column (grid b) (Z.to_nat (rows b)) c))).
  { intros c Hc. apply compacted_column. apply Hdone. lia. }
  split; [by split|]. split; [exact Hcols|]. split.
  - intros m (r & c & clr & Hc & Hr & Hcell & Hl & _)%Hmv.
    exists r, c, clr. split; [lia|]. split; [lia|]. by split.
  - rewrite !countNonEmptyTiles_columns. cbn [rows cols grid setGrids].
    apply sumZ_ext. intros c Hc. rewrite (Hcols c) by lia.
    by rewrite survivors_app, survivors_replicate_None, survivors_Some.
Qed.

(** In a compacted column every tile is at its landing row. *)
Lemma landing_compacted n (tiles : list TileColor.t) r clr :
  (length tiles <= n)%nat ->
  let l := replicate (n - length tiles) None ++ (Some <$> tiles) in
  l !! Z.to_nat r = Some (Some clr) -> 0 <= r ->
  landing (Z.of_nat n) l r = r.
Proof.
  intros Hlen l Hl Hr. unfold landing.
  assert (Hge : (n - length tiles <= Z.to_nat r)%nat).
  { destruct (decide (n - length tiles <= Z.to_nat r)%nat); [done|].
    unfold l in Hl. rewrite lookup_app_l in Hl
      by (rewrite length_replicate; lia).
    rewrite lookup_replicate_2 in Hl by lia. discriminate. }
  assert (Hlt : (Z.to_nat r < n)%nat).
  { apply lookup_lt_Some in Hl. unfold l in Hl.
    rewrite length_app, length_replicate, length_fmap in Hl. lia. }
  unfold l. rewrite drop_app_ge by (rewrite length_replicate; lia).
  rewrite length_replicate, <- fmap_drop, survivors_Some, length_drop. lia.
Qed.

(** X7.  On a board of the declared geometry a second [applyGravity()]
    directly after the first finds nothing to move: it returns an empty
    movement list and leaves the color grid as the first call left it. *)
Theorem applyGravity_idempotent (b : BoardModel) :
  wfBoard b ->
  let b1 := fst (applyGravity b) in
  snd (applyGravity b1) = []
  /\ grid (fst (applyGravity b1)) = grid b1.
Proof.
  intros Hwf. cbn zeta.
  destruct (applyGravity_facts b Hwf) as (Hwf1 & Hcol1 & _ & _).
  cbn zeta in Hwf1, Hcol1. set (b1 := fst (applyGravity b)) in *.
  destruct (applyGravity_facts b1 Hwf1) as (Hwf2 & Hcol2 & Hmv2 & _).
  cbn zeta in Hwf2, Hcol2, Hmv2.
  change (rows b1) with (rows b) in *. change (cols b1) with (cols b) in *.
  assert (Hsurv : forall c, 0 <= c < cols b ->
            survivors (column (grid b1) (Z.to_nat (rows b)) c)
            = survivors (column (grid b) (Z.to_nat (rows b)) c)).
  { intros c Hc. rewrite (Hcol1 c Hc), survivors_app.
    by rewrite survivors_replicate_None, survivors_Some. }
  split.
  - destruct (snd (applyGravity b1)) as [|m mv] eqn:E; [reflexivity|].
    exfalso. destruct (Hmv2 m) as (r & c & clr & Hc & Hr & Hcell & Hl);
      [apply list_elem_of_here|].
    apply Hl. rewrite landingRow_landing.
    change (rows b1) with (rows b). rewrite (Hcol1 c Hc).
    pose proof (survivors_length (column (grid b) (Z.to_nat (rows b)) c))
      as Hlen. rewrite column_length in Hlen.
    rewrite <- (Z2Nat.id (rows b)) at 1 by lia.
    apply (landing_compacted _ _ _ clr); [exact Hlen| |lia].
    rewrite <- (Hcol1 c Hc), column_lookup by lia.
    rewrite Z2Nat.id by lia. by rewrite Hcell.
  - destruct Hwf1 as [Hg1 _], Hwf2 as [Hg2 _].
    change (rows (fst (applyGravity b1))) with (rows b) in Hg2.
    change (cols (fst (applyGravity b1))) with (cols b) in Hg2.
    apply (matrix_ext (rows b) (cols b)); [exact Hg2|exact Hg1|].
    intros r c Hr Hc.
    transitivity (Some (cellAt (grid (fst (applyGravity b1))) r c));
      [exact (mget_default None _ _ _ _ _ Hg2 Hr Hc)|].
    transitivity (Some (cellAt (grid b1) r c));
      [|symmetry; exact (mget_default None _ _ _ _ _ Hg1 Hr Hc)].
    f_equal.
    assert (Hcols : column (grid (fst (applyGravity b1)))
                      (Z.to_nat (rows b)) c
                    = column (grid b1) (Z.to_nat (rows b)) c).
    { rewrite (Hcol2 c Hc), (Hsurv c Hc). symmetry. apply (Hcol1 c Hc). }
    assert (Hlook := f_equal (fun l => l !! Z.to_nat r) Hcols).
    cbn beta in Hlook. rewrite !column_lookup in Hlook by lia.
    rewrite Z2Nat.id in Hlook by lia. by injection Hlook.
Qed.

(** X8.  The end of a turn.  From a board of the declared geometry, after
    [removeGroup] of a list naming occupied cells of the board once each,
    then [applyGravity()], then [refillEmptyCells()]: the removal lowers
    [countNonEmptyTiles()] by the length of the list, gravity keeps it,
    and the refill ends with a board of the same geometry with no empty
    cell, [countNonEmptyTiles()] being rows * cols; on a board that was
    full the refill creates exactly as many tiles as were removed. *)
Theorem end_of_turn_pipeline
    (b : BoardModel) (group : list TilePos) (pick : Z -> Z -> nat) :
  wfBoard b ->
  NoDup group ->
  (forall p, p ∈ group ->
     inBounds b (row p) (col p) = true
     /\ cellAt (grid b) (row p) (col p) <> None) ->
  let b1 := removeGroup b group in
  let b2 := fst (applyGravity b1) in
  let b3 := fst (refillEmptyCells pick b2) in
  let refills := snd (refillEmptyCells pick b2) in
  countNonEmptyTiles b1 = countNonEmptyTiles b - Z.of_nat (length group)
  /\ countNonEmptyTiles b2 = countNonEmptyTiles b1
  /\ wfBoard b3
  /\ (forall r c, inBounds b r c = true -> cellAt (grid b3) r c <> None)
  /\ countNonEmptyTiles b3 = Z.max 0 (rows b) * Z.max 0 (cols b)
  /\ (countNonEmptyTiles b = Z.max 0 (rows b) * Z.max 0 (cols b) ->
      length refills = length group).
Proof.
  intros Hwf Hnd Hocc. cbn zeta.
  pose proof (removeGroup_count b group Hwf Hnd Hocc) as Hc1.
  pose proof (removeGroup_wf b group Hwf) as Hwf1.
  set (b1 := removeGroup b group) in *.
  destruct (applyGravity_facts b1 Hwf1) as (Hwf2 & _ & _ & Hc2).
  cbn zeta in Hwf2, Hc2. set (b2 := fst (applyGravity b1)) in *.
  destruct (refillEmptyCells_facts b2 pick Hwf2)
    as (Hwf3 & Hcell & _ & _ & Hc3 & Hlen).
  change (rows b2) with (rows b) in *. change (cols b2) with (cols b) in *.
  split; [exact Hc1|]. split; [exact Hc2|]. split; [exact Hwf3|].
  split; [|split; [exact Hc3|]].
  - intros r c Hin. by apply Hcell.
  - intros Hfull. lia.
Qed.
End GravityAgain.

Section GroupsAndMoves.
Local Open Scope Z_scope.

Lemma findGroup_isGroup b r c clr :
  inBounds b r c = true -> cellAt (grid b) r c = Some clr ->
  exists g, findGroup b r c = Some g /\ isGroup b clr (mkPos r c) g.
Proof.
  intros Hin Hc. unfold findGroup. rewrite Hin, Hc. cbn [negb].
  apply (findGroupLoop_spec b clr (mkPos r c) Hin Hc).
  - apply fillInv_init.
  - rewrite unvisited_replicate. unfold findGroupFuel. cbn [length]. lia.
Qed.

Lemma findGroup_nonempty b r c g :
  findGroup b r c = Some g -> g <> [] ->
  exists clr, inBounds b r c = true /\ cellAt (grid b) r c = Some clr
              /\ isGroup b clr (mkPos r c) g.
Proof.
  intros Hg Hne. unfold findGroup in Hg.
  destruct (inBounds b r c) eqn:Hin; cbn [negb] in Hg; [|congruence].
  destruct (cellAt (grid b) r c) as [clr|] eqn:Hc; [|congruence].
  exists clr. split; [reflexivity|]. split; [reflexivity|].
  destruct (findGroup_isGroup b r c clr Hin Hc) as (g' & Hg' & Hgrp).
  unfold findGroup in Hg'. rewrite Hin, Hc in Hg'. cbn [negb] in Hg'.
  congruence.
Qed.

Lemma manhattan_sym p q : manhattan p q = manhattan q p.
Proof. unfold manhattan. lia. Qed.

Lemma connected_trans b clr s p x :
  connected b clr s p -> connected b clr p x -> connected b clr s x.
Proof.
  intros Hsp. induction 1 as [|y z _ IH Hadj Hin Hc]; [exact Hsp|].
  eapply conn_step; eauto.
Qed.

Lemma connected_sym b clr s p :
  connected b clr s p -> connected b clr p s.
Proof.
  induction 1 as [Hin Hc|y z Hsy IH Hadj Hin Hc]; [by apply conn_start|].
  apply connected_trans with y; [|exact IH].
  destruct (connected_cell _ _ _ _ Hsy) as [Hyin Hyc].
  apply conn_step with z; [by apply conn_start| |exact Hyin|exact Hyc].
  by rewrite manhattan_sym.
Qed.

(** The test of [hasAnyMoves], read as a property of the board: two
    4-adjacent cells of the board hold the same color. *)
Lemma hasAnyMoves_pair b m :
  1 < m ->
  (hasAnyMoves b m = true <->
   exists p q clr,
     manhattan p q = 1
     /\ inBounds b (row p) (col p) = true
     /\ cellAt (grid b) (row p) (col p) = Some clr
     /\ inBounds b (row q) (col q) = true
     /\ cellAt (grid b) (row q) (col q) = Some clr).
Proof.
  intros Hm. unfold hasAnyMoves. replace (m <=? 1) with false by lia.
  rewrite existsb_seqZ. split.
  - intros (r & Hr & (c & Hc & Hf)%existsb_seqZ).
    destruct (cellAt (grid b) r c) as [clr|] eqn:E; [|discriminate].
    assert (Hin : inBounds b r c = true) by (apply inBounds_spec; lia).
    apply orb_true_iff in Hf as [Hf|Hf];
      apply andb_true_iff in Hf as [H1 H2%bool_decide_eq_true].
    + exists (mkPos r c), (mkPos (r + 1) c), clr. cbn [row col].
      split; [unfold manhattan; cbn; lia | auto].
    + exists (mkPos r c), (mkPos r (c + 1)), clr. cbn [row col].
      split; [unfold manhattan; cbn; lia | auto].
  - intros ([pr pc] & [qr qc] & clr & Hadj & Hpin & Hpc & Hqin & Hqc).
    unfold manhattan in Hadj. cbn [row col] in *.
    apply inBounds_spec in Hpin as Hp', Hqin as Hq'.
    assert (Hcases : (qr = pr + 1 /\ qc = pc) \/ (qr = pr /\ qc = pc + 1)
                     \/ (pr = qr + 1 /\ pc = qc) \/ (pr = qr /\ pc = qc + 1))
      by lia.
    destruct Hcases as [[-> ->]|[[-> ->]|[[-> ->]|[-> ->]]]].
    + exists pr. split; [lia|]. apply existsb_seqZ. exists pc.
      split; [lia|]. rewrite Hpc. apply orb_true_iff. left.
      rewrite Hqin, Hqc. by rewrite bool_decide_eq_true_2.
    + exists pr. split; [lia|]. apply existsb_seqZ. exists pc.
      split; [lia|]. rewrite Hpc. apply orb_true_iff. right.
      rewrite Hqin, Hqc. by rewrite bool_decide_eq_true_2.
    + exists qr. split; [lia|]. apply existsb_seqZ. exists qc.
      split; [lia|]. rewrite Hqc. apply orb_true_iff. left.
      rewrite Hpin, Hpc. by rewrite bool_decide_eq_true_2.
    + exists qr. split; [lia|]. apply existsb_seqZ. exists qc.
      split; [lia|]. rewrite Hqc. apply orb_true_iff. right.
      rewrite Hpin, Hpc. by rewrite bool_decide_eq_true_2.
Qed.

Lemma two_members {A} (l : list A) x y :
  x ∈ l -> y ∈ l -> x <> y -> (2 <= length l)%nat.
Proof.
  intros Hx Hy Hne. destruct l as [|a [|a' l]]; cbn; [|..|lia].
  - by apply elem_of_nil in Hx.
  - apply list_elem_of_singleton in Hx, Hy. congruence.
Qed.

Lemma other_member {A} `{EqDecision A} (l : list A) x :
  NoDup l -> (2 <= length l)%nat -> exists y, y ∈ l /\ y <> x.
Proof.
  intros Hnd Hlen. destruct l as [|a [|a' l]]; cbn in Hlen; try lia.
  apply NoDup_cons in Hnd as [Ha _].
  destruct (decide (a = x)) as [->|Hne].
  - exists a'. split; [apply elem_of_cons; right; apply list_elem_of_here|].
    intros ->. apply Ha. apply list_elem_of_here.
  - exists a. split; [apply list_elem_of_here|exact Hne].
Qed.

(** X9.  On a board of the declared geometry and for a threshold above
    1, [hasAnyMoves] is true exactly when [findGroup] returns a group of
    at least two cells from some position: with [minGroupSize = 2] it is
    true exactly when some click can remove a group. *)
Theorem hasAnyMoves_iff_group (b : BoardModel) (minGroupSize : Z) :
  wfBoard b ->
  1 < minGroupSize ->
  (hasAnyMoves b minGroupSize = true <->
   exists r c g, findGroup b r c = Some g /\ (2 <= length g)%nat).
Proof.
  intros _ Hm. rewrite (hasAnyMoves_pair b minGroupSize Hm). split.
  - intros (p & q & clr & Hadj & Hpin & Hpc & Hqin & Hqc).
    destruct (findGroup_isGroup b (row p) (col p) clr Hpin Hpc)
      as (g & Hg & Hs & Hnd & Hconn & Hclosed).
    exists (row p), (col p), g. split; [exact Hg|].
    assert (Hp : mkPos (row p) (col p) = p) by (by destruct p).
    rewrite Hp in *.
    apply (two_members g p q); [exact Hs|by eapply Hclosed|].
    intros ->. unfold manhattan in Hadj. lia.
  - intros (r & c & g & Hg & Hlen).
    destruct (findGroup_nonempty b r c g Hg)
      as (clr & Hin & Hc & Hs & Hnd & Hconn & Hclosed).
    { intros ->. cbn in Hlen. lia. }
    destruct (other_member g (mkPos r c) Hnd Hlen) as (q & Hq & Hne).
    apply Hconn in Hq.
    destruct Hq as [|p q Hsp Hadj Hqin Hqc]; [congruence|].
    destruct (connected_cell _ _ _ _ Hsp) as [Hpin Hpc].
    exists p, q, clr. auto.
Qed.

(** X10.  A group does not depend on the cell it is found from: on a
    board of the declared geometry, [findGroup] from any cell of the group
    [findGroup(pos)] returned gives the same cells (in some order), hence
    a group of the same size. *)
Theorem findGroup_same_group (b : BoardModel) (r c : Z)
    (g : list TilePos) (p : TilePos) :
  wfBoard b ->
  findGroup b r c = Some g ->
  p ∈ g ->
  exists g',
    findGroup b (row p) (col p) = Some g'
    /\ g' ≡ₚ g
    /\ length g' = length g.
Proof.
  intros _ Hg Hp.
  destruct (findGroup_nonempty b r c g Hg)
    as (clr & Hin & Hc & Hgrp).
  { intros ->. by apply elem_of_nil in Hp. }
  pose proof (proj1 (isGroup_connected b clr _ g p Hgrp) Hp) as Hsp.
  destruct (connected_cell _ _ _ _ Hsp) as [Hpin Hpc].
  destruct (findGroup_isGroup b (row p) (col p) clr Hpin Hpc)
    as (g' & Hg' & Hgrp').
  assert (Hpp : mkPos (row p) (col p) = p) by (by destruct p).
  rewrite Hpp in Hgrp'.
  exists g'. split; [exact Hg'|].
  assert (Hperm : g' ≡ₚ g).
  { apply NoDup_Permutation; [apply Hgrp'|apply Hgrp|].
    intros x. rewrite (isGroup_connected b clr _ g' x Hgrp').
    rewrite (isGroup_connected b clr _ g x Hgrp). split; intros Hx.
    - by apply connected_trans with p.
    - apply connected_trans with (mkPos r c); [|exact Hx].
      by apply connected_sym. }
  split; [exact Hperm|]. by rewrite Hperm.
Qed.
End GroupsAndMoves.

(** * Further properties of the turn counters *)

Section GameStateMore.
Import GameState.
Local Open Scope Z_scope.

Lemma stateFacts_new : stateFacts new.
Proof.
  unfold stateFacts. cbn. unfold GameConfig.targetScore,
    GameConfig.startMoves, GameConfig.reshuffleLimit, GameConfig.startBombs,
    GameConfig.startTeleports.
  repeat split; try lia; discriminate.
Qed.

(** [updateGameOver] on a running game whose moves are not negative. *)
Lemma updateGameOver_cases d :
  gameOver d = false -> 0 <= movesLeft d ->
  let d' := updateGameOver d in
  (targetScore d <= score d ->
   gameOver d' = true /\ gameOverReason d' = Some win)
  /\ (score d < targetScore d -> movesLeft d = 0 ->
      gameOver d' = true /\ gameOverReason d' = Some lose)
  /\ (score d < targetScore d -> 1 <= movesLeft d ->
      gameOver d' = false /\ gameOverReason d' = gameOverReason d).
Proof.
  intros Hrun Hm. cbn zeta. unfold updateGameOver. rewrite Hrun.
  destruct (targetScore d <=? score d) eqn:T;
    [apply Z.leb_le in T | apply Z.leb_gt in T].
  { cbn. repeat split; auto; lia. }
  destruct (movesLeft d <=? 0) eqn:M;
    [apply Z.leb_le in M | apply Z.leb_gt in M].
  { cbn. repeat split; auto; lia. }
  repeat split; auto; lia.
Qed.

Lemma stateFacts_update d0 d :
  stateFacts d0 -> gameOver d0 = false ->
  gameOver d = false -> gameOverReason d = None ->
  targetScore d = targetScore d0 -> score d0 <= score d ->
  0 <= movesLeft d <= movesLeft d0 ->
  reshufflesLeft d = reshufflesLeft d0 -> bombsLeft d = bombsLeft d0 ->
  teleportsLeft d = teleportsLeft d0 ->
  stateFacts (updateGameOver d).
Proof.
  intros (Ht & Hs & Hm & Hr & Hb & Htp & Hrun & _) Hrun0 Hg Hreason
    Et Es Em Er Eb Etp.
  destruct (updateGameOver_fields d) as (F1 & F2 & F3 & F4 & F5 & F6).
  destruct (updateGameOver_cases d Hg) as (C1 & C2 & C3); [lia|].
  cbn zeta in C1, C2, C3.
  unfold stateFacts. rewrite F1, F2, F3, F4, F5, F6.
  split; [lia|]. split; [lia|]. split; [lia|]. split; [lia|].
  split; [lia|]. split; [lia|]. split.
  - intros G. destruct (Z_lt_le_dec (score d) (targetScore d)) as [Hlt|Hge].
    + destruct (Z.eq_dec (movesLeft d) 0) as [E0|Hn0].
      * destruct (C2 Hlt E0). congruence.
      * destruct (C3 Hlt) as [_ R]; [lia|]. rewrite R. split; [auto|lia].
    + destruct (C1 Hge). congruence.
  - intros G. destruct (Z_lt_le_dec (score d) (targetScore d)) as [Hlt|Hge].
    + destruct (Z.eq_dec (movesLeft d) 0) as [E0|Hn0].
      * destruct (C2 Hlt E0). right. auto.
      * destruct (C3 Hlt) as [G' _]; [lia|]. congruence.
    + destruct (C1 Hge). left. auto.
Qed.

Lemma stateFacts_exec d c : stateFacts d -> stateFacts (exec d c).
Proof.
  intros Hok. pose proof Hok as (Ht & Hs & Hm & Hr & Hb & Htp & Hrun & Hover).
  destruct c as [size|count| | |]; cbn [exec].
  - unfold applyGroup, canRemoveGroup.
    destruct (gameOver d) eqn:Eg; cbn [negb fst]; [exact Hok|].
    destruct (GameConfig.minGroupSize <=? size) eqn:E; cbn [negb fst];
      [|exact Hok].
    apply Z.leb_le in E. unfold GameConfig.minGroupSize in E.
    destruct (Hrun eq_refl) as (R1 & R2 & R3).
    apply (stateFacts_update d); auto; cbn;
      unfold GameConfig.baseScorePerTile; lia.
  - unfold applyBomb.
    destruct (gameOver d) eqn:Eg; cbn [orb fst]; [exact Hok|].
    destruct (count <=? 0) eqn:E; cbn [fst]; [exact Hok|].
    apply Z.leb_gt in E. destruct (Hrun eq_refl) as (R1 & R2 & R3).
    apply (stateFacts_update d); auto; cbn;
      unfold GameConfig.baseScorePerTile; lia.
  - unfold useReshuffle, canUseReshuffle.
    destruct (gameOver d) eqn:Eg; cbn [negb fst]; [exact Hok|].
    destruct (0 <? reshufflesLeft d) eqn:E; cbn [negb fst]; [|exact Hok].
    unfold stateFacts. cbn. rewrite Eg.
    repeat split; auto; try lia; try apply (Hrun eq_refl); discriminate.
  - unfold useBomb, canUseBomb.
    destruct (gameOver d) eqn:Eg; cbn [negb fst]; [exact Hok|].
    destruct (0 <? bombsLeft d) eqn:E; cbn [negb fst]; [|exact Hok].
    unfold stateFacts. cbn. rewrite Eg.
    repeat split; auto; try lia; try apply (Hrun eq_refl); discriminate.
  - unfold useTeleport, canUseTeleport.
    destruct (gameOver d) eqn:Eg; cbn [negb fst]; [exact Hok|].
    destruct (0 <? teleportsLeft d) eqn:E; cbn [negb fst]; [|exact Hok].
    unfold stateFacts. cbn. rewrite Eg.
    repeat split; auto; try lia; try apply (Hrun eq_refl); discriminate.
Qed.

Lemma reachable_stateFacts d : reachable d -> stateFacts d.
Proof.
  induction 1 as [|d c _ IH];
    [apply stateFacts_new | apply stateFacts_exec, IH].
Qed.
End GameStateMore.

Section GameStateTheorems.
Import GameState.
Local Open Scope Z_scope.

(** X11.  In every state a fresh GameState reaches through its methods:
    the target score is the configured one, the score is not negative and
    no counter exceeds its starting value; a game that is not over has no
    reason recorded, a score below the target and at least one move left;
    a game that is over was either won, with the score at or above the
    target, or lost, with the score below the target and no move left. *)
Theorem reachable_state_consistent (d : GameStateData) :
  reachable d ->
  targetScore d = GameConfig.targetScore
  /\ 0 <= score d
  /\ movesLeft d <= GameConfig.startMoves
  /\ reshufflesLeft d <= GameConfig.reshuffleLimit
  /\ bombsLeft d <= GameConfig.startBombs
  /\ teleportsLeft d <= GameConfig.startTeleports
  /\ (gameOver d = false ->
      gameOverReason d = None /\ score d < targetScore d
      /\ 1 <= movesLeft d)
  /\ (gameOver d = true ->
      (gameOverReason d = Some win /\ targetScore d <= score d)
      \/ (gameOverReason d = Some lose /\ score d < targetScore d
          /\ movesLeft d = 0)).
Proof. intros H. exact (reachable_stateFacts d H). Qed.

Lemma reachable_state_consistent_witness :
  let d := exec (exec new (CallApplyGroup 30)) (CallApplyGroup 30) in
  targetScore d = GameConfig.targetScore
  /\ 0 <= score d
  /\ movesLeft d <= GameConfig.startMoves
  /\ reshufflesLeft d <= GameConfig.reshuffleLimit
  /\ bombsLeft d <= GameConfig.startBombs
  /\ teleportsLeft d <= GameConfig.startTeleports
  /\ (gameOver d = false ->
      gameOverReason d = None /\ score d < targetScore d
      /\ 1 <= movesLeft d)
  /\ (gameOver d = true ->
      (gameOverReason d = Some win /\ targetScore d <= score d)
      \/ (gameOverReason d = Some lose /\ score d < targetScore d
          /\ movesLeft d = 0)).
Proof.
  apply (reachable_state_consistent
           (exec (exec new (CallApplyGroup 30)) (CallApplyGroup 30))).
  repeat apply reach_call. apply reach_new.
Defined.

(** X12.  [applyBomb(count)] returns 0 and changes nothing when the game
    is over or [count <= 0].  Otherwise, in a state a fresh GameState
    reaches, it returns [count * baseScorePerTile], adds it to the score
    and touches neither the moves nor any charge; the game is then over
    exactly when the score has reached the target, and the reason is win:
    a bomb never loses the game. *)
Theorem applyBomb_spec (d : GameStateData) (count : Z) :
  reachable d ->
  (gameOver d = true \/ count <= 0 -> applyBomb d count = (d, 0))
  /\ (gameOver d = false -> 0 < count ->
      let d' := fst (applyBomb d count) in
      snd (applyBomb d count) = count * GameConfig.baseScorePerTile
      /\ score d' = score d + count * GameConfig.baseScorePerTile
      /\ movesLeft d' = movesLeft d
      /\ reshufflesLeft d' = reshufflesLeft d
      /\ bombsLeft d' = bombsLeft d
      /\ teleportsLeft d' = teleportsLeft d
      /\ (targetScore d <= score d' ->
          gameOver d' = true /\ gameOverReason d' = Some win)
      /\ (score d' < targetScore d ->
          gameOver d' = false /\ gameOverReason d' = None)
      /\ gameOverReason d' <> Some lose).
Proof.
  intros Hr. apply reachable_stateFacts in Hr.
  destruct Hr as (_ & _ & _ & _ & _ & _ & Hrun & _). split.
  - intros [H|H]; unfold applyBomb; [by rewrite H|].
    replace (count <=? 0) with true by lia. by rewrite orb_true_r.
  - intros Hg Hc. cbn zeta. unfold applyBomb. rewrite Hg.
    replace (count <=? 0) with false by lia. cbn [orb fst snd].
    destruct (Hrun Hg) as (R1 & R2 & R3).
    match goal with |- context [updateGameOver ?x] =>
      destruct (updateGameOver_fields x) as (F1 & F2 & F3 & F4 & F5 & F6);
      destruct (updateGameOver_cases x) as (C1 & C2 & C3);
      [exact Hg | cbn; lia |];
      set (d' := updateGameOver x) in * end.
    cbn in F1, F2, F3, F4, F5, F6, C1, C2, C3.
    split; [reflexivity|]. split; [exact F1|]. split; [exact F2|].
    split; [exact F3|]. split; [exact F4|]. split; [exact F5|].
    split; [|split].
    + intros H. apply C1. lia.
    + intros H. destruct C3 as [G R]; [lia|lia|]. split; [exact G|].
      by rewrite R.
    + destruct (Z_lt_le_dec (score d + count * GameConfig.baseScorePerTile)
                  (targetScore d)) as [Hlt|Hge].
      * destruct C3 as [_ R]; [lia|lia|]. rewrite R, R1. discriminate.
      * destruct C1 as [_ R]; [lia|]. rewrite R. discriminate.
Qed.

Lemma applyBomb_spec_witness :
  let d := exec new (CallApplyGroup 3) in
  (gameOver d = true \/ 9 <= 0 -> applyBomb d 9 = (d, 0))
  /\ (gameOver d = false -> 0 < 9 ->
      let d' := fst (applyBomb d 9) in
      snd (applyBomb d 9) = 9 * GameConfig.baseScorePerTile
      /\ score d' = score d + 9 * GameConfig.baseScorePerTile
      /\ movesLeft d' = movesLeft d
      /\ reshufflesLeft d' = reshufflesLeft d
      /\ bombsLeft d' = bombsLeft d
      /\ teleportsLeft d' = teleportsLeft d
      /\ (targetScore d <= score d' ->
          gameOver d' = true /\ gameOverReason d' = Some win)
      /\ (score d' < targetScore d ->
          gameOver d' = false /\ gameOverReason d' = None)
      /\ gameOverReason d' <> Some lose).
Proof.
  apply (applyBomb_spec (exec new (CallApplyGroup 3)) 9).
  apply reach_call, reach_new.
Defined.

(** X13.  Game over is final: once [gameOver] is set, [applyGroup] and
    [applyBomb] return 0, [useReshuffle], [useBomb] and [useTeleport]
    return false, [canRemoveGroup] and the three [canUse...] tests are
    false, and none of the calls changes the state. *)
Theorem game_over_is_final (d : GameStateData) (n : Z) :
  gameOver d = true ->
  applyGroup d n = (d, 0)
  /\ applyBomb d n = (d, 0)
  /\ useReshuffle d = (d, false)
  /\ useBomb d = (d, false)
  /\ useTeleport d = (d, false)
  /\ canRemoveGroup d n = false
  /\ canUseReshuffle d = false
  /\ canUseBomb d = false
  /\ canUseTeleport d = false
  /\ (forall c, exec d c = d).
Proof.
  intros H.
  unfold applyGroup, applyBomb, useReshuffle, useBomb, useTeleport,
    canRemoveGroup, canUseReshuffle, canUseBomb, canUseTeleport.
  rewrite H. cbn. repeat split.
  intros [size|count| | |]; cbn [exec];
    unfold applyGroup, applyBomb, useReshuffle, useBomb, useTeleport,
      canRemoveGroup, canUseReshuffle, canUseBomb, canUseTeleport;
    by rewrite H.
Qed.

Lemma game_over_is_final_witness :
  let d := exec new (CallApplyGroup 50) in
  applyGroup d 7 = (d, 0)
  /\ applyBomb d 7 = (d, 0)
  /\ useReshuffle d = (d, false)
  /\ useBomb d = (d, false)
  /\ useTeleport d = (d, false)
  /\ canRemoveGroup d 7 = false
  /\ canUseReshuffle d = false
  /\ canUseBomb d = false
  /\ canUseTeleport d = false
  /\ (forall c, exec d c = d).
Proof.
  apply (game_over_is_final (exec new (CallApplyGroup 50)) 7).
  reflexivity.
Defined.
End GameStateTheorems.

(** * The reshuffle counter *)

Section NoMovesFacts.
Import NoMovesManager.
Local Open Scope Z_scope.

Lemma useReshuffle_iter (maxR : Z) (n : nat) :
  0 <= maxR ->
  Nat.iter n (fun m => fst (useReshuffle m)) (new maxR)
  = mk maxR (Z.max 0 (maxR - Z.of_nat n)).
Proof.
  intros Hmax. induction n as [|n IH].
  - cbn. unfold new. f_equal. lia.
  - rewrite Nat.iter_succ, IH. unfold useReshuffle. cbn [reshufflesLeft].
    destruct (Z.max 0 (maxR - Z.of_nat n) <=? 0) eqn:E;
      [apply Z.leb_le in E | apply Z.leb_gt in E]; cbn [fst maxReshuffles];
      f_equal; lia.
Qed.

(** X14.  A NoMovesManager built with a limit [max >= 0] grants exactly
    [max] reshuffles: after [n] calls of [useReshuffle()] it has
    [max - n] left, or 0 once [n] exceeds [max]; the next call succeeds,
    and [canReshuffle()] is true, exactly when [n < max]; the count left
    never goes below 0; [reset()] brings back the full limit. *)
Theorem reshuffle_budget (maxR : Z) (n : nat) :
  0 <= maxR ->
  let m := Nat.iter n (fun m => fst (useReshuffle m)) (new maxR) in
  getReshufflesLeft m = Z.max 0 (maxR - Z.of_nat n)
  /\ 0 <= getReshufflesLeft m
  /\ snd (useReshuffle m) = bool_decide (Z.of_nat n < maxR)
  /\ canReshuffle m = bool_decide (Z.of_nat n < maxR)
  /\ reset m = new maxR.
Proof.
  intros Hmax. cbn zeta. rewrite (useReshuffle_iter maxR n Hmax).
  unfold getReshufflesLeft, useReshuffle, canReshuffle, reset, new.
  cbn [reshufflesLeft maxReshuffles].
  split; [reflexivity|]. split; [lia|].
  destruct (decide (Z.of_nat n < maxR)) as [Hlt|Hge].
  - rewrite bool_decide_eq_true_2 by exact Hlt.
    replace (Z.max 0 (maxR - Z.of_nat n) <=? 0) with false by lia.
    replace (0 <? Z.max 0 (maxR - Z.of_nat n)) with true by lia.
    by cbn.
  - rewrite bool_decide_eq_false_2 by exact Hge.
    replace (Z.max 0 (maxR - Z.of_nat n) <=? 0) with true by lia.
    replace (0 <? Z.max 0 (maxR - Z.of_nat n)) with false by lia.
    by cbn.
Qed.

Lemma reshuffle_budget_witness :
  let m := Nat.iter 4 (fun m => fst (useReshuffle m)) (new 3) in
  getReshufflesLeft m = Z.max 0 (3 - Z.of_nat 4)
  /\ 0 <= getReshufflesLeft m
  /\ snd (useReshuffle m) = bool_decide (Z.of_nat 4 < 3)
  /\ canReshuffle m = bool_decide (Z.of_nat 4 < 3)
  /\ reset m = new 3.
Proof. apply (reshuffle_budget 3 4). lia. Defined.
End NoMovesFacts.

(** * Further properties of the controllers *)

Section TeleportMore.
Import TeleportController.
Local Open Scope Z_scope.

Lemma swapTiles_keeps b p q :
  wfBoard b ->
  wfBoard (swapTiles b p q)
  /\ countNonEmptyTiles (swapTiles b p q) = countNonEmptyTiles b.
Proof.
  intros Hwf.
  destruct (inBounds b (row p) (col p)) eqn:Hp.
  - destruct (inBounds b (row q) (col q)) eqn:Hq.
    + destruct (swapTiles_facts b p q Hwf Hp Hq)
        as (H1 & _ & _ & _ & _ & _ & H2 & _). by split.
    + rewrite swapTiles_out_of_bounds by auto. by split.
  - rewrite swapTiles_out_of_bounds by auto. by split.
Qed.

(** X15.  A click handled by a teleport controller attached to a board
    of the declared geometry never changes the geometry of the board nor
    [countNonEmptyTiles()].  It returns no result exactly when the
    controller is inactive.  Unless the result is a swap, the board and
    the mode are as before; when the result is [swap(from, to)], [from]
    was the selection, [to] is the clicked cell, the two are at Manhattan
    distance 1, the board is [swapTiles(from, to)] of the old one, and the
    controller is left inactive with nothing selected. *)
Theorem teleport_click_effect
    (b : BoardModel) (act : bool) (sel : option TilePos) (r c : Z) :
  wfBoard b ->
  let tc := mk (Some b) act sel in
  let tc' := fst (handleClick tc r c) in
  let res := snd (handleClick tc r c) in
  exists b',
    boardModel tc' = Some b'
    /\ wfBoard b'
    /\ countNonEmptyTiles b' = countNonEmptyTiles b
    /\ (res = None <-> act = false)
    /\ ((forall f t, res <> Some (swap f t)) ->
        b' = b /\ active tc' = act)
    /\ (forall f t, res = Some (swap f t) ->
        sel = Some f /\ t = mkPos r c /\ manhattan f t = 1
        /\ b' = swapTiles b f t
        /\ active tc' = false /\ first tc' = None).
Proof.
  intros Hwf. cbn zeta. unfold handleClick. cbn [active boardModel first].
  destruct act; cbn [negb].
  2:{ exists b. cbn. split; [reflexivity|]. split; [exact Hwf|].
      repeat split; intros; auto; discriminate. }
  destruct sel as [f|].
  2:{ exists b. cbn. split; [reflexivity|]. split; [exact Hwf|].
      repeat split; intros; auto; discriminate. }
  cbn [row col].
  destruct (bool_decide (row f = r) && bool_decide (col f = c)) eqn:Esame.
  { exists b. cbn. split; [reflexivity|]. split; [exact Hwf|].
      repeat split; intros; auto; discriminate. }
  destruct (bool_decide (Z.abs (row f - r) + Z.abs (col f - c) = 1))
    eqn:Eadj; cbn [negb].
  2:{ exists b. cbn. split; [reflexivity|]. split; [exact Hwf|].
      repeat split; intros; auto; discriminate. }
  apply bool_decide_eq_true in Eadj.
  destruct (swapTiles_keeps b f (mkPos r c) Hwf) as [Hwf' Hcnt].
  exists (swapTiles b f (mkPos r c)). cbn [fst snd boardModel active first].
  split; [reflexivity|]. split; [exact Hwf'|]. split; [exact Hcnt|].
  split; [split; discriminate|]. split.
  - intros H. exfalso. by apply (H f (mkPos r c)).
  - intros f' t [= <- <-]. repeat split; auto.
Qed.

Lemma teleport_click_effect_witness :
  let b := randomFill (fun _ _ => 0%nat) (newBoardModel 2 2 TILE_COLORS) in
  let tc := mk (Some b) true (Some (mkPos 0 0)) in
  let tc' := fst (handleClick tc 0 1) in
  let res := snd (handleClick tc 0 1) in
  exists b',
    boardModel tc' = Some b'
    /\ wfBoard b'
    /\ countNonEmptyTiles b' = countNonEmptyTiles b
    /\ (res = None <-> true = false)
    /\ ((forall f t, res <> Some (swap f t)) ->
        b' = b /\ active tc' = true)
    /\ (forall f t, res = Some (swap f t) ->
        Some (mkPos 0 0) = Some f /\ t = mkPos 0 1 /\ manhattan f t = 1
        /\ b' = swapTiles b f t
        /\ active tc' = false /\ first tc' = None).
Proof.
  apply (teleport_click_effect
           (randomFill (fun _ _ => 0%nat) (newBoardModel 2 2 TILE_COLORS))
           true (Some (mkPos 0 0)) 0 1).
  split; split; vm_compute; repeat constructor.
Defined.
End TeleportMore.

Section BlastFacts.
Local Open Scope Z_scope.

Lemma length_collect {A} n (f : Z -> list A) :
  Z.of_nat (length (collect n f))
  = sumZ n (fun i => Z.of_nat (length (f i))).
Proof.
  induction n as [|n IH]; [reflexivity|].
  rewrite collect_S, length_app, sumZ_S. lia.
Qed.

(** The cells a bomb click returns. *)
Lemma bomb_cells_facts b R r0 c0 :
  let cells :=
    snd (BombController.handleClick (BombController.mk (Some b) true R)
           r0 c0) in
  (forall p, p ∈ cells <->
     inBounds b (row p) (col p) = true
     /\ cellAt (grid b) (row p) (col p) <> None
     /\ chebyshev p (mkPos r0 c0) <= R)
  /\ NoDup cells.
Proof.
  cbn zeta. rewrite handleClick_active. cbn [snd]. split.
  - intros p. rewrite elem_of_collect. split.
    + intros (i & Hi & Hp). apply elem_of_collect in Hp as (j & Hj & Hp).
      apply elem_of_bombCell in Hp as (-> & Hin & Hocc).
      unfold chebyshev. cbn [row col]. repeat split; auto. lia.
    + intros (Hin & Hocc & Hd). destruct p as [r c].
      unfold chebyshev in Hd. cbn [row col] in *.
      exists (r - (r0 - R)). split; [lia|].
      apply elem_of_collect. exists (c - (c0 - R)). split; [lia|].
      apply elem_of_bombCell.
      replace (r0 - R + (r - (r0 - R))) with r by lia.
      replace (c0 - R + (c - (c0 - R))) with c by lia. auto.
  - apply NoDup_collect.
    + intros i _. apply NoDup_collect.
      * intros j _. unfold bombCell.
        destruct ((_ <? 0) || _ || _ || _)%bool; [constructor|].
        destruct (cellAt _ _ _); [apply NoDup_singleton | constructor].
      * intros j j' x Hj Hj' H1 H2.
        apply elem_of_bombCell in H1 as (-> & _).
        apply elem_of_bombCell in H2 as (H2 & _).
        inversion H2. lia.
    + intros i i' x Hi Hi' H1 H2.
      apply elem_of_collect in H1 as (j & _ & H1).
      apply elem_of_collect in H2 as (j' & _ & H2).
      apply elem_of_bombCell in H1 as (-> & _).
      apply elem_of_bombCell in H2 as (H2 & _).
      inversion H2. lia.
Qed.

(** X16.  A bomb, then the removal GameController performs with its
    result: on a board of the declared geometry, after [removeGroup] of
    the cells an active bomb controller returns for a click, every cell
    within Chebyshev distance [radius] of the click is empty, every other
    cell is as before, and [countNonEmptyTiles()] has dropped by the
    number of returned cells. *)
Theorem bomb_then_removeGroup (b : BoardModel) (R r0 c0 : Z) :
  wfBoard b ->
  let cells :=
    snd (BombController.handleClick (BombController.mk (Some b) true R)
           r0 c0) in
  let b' := removeGroup b cells in
  wfBoard b'
  /\ (forall r c, chebyshev (mkPos r c) (mkPos r0 c0) <= R ->
        cellAt (grid b') r c = None)
  /\ (forall r c, R < chebyshev (mkPos r c) (mkPos r0 c0) ->
        cellAt (grid b') r c = cellAt (grid b) r c)
  /\ countNonEmptyTiles b' = countNonEmptyTiles b - Z.of_nat (length cells).
Proof.
  intros Hwf. cbn zeta.
  destruct (bomb_cells_facts b R r0 c0) as [Hmem Hnd]. cbn zeta in Hmem, Hnd.
  set (cells := snd _) in *.
  split; [by apply removeGroup_wf|]. split; [|split].
  - intros r c Hd. rewrite removeGroup_cellAt by exact Hwf.
    destruct (decide (mkPos r c ∈ cells)) as [_|Hn]; [reflexivity|].
    destruct (cellAt (grid b) r c) eqn:E; [|reflexivity].
    exfalso. apply Hn, Hmem. cbn [row col]. rewrite E.
    split; [|split; [discriminate|exact Hd]].
    destruct (inBounds b r c) eqn:Hin; [reflexivity|].
    apply inBounds_false in Hin.
    rewrite (cellAt_outside _ _ _ _ _ (proj1 Hwf) Hin) in E. discriminate.
  - intros r c Hd. rewrite removeGroup_cellAt by exact Hwf.
    destruct (decide (mkPos r c ∈ cells)) as [Hy|_]; [|reflexivity].
    apply Hmem in Hy as (_ & _ & Hy). cbn [row col] in Hy. lia.
  - apply removeGroup_count; [exact Hwf|exact Hnd|].
    intros p Hp%Hmem. tauto.
Qed.

Lemma bomb_then_removeGroup_witness :
  let b := randomFill (fun _ _ => 0%nat) (newBoardModel 3 3 TILE_COLORS) in
  let cells :=
    snd (BombController.handleClick (BombController.mk (Some b) true 1)
           0 0) in
  let b' := removeGroup b cells in
  wfBoard b'
  /\ (forall r c, chebyshev (mkPos r c) (mkPos 0 0) <= 1 ->
        cellAt (grid b') r c = None)
  /\ (forall r c, 1 < chebyshev (mkPos r c) (mkPos 0 0) ->
        cellAt (grid b') r c = cellAt (grid b) r c)
  /\ countNonEmptyTiles b' = countNonEmptyTiles b - Z.of_nat (length cells).
Proof.
  apply (bomb_then_removeGroup
           (randomFill (fun _ _ => 0%nat) (newBoardModel 3 3 TILE_COLORS))
           1 0 0).
  split; split; vm_compute; repeat constructor.
Defined.

(** The list [explode] collects. *)
Lemma explode_cells_facts b :
  let removed :=
    collect (Z.to_nat (rows b)) (fun r =>
      collect (Z.to_nat (cols b)) (fun c =>
        match cellAt (grid b) r c with
        | Some _ => [mkPos r c]
        | None => []
        end)) in
  (forall p, p ∈ removed <->
     inBounds b (row p) (col p) = true
     /\ cellAt (grid b) (row p) (col p) <> None)
  /\ NoDup removed
  /\ Z.of_nat (length removed) = countNonEmptyTiles b.
Proof.
  cbn zeta. split; [|split].
  - intros p. rewrite elem_of_collect. split.
    + intros (r & Hr & (c & Hc & Hp)%elem_of_collect).
      destruct (cellAt (grid b) r c) eqn:E; [|by apply elem_of_nil in Hp].
      apply list_elem_of_singleton in Hp as ->. cbn [row col].
      split; [apply inBounds_spec; lia | by rewrite E].
    + intros (Hin%inBounds_spec & Hocc). destruct p as [r c].
      cbn [row col] in *. exists r. split; [lia|].
      apply elem_of_collect. exists c. split; [lia|].
      destruct (cellAt (grid b) r c); [|congruence].
      by apply list_elem_of_singleton.
  - apply NoDup_collect.
    + intros r _. apply NoDup_collect.
      * intros c _. destruct (cellAt _ _ _);
          [apply NoDup_singleton | constructor].
      * intros c c' x Hc Hc' H1 H2.
        destruct (cellAt (grid b) r c); [|by apply elem_of_nil in H1].
        destruct (cellAt (grid b) r c'); [|by apply elem_of_nil in H2].
        apply list_elem_of_singleton in H1 as ->.
        apply list_elem_of_singleton in H2. inversion H2. lia.
    + intros r r' x Hr Hr' H1 H2.
      apply elem_of_collect in H1 as (c & _ & H1).
      apply elem_of_collect in H2 as (c' & _ & H2).
      destruct (cellAt (grid b) r c); [|by apply elem_of_nil in H1].
      destruct (cellAt (grid b) r' c'); [|by apply elem_of_nil in H2].
      apply list_elem_of_singleton in H1 as ->.
      apply list_elem_of_singleton in H2. inversion H2. lia.
  - rewrite countNonEmptyTiles_countCells, length_collect.
    unfold countCells. apply sumZ_ext. intros r _.
    rewrite length_collect. apply sumZ_ext. intros c _.
    unfold occupied. by destruct (cellAt (grid b) r c).
Qed.

Lemma explode_loop_collect b :
  loopUp (Z.to_nat (rows b)) (fun r removed =>
    loopUp (Z.to_nat (cols b)) (fun c removed =>
      match cellAt (grid b) r c with
      | Some _ => removed ++ [mkPos r c]
      | None => removed
      end) removed) []
  = collect (Z.to_nat (rows b)) (fun r =>
      collect (Z.to_nat (cols b)) (fun c =>
        match cellAt (grid b) r c with
        | Some _ => [mkPos r c]
        | None => []
        end)).
Proof.
  unfold collect at 1. apply loopUp_ext. intros r acc _.
  rewrite <- loopUp_collect. apply loopUp_ext. intros c acc' _.
  destruct (cellAt (grid b) r c); [reflexivity | by rewrite app_nil_r].
Qed.

(** [explode] on a mega bomb of the board. *)
Lemma explode_facts b minSize r c :
  wfBoard b ->
  inBounds b r c = true ->
  cellAt (grid b) r c = Some TileColor.MegaBomb ->
  exists b' removed,
    MegaBombController.explode (MegaBombController.mk (Some b) minSize) r c
    = Returns (MegaBombController.mk (Some b') minSize)
        (Some (MegaBombController.mkExplosion removed
                 (countNonEmptyTiles b)))
    /\ 1 <= countNonEmptyTiles b
    /\ Z.of_nat (length removed) = countNonEmptyTiles b
    /\ NoDup removed
    /\ (forall p, p ∈ removed <->
          inBounds b (row p) (col p) = true
          /\ cellAt (grid b) (row p) (col p) <> None)
    /\ wfBoard b'
    /\ (forall r' c', cellAt (grid b') r' c' = None)
    /\ countNonEmptyTiles b' = 0.
Proof.
  intros Hwf Hin Hcell. unfold MegaBombController.explode.
  cbn [MegaBombController.board MegaBombController.minGroupSize].
  apply cellAt_Some_mget in Hcell as Hget.
  rewrite (jsRead_value _ _ _ _ Hget).
  rewrite bool_decide_eq_true_2 by reflexivity. cbn [negb].
  rewrite explode_loop_collect.
  destruct (explode_cells_facts b) as (Hmem & Hnd & Hlen).
  cbn zeta in Hmem, Hnd, Hlen. set (removed := collect _ _) in *.
  assert (Hpos : mkPos r c ∈ removed).
  { apply Hmem. cbn [row col]. split; [exact Hin|]. by rewrite Hcell. }
  assert (Hone : 1 <= countNonEmptyTiles b).
  { rewrite <- Hlen. destruct removed; [by apply elem_of_nil in Hpos|].
    cbn [length]. lia. }
  rewrite bool_decide_eq_false_2 by lia. rewrite Hlen.
  assert (Hempty : forall r' c',
            cellAt (grid (removeGroup b removed)) r' c' = None).
  { intros r' c'. rewrite removeGroup_cellAt by exact Hwf.
    destruct (decide (mkPos r' c' ∈ removed)) as [_|Hn]; [reflexivity|].
    destruct (cellAt (grid b) r' c') eqn:E; [|reflexivity].
    exfalso. apply Hn, Hmem. cbn [row col]. rewrite E.
    split; [|discriminate].
    destruct (inBounds b r' c') eqn:Hin'; [reflexivity|].
    apply inBounds_false in Hin'.
    rewrite (cellAt_outside _ _ _ _ _ (proj1 Hwf) Hin') in E.
    discriminate. }
  exists (removeGroup b removed), removed.
  split; [reflexivity|]. split; [exact Hone|]. split; [exact Hlen|].
  split; [exact Hnd|]. split; [exact Hmem|].
  split; [by apply removeGroup_wf|]. split; [exact Hempty|].
  rewrite countNonEmptyTiles_countCells. apply countCells_empty.
  intros. apply Hempty.
Qed.

(** X17.  On a board of the declared geometry, [explode(row, col)] at a
    cell of the board that holds the MegaBomb color always returns a
    result (the board is never "already empty" there): [removedCells]
    names, once each, exactly the occupied cells of the board,
    [totalTiles] is what [countNonEmptyTiles()] returned before and is at
    least 1, and afterwards every cell of the board is empty. *)
Theorem explode_clears_board (b : BoardModel) (minSize r c : Z) :
  wfBoard b ->
  inBounds b r c = true ->
  cellAt (grid b) r c = Some TileColor.MegaBomb ->
  exists b' removed,
    MegaBombController.explode (MegaBombController.mk (Some b) minSize) r c
    = Returns (MegaBombController.mk (Some b') minSize)
        (Some (MegaBombController.mkExplosion removed
                 (countNonEmptyTiles b)))
    /\ 1 <= countNonEmptyTiles b
    /\ Z.of_nat (length removed) = countNonEmptyTiles b
    /\ NoDup removed
    /\ (forall p, p ∈ removed <->
          inBounds b (row p) (col p) = true
          /\ cellAt (grid b) (row p) (col p) <> None)
    /\ wfBoard b'
    /\ (forall r' c', cellAt (grid b') r' c' = None)
    /\ countNonEmptyTiles b' = 0.
Proof. exact (explode_facts b minSize r c). Qed.
End BlastFacts.

Section MegaBombLife.
Local Open Scope Z_scope.

Lemma createFromGroup_returns b minSize group ctr :
  wfBoard b ->
  inBounds b (row ctr) (col ctr) = true ->
  minSize <= Z.of_nat (length group) ->
  exists b' removed,
    MegaBombController.createFromGroup
      (MegaBombController.mk (Some b) minSize) group ctr
    = Returns (MegaBombController.mk (Some b') minSize)
        (MegaBombController.mkCreation true (Some ctr) removed)
    /\ wfBoard b'
    /\ rows b' = rows b /\ cols b' = cols b
    /\ specialGrid b' = specialGrid (removeGroup b removed)
    /\ cellAt (grid b') (row ctr) (col ctr) = Some TileColor.MegaBomb.
Proof.
  intros Hwf Hin Hsize. unfold MegaBombController.createFromGroup.
  cbn [MegaBombController.board MegaBombController.minGroupSize].
  replace (_ <? minSize) with false by lia.
  set (removed := List.filter _ group).
  pose proof (removeGroup_wf b removed Hwf) as [Hg1 Hs1].
  set (b1 := removeGroup b removed) in *.
  apply inBounds_spec in Hin.
  destruct (wfMatrix_mget _ _ _ _ _ Hg1 (proj1 Hin) (proj2 Hin)) as [x Hx].
  rewrite (jsRead_value _ _ _ _ Hx).
  eexists _, _. split; [reflexivity|].
  split; [split; cbn; [by apply wfMatrix_mset | exact Hs1]|].
  split; [reflexivity|]. split; [reflexivity|]. split; [reflexivity|].
  cbn [grid setGrids].
  eapply cellAt_mset_eq; [exact Hg1 | apply Hin | apply Hin].
Qed.

(** X18.  The life of a mega bomb.  On a board of the declared geometry,
    for a group that [canCreateFromSize] accepts and a center on the
    board: [createFromGroup] returns [created = true]; on the board it
    leaves, the controller's [isMegaBomb(center)] is true, while
    BoardModel's own [isMegaBomb(center)] is false when the special layer
    was unmarked; and [explode(center)] then returns a result whose
    [totalTiles] is the number of tiles left, at least 1, and leaves the
    whole board empty. *)
Theorem mega_bomb_life
    (b : BoardModel) (minSize : Z) (group : list TilePos) (ctr : TilePos) :
  wfBoard b ->
  inBounds b (row ctr) (col ctr) = true ->
  MegaBombController.canCreateFromSize
    (MegaBombController.mk (Some b) minSize) (Z.of_nat (length group))
    = true ->
  exists b1 removed b2 exploded,
    MegaBombController.createFromGroup
      (MegaBombController.mk (Some b) minSize) group ctr
    = Returns (MegaBombController.mk (Some b1) minSize)
        (MegaBombController.mkCreation true (Some ctr) removed)
    /\ MegaBombController.isMegaBomb
         (MegaBombController.mk (Some b1) minSize) (row ctr) (col ctr)
       = Returns (MegaBombController.mk (Some b1) minSize) true
    /\ (Forall (Forall (eq TileSpecial.None)) (specialGrid b) ->
        isMegaBomb b1 (row ctr) (col ctr) = false)
    /\ MegaBombController.explode
         (MegaBombController.mk (Some b1) minSize) (row ctr) (col ctr)
       = Returns (MegaBombController.mk (Some b2) minSize)
           (Some (MegaBombController.mkExplosion exploded
                    (countNonEmptyTiles b1)))
    /\ 1 <= countNonEmptyTiles b1
    /\ (forall r c, cellAt (grid b2) r c = None).
Proof.
  intros Hwf Hin Hsize. unfold MegaBombController.canCreateFromSize in Hsize.
  cbn [MegaBombController.minGroupSize] in Hsize. apply Z.leb_le in Hsize.
  destruct (createFromGroup_returns b minSize group ctr Hwf Hin Hsize)
    as (b1 & removed & Hcreate & Hwf1 & Hr & Hc & Hspec & Hcell).
  assert (Hin1 : inBounds b1 (row ctr) (col ctr) = true).
  { unfold inBounds in *. by rewrite Hr, Hc. }
  destruct (explode_facts b1 minSize (row ctr) (col ctr) Hwf1 Hin1 Hcell)
    as (b2 & exploded & Hexp & Hone & _ & _ & _ & _ & Hempty & _).
  exists b1, removed, b2, exploded.
  split; [exact Hcreate|]. split; [|split; [|split; [exact Hexp|]]].
  - unfold MegaBombController.isMegaBomb. cbn [MegaBombController.board].
    apply cellAt_Some_mget in Hcell.
    rewrite (jsRead_value _ _ _ _ Hcell).
    by rewrite bool_decide_eq_true_2.
  - intros Hnone. unfold isMegaBomb, getSpecial.
    destruct (negb _); [by apply bool_decide_eq_false_2|].
    rewrite Hspec.
    rewrite allNone_specialAt by (by apply removeGroup_allNone).
    by apply bool_decide_eq_false_2.
  - split; [exact Hone | exact Hempty].
Qed.

Lemma mega_bomb_life_witness :
  let b := randomFill (fun _ _ => 0%nat) (newBoardModel 2 3 TILE_COLORS) in
  let group := [mkPos 0 0; mkPos 0 1; mkPos 0 2; mkPos 1 0; mkPos 1 1] in
  let ctr := mkPos 0 1 in
  exists b1 removed b2 exploded,
    MegaBombController.createFromGroup
      (MegaBombController.mk (Some b) 5) group ctr
    = Returns (MegaBombController.mk (Some b1) 5)
        (MegaBombController.mkCreation true (Some ctr) removed)
    /\ MegaBombController.isMegaBomb
         (MegaBombController.mk (Some b1) 5) (row ctr) (col ctr)
       = Returns (MegaBombController.mk (Some b1) 5) true
    /\ (Forall (Forall (eq TileSpecial.None)) (specialGrid b) ->
        isMegaBomb b1 (row ctr) (col ctr) = false)
    /\ MegaBombController.explode
         (MegaBombController.mk (Some b1) 5) (row ctr) (col ctr)
       = Returns (MegaBombController.mk (Some b2) 5)
           (Some (MegaBombController.mkExplosion exploded
                    (countNonEmptyTiles b1)))
    /\ 1 <= countNonEmptyTiles b1
    /\ (forall r c, cellAt (grid b2) r c = None).
Proof.
  apply (mega_bomb_life
           (randomFill (fun _ _ => 0%nat) (newBoardModel 2 3 TILE_COLORS))
           5 [mkPos 0 0; mkPos 0 1; mkPos 0 2; mkPos 1 0; mkPos 1 1]
           (mkPos 0 1)).
  - split; split; vm_compute; repeat constructor.
  - reflexivity.
  - reflexivity.
Defined.
End MegaBombLife.

(** * The event bus *)

Section EventBusFacts.
Context {Handler : Type} `{EqDecision Handler}.
Implicit Types (bus : gmap string (list Handler)) (signal : string).
Implicit Types (handler : Handler) (l : list Handler).
Implicit Types (subs unsubs all : list (string * Handler)).

Lemma indexOf_None l handler :
  EventBus.indexOf l handler = None <-> handler ∉ l.
Proof.
  induction l as [|x l IH]; cbn [EventBus.indexOf].
  - split; [intros _; apply not_elem_of_nil | reflexivity].
  - destruct (decide (x = handler)) as [->|Hne].
    + split; [discriminate | intros Hn; destruct Hn; left].
    + rewrite fmap_None, IH, not_elem_of_cons.
      split; [intros Hn; split; [congruence | exact Hn] | intros [_ Hn]; exact Hn].
Qed.

Lemma indexOf_Some l handler i :
  EventBus.indexOf l handler = Some i ->
  l !! i = Some handler /\ handler ∉ take i l.
Proof.
  revert i. induction l as [|x l IH]; intros i; cbn [EventBus.indexOf].
  - discriminate.
  - destruct (decide (x = handler)) as [->|Hne].
    + intros [= <-]. split; [reflexivity | apply not_elem_of_nil].
    + intros Hi. apply fmap_Some in Hi as (j & Hj & ->).
      destruct (IH j Hj) as [Hl Hn]. split; [exact Hl|].
      cbn [take]. rewrite not_elem_of_cons. split; [congruence | exact Hn].
Qed.

Lemma indexOf_app_fresh l handler :
  handler ∉ l -> EventBus.indexOf (l ++ [handler]) handler = Some (length l).
Proof.
  induction l as [|x l IH]; intros Hn; cbn [EventBus.indexOf app length].
  - rewrite decide_True by reflexivity. reflexivity.
  - apply not_elem_of_cons in Hn as [Hne Hn].
    rewrite decide_False by congruence. rewrite (IH Hn). reflexivity.
Qed.

Lemma delete_app_last l handler : delete (length l) (l ++ [handler]) = l.
Proof.
  induction l as [|x l IH]; cbn; [reflexivity|]. f_equal. exact IH.
Qed.

Lemma filter_other_fresh l handler :
  handler ∉ l -> filter (fun h => h <> handler) l = l.
Proof.
  induction l as [|x l IH]; intros Hn; [reflexivity|].
  apply not_elem_of_cons in Hn as [Hne Hn].
  rewrite filter_cons_True by congruence. f_equal. exact (IH Hn).
Qed.

(** [splice] at the first index takes the handler out of a list that holds
    it once at most. *)
Lemma splice_first_filter l handler :
  NoDup l ->
  match EventBus.indexOf l handler with
  | Some idx => delete idx l
  | None => l
  end = filter (fun h => h <> handler) l.
Proof.
  induction l as [|x l IH]; intros Hnd; [reflexivity|].
  apply NoDup_cons in Hnd as [Hx Hnd]. cbn [EventBus.indexOf].
  destruct (decide (x = handler)) as [->|Hne].
  - rewrite filter_cons_False by (intros Hh; apply Hh; reflexivity).
    cbn. symmetry. exact (filter_other_fresh l handler Hx).
  - rewrite filter_cons_True by exact Hne. specialize (IH Hnd).
    destruct (EventBus.indexOf l handler) as [j|]; cbn; f_equal; exact IH.
Qed.

Lemma tidy_new : EventBus.tidy (@EventBus.new Handler).
Proof.
  intros signal list Hl. unfold EventBus.new, EventBus.t in Hl.
  rewrite lookup_empty in Hl. discriminate.
Qed.

Lemma tidy_handlers bus signal :
  EventBus.tidy bus -> NoDup (EventBus.handlersFor bus signal).
Proof.
  intros Ht. unfold EventBus.handlersFor, EventBus.t.
  destruct (bus !! signal) as [list|] eqn:Hl; cbn.
  - exact (proj2 (Ht signal list Hl)).
  - apply NoDup_nil_2.
Qed.

Lemma tidy_on bus signal handler :
  EventBus.tidy bus -> EventBus.tidy (EventBus.on bus signal handler).
Proof.
  intros Ht. pose proof (tidy_handlers bus signal Ht) as Hnd.
  unfold EventBus.on, EventBus.handlersFor, EventBus.t in *.
  destruct (EventBus.indexOf (default [] (bus !! signal)) handler) eqn:Hi;
    [exact Ht|].
  apply indexOf_None in Hi. intros signal' list Hl. unfold EventBus.t in Hl.
  destruct (decide (signal = signal')) as [<-|Hne].
  - rewrite lookup_insert_eq in Hl. injection Hl as <-. split.
    + intros Hnil. apply app_eq_nil in Hnil as [_ Hnil]. discriminate.
    + apply NoDup_app. split; [exact Hnd|]. split; [|apply NoDup_singleton].
      intros x Hx Hx'. apply list_elem_of_singleton in Hx'. subst x.
      exact (Hi Hx).
  - rewrite lookup_insert_ne in Hl by exact Hne. exact (Ht signal' list Hl).
Qed.

Lemma tidy_off bus signal handler :
  EventBus.tidy bus -> EventBus.tidy (EventBus.off bus signal handler).
Proof.
  intros Ht. unfold EventBus.off, EventBus.t.
  destruct (bus !! signal) as [list|] eqn:Hl; [|exact Ht].
  destruct (Ht signal list Hl) as [_ Hnd].
  rewrite (splice_first_filter list handler Hnd).
  assert (Hnd' : NoDup (filter (fun h => h <> handler) list))
    by (apply NoDup_filter; exact Hnd).
  destruct (filter (fun h => h <> handler) list) as [|x rest] eqn:Hf.
  - intros signal' list' Hl'. unfold EventBus.t in Hl'. apply lookup_delete_Some in Hl' as [_ Hl'].
    exact (Ht signal' list' Hl').
  - intros signal' list' Hl'. unfold EventBus.t in Hl'.
    destruct (decide (signal = signal')) as [<-|Hne].
    + rewrite lookup_insert_eq in Hl'. injection Hl' as <-.
      split; [discriminate | exact Hnd'].
    + rewrite lookup_insert_ne in Hl' by exact Hne. exact (Ht signal' list' Hl').
Qed.

Lemma reachable_tidy bus : EventBus.reachable bus -> EventBus.tidy bus.
Proof.
  induction 1 as [|bus signal handler _ IH|bus signal handler _ IH].
  - exact tidy_new.
  - exact (tidy_on bus signal handler IH).
  - exact (tidy_off bus signal handler IH).
Qed.

Lemma on_handlers bus signal handler signal' :
  EventBus.handlersFor (EventBus.on bus signal handler) signal' =
  if decide (signal' = signal /\ handler ∉ EventBus.handlersFor bus signal)
  then EventBus.handlersFor bus signal ++ [handler]
  else EventBus.handlersFor bus signal'.
Proof.
  unfold EventBus.on, EventBus.handlersFor, EventBus.t.
  destruct (EventBus.indexOf (default [] (bus !! signal)) handler) eqn:Hi.
  - rewrite decide_False; [reflexivity|]. intros [_ Hn].
    apply indexOf_None in Hn. congruence.
  - apply indexOf_None in Hi.
    destruct (decide (signal' = signal)) as [->|Hne].
    + rewrite decide_True by (split; [reflexivity | exact Hi]).
      rewrite lookup_insert_eq. reflexivity.
    + rewrite decide_False by (intros [Heq _]; exact (Hne Heq)).
      rewrite lookup_insert_ne by congruence. reflexivity.
Qed.

Lemma off_handlers bus signal handler signal' :
  EventBus.tidy bus ->
  EventBus.handlersFor (EventBus.off bus signal handler) signal' =
  if decide (signal' = signal)
  then filter (fun h => h <> handler) (EventBus.handlersFor bus signal)
  else EventBus.handlersFor bus signal'.
Proof.
  intros Ht. unfold EventBus.off, EventBus.handlersFor, EventBus.t.
  destruct (bus !! signal) as [list|] eqn:Hl.
  - destruct (Ht signal list Hl) as [_ Hnd].
    change (default [] (Some list)) with list.
    rewrite (splice_first_filter list handler Hnd).
    destruct (filter (fun h => h <> handler) list) as [|x rest] eqn:Hf.
    + destruct (decide (signal' = signal)) as [->|Hne].
      * rewrite lookup_delete_eq. reflexivity.
      * rewrite lookup_delete_ne by congruence. reflexivity.
    + destruct (decide (signal' = signal)) as [->|Hne].
      * rewrite lookup_insert_eq. reflexivity.
      * rewrite lookup_insert_ne by congruence. reflexivity.
  - destruct (decide (signal' = signal)) as [->|Hne]; [|reflexivity].
    rewrite Hl. reflexivity.
Qed.

Lemma tidy_ext bus1 bus2 :
  EventBus.tidy bus1 -> EventBus.tidy bus2 ->
  (forall signal,
     EventBus.handlersFor bus1 signal = EventBus.handlersFor bus2 signal) ->
  bus1 = bus2.
Proof.
  intros H1 H2 He. apply map_eq. intros signal. specialize (He signal).
  unfold EventBus.handlersFor, EventBus.t in He.
  destruct (bus1 !! signal) as [l1|] eqn:E1;
    destruct (bus2 !! signal) as [l2|] eqn:E2; cbn in He.
  - congruence.
  - destruct (H1 signal l1 E1) as [Hne _]. contradiction.
  - destruct (H2 signal l2 E2) as [Hne _]. symmetry in He. contradiction.
  - reflexivity.
Qed.

Lemma tidy_onAll subs bus :
  EventBus.tidy bus -> EventBus.tidy (EventBus.onAll bus subs).
Proof.
  revert bus. induction subs as [|p subs IH]; intros bus Ht; [exact Ht|].
  apply (IH (EventBus.on bus (fst p) (snd p))), tidy_on, Ht.
Qed.

Lemma filter_keep_all (P : Handler -> Prop) `{forall x, Decision (P x)} l :
  (forall x, x ∈ l -> P x) -> filter P l = l.
Proof.
  induction l as [|x l IH]; intros Hall; [reflexivity|].
  rewrite filter_cons_True by (apply Hall; left).
  f_equal. apply IH. intros y Hy. apply Hall. right. exact Hy.
Qed.

Lemma filter_twice (P Q R : Handler -> Prop)
    `{forall x, Decision (P x)} `{forall x, Decision (Q x)}
    `{forall x, Decision (R x)} l :
  (forall x, R x <-> P x /\ Q x) ->
  filter P (filter Q l) = filter R l.
Proof.
  intros Hr. induction l as [|x l IH]; [reflexivity|].
  destruct (decide (Q x)) as [Hq|Hq].
  - rewrite (filter_cons_True Q) by exact Hq.
    destruct (decide (P x)) as [Hp|Hp].
    + rewrite (filter_cons_True P) by exact Hp.
      rewrite (filter_cons_True R) by (apply Hr; split; assumption).
      f_equal. exact IH.
    + rewrite (filter_cons_False P) by exact Hp.
      rewrite (filter_cons_False R) by (intros Hx; apply Hr in Hx; tauto).
      exact IH.
  - rewrite (filter_cons_False Q) by exact Hq.
    rewrite (filter_cons_False R) by (intros Hx; apply Hr in Hx; tauto).
    exact IH.
Qed.

Lemma offAll_handlers subs bus signal :
  EventBus.tidy bus ->
  EventBus.handlersFor (EventBus.offAll bus subs) signal =
  filter (fun h => (signal, h) ∉ subs) (EventBus.handlersFor bus signal).
Proof.
  revert bus. induction subs as [|[s1 h1] subs IH]; intros bus Ht.
  - symmetry. apply filter_keep_all. intros x _. apply not_elem_of_nil.
  - change (EventBus.offAll bus ((s1, h1) :: subs))
      with (EventBus.offAll (EventBus.off bus s1 h1) subs).
    rewrite (IH _ (tidy_off bus s1 h1 Ht)).
    rewrite (off_handlers bus s1 h1 signal Ht).
    destruct (decide (signal = s1)) as [->|Hne].
    + apply filter_twice. intros x. rewrite not_elem_of_cons.
      split; [intros [Hx Hs]; split; [exact Hs | congruence]
             | intros [Hs Hx]; split; [congruence | exact Hs]].
    + apply list_filter_iff. intros x. rewrite not_elem_of_cons.
      split; [intros Hs; split; [congruence | exact Hs] | intros [_ Hs]; exact Hs].
Qed.

Lemma onAll_filter subs all bus signal :
  (forall p, p ∈ subs -> p ∈ all) ->
  filter (fun h => (signal, h) ∉ all)
    (EventBus.handlersFor (EventBus.onAll bus subs) signal) =
  filter (fun h => (signal, h) ∉ all) (EventBus.handlersFor bus signal).
Proof.
  revert bus. induction subs as [|[s1 h1] subs IH]; intros bus Hsub;
    [reflexivity|].
  change (EventBus.onAll bus ((s1, h1) :: subs))
    with (EventBus.onAll (EventBus.on bus s1 h1) subs).
  rewrite IH by (intros p Hp; apply Hsub; right; exact Hp).
  rewrite on_handlers.
  destruct (decide (signal = s1 /\ h1 ∉ EventBus.handlersFor bus s1))
    as [[-> Hn]|_]; [|reflexivity].
  rewrite filter_app, filter_cons_False, filter_nil, app_nil_r;
    [reflexivity|].
  intros Hx. apply Hx, Hsub. left.
Qed.

(** X19.  Whatever sequence of [on] and [off] calls built the bus, no
    handler is registered twice for a signal, so that [emit] calls each
    handler once at most, and the map holds no empty array: a signal has
    an entry exactly when it has a handler. *)
Theorem eventbus_listeners_invariant bus :
  EventBus.reachable bus ->
  forall signal,
    NoDup (EventBus.handlersFor bus signal)
    /\ (EventBus.handlersFor bus signal = [] <-> bus !! signal = None).
Proof.
  intros Hr signal. pose proof (reachable_tidy bus Hr) as Ht.
  split; [exact (tidy_handlers bus signal Ht)|].
  unfold EventBus.handlersFor, EventBus.t.
  destruct (bus !! signal) as [list|] eqn:Hl; cbn.
  - destruct (Ht signal list Hl) as [Hne _]. split; [intros Hnil; contradiction | discriminate].
  - split; reflexivity.
Qed.

(** X20.  Subscribing a handler that was not registered for the signal and
    unsubscribing it again gives back the very same bus, the entry of the
    signal being removed again when it did not exist before. *)
Theorem eventbus_on_off_round_trip bus signal handler :
  EventBus.reachable bus ->
  handler ∉ EventBus.handlersFor bus signal ->
  EventBus.off (EventBus.on bus signal handler) signal handler = bus.
Proof.
  intros Hr Hn. pose proof (reachable_tidy bus Hr) as Ht.
  unfold EventBus.on, EventBus.handlersFor, EventBus.t in *.
  rewrite (proj2 (indexOf_None _ _) Hn).
  unfold EventBus.off, EventBus.t. rewrite lookup_insert_eq.
  rewrite (indexOf_app_fresh _ _ Hn), delete_app_last.
  destruct (bus !! signal) as [list|] eqn:Hl; cbn [default].
  - destruct (Ht signal list Hl) as [Hne _].
    destruct list as [|x rest]; [contradiction|].
    rewrite insert_insert_eq. apply insert_id. exact Hl.
  - rewrite delete_insert_eq. apply delete_id. exact Hl.
Qed.

(** X21.  After [off(signal, handler)] the handlers of the signal are the
    former ones without [handler], in their former order; the handlers of
    every other signal are unchanged. *)
Theorem eventbus_off_unsubscribes bus signal handler :
  EventBus.reachable bus ->
  EventBus.handlersFor (EventBus.off bus signal handler) signal =
    filter (fun h => h <> handler) (EventBus.handlersFor bus signal)
  /\ (handler ∉ EventBus.handlersFor (EventBus.off bus signal handler) signal)
  /\ (forall signal', signal' <> signal ->
        EventBus.handlersFor (EventBus.off bus signal handler) signal' =
        EventBus.handlersFor bus signal').
Proof.
  intros Hr. pose proof (reachable_tidy bus Hr) as Ht.
  pose proof (off_handlers bus signal handler signal Ht) as Hs.
  rewrite decide_True in Hs by reflexivity.
  split; [exact Hs|]. split.
  - rewrite Hs. intros Hin. apply list_elem_of_filter in Hin as [Hne _].
    apply Hne. reflexivity.
  - intros signal' Hne. rewrite (off_handlers bus signal handler signal' Ht).
    rewrite decide_False by exact Hne. reflexivity.
Qed.

(** X22.  A component that subscribes handlers which the bus does not
    hold yet and later unsubscribes all of them, in any order and any
    number of times, leaves the bus exactly as it found it. *)
Theorem eventbus_unsubscribe_all bus subs unsubs :
  EventBus.reachable bus ->
  (forall p, p ∈ subs -> p ∈ unsubs) ->
  (forall signal handler,
     (signal, handler) ∈ unsubs ->
     handler ∉ EventBus.handlersFor bus signal) ->
  EventBus.offAll (EventBus.onAll bus subs) unsubs = bus.
Proof.
  intros Hr Hsub Hfresh. pose proof (reachable_tidy bus Hr) as Ht.
  pose proof (tidy_onAll subs bus Ht) as Ht1.
  apply tidy_ext; [|exact Ht|].
  - clear Hsub Hfresh. revert Ht1. generalize (EventBus.onAll bus subs).
    induction unsubs as [|p unsubs IH]; intros bus' Ht'; [exact Ht'|].
    apply (IH (EventBus.off bus' (fst p) (snd p))), tidy_off, Ht'.
  - intros signal. rewrite (offAll_handlers unsubs _ signal Ht1).
    rewrite (onAll_filter subs unsubs bus signal Hsub).
    apply filter_keep_all. intros x Hx Hin. exact (Hfresh signal x Hin Hx).
Qed.

(** X23.  After [on(signal, handler)] the handler is registered for the
    signal: it is added at the end when it was absent and the list is
    unchanged when it was present, so that subscribing twice is the same
    as subscribing once; other signals are untouched. *)
Theorem eventbus_on_subscribes bus signal handler :
  handler ∈ EventBus.handlersFor (EventBus.on bus signal handler) signal
  /\ EventBus.handlersFor (EventBus.on bus signal handler) signal =
       (if decide (handler ∈ EventBus.handlersFor bus signal)
        then EventBus.handlersFor bus signal
        else EventBus.handlersFor bus signal ++ [handler])
  /\ EventBus.on (EventBus.on bus signal handler) signal handler =
       EventBus.on bus signal handler
  /\ (forall signal', signal' <> signal ->
        EventBus.handlersFor (EventBus.on bus signal handler) signal' =
        EventBus.handlersFor bus signal').
Proof.
  assert (Hlist : EventBus.handlersFor (EventBus.on bus signal handler) signal =
       (if decide (handler ∈ EventBus.handlersFor bus signal)
        then EventBus.handlersFor bus signal
        else EventBus.handlersFor bus signal ++ [handler])).
  { rewrite on_handlers.
    destruct (decide (handler ∈ EventBus.handlersFor bus signal)) as [Hin|Hn].
    - rewrite decide_False; [reflexivity|]. intros [_ Hn]. exact (Hn Hin).
    - rewrite decide_True; [reflexivity|]. split; [reflexivity | exact Hn]. }
  assert (Hin : handler ∈ EventBus.handlersFor (EventBus.on bus signal handler) signal).
  { rewrite Hlist.
    destruct (decide (handler ∈ EventBus.handlersFor bus signal)) as [Hin|Hn];
      [exact Hin|].
    apply elem_of_app. right. apply list_elem_of_singleton. reflexivity. }
  split; [exact Hin|]. split; [exact Hlist|]. split.
  - unfold EventBus.on at 1.
    destruct (EventBus.indexOf
      (default [] (EventBus.on bus signal handler !! signal)) handler) eqn:Hi;
      [reflexivity|].
    apply indexOf_None in Hi. destruct (Hi Hin).
  - intros signal' Hne. rewrite on_handlers.
    rewrite decide_False by (intros [Heq _]; exact (Hne Heq)). reflexivity.
Qed.
End EventBusFacts.

(** * The game controller *)

Section GameControllerFacts.
Local Open Scope Z_scope.

Lemma randomFill_wf b pick : wfBoard (randomFill pick b).
Proof.
  destruct (randomFill_grids b pick) as [Eg Es].
  split; unfold wfMatrix.
  - rewrite Eg, length_fmap, length_seq. split; [reflexivity|].
    apply Forall_fmap, Forall_forall. intros i _. cbn.
    by rewrite length_fmap, length_seq.
  - rewrite Es. apply wfMatrix_replicate.
Qed.

Lemma randomFill_cells b pick r c :
  inBounds b r c = true ->
  cellAt (grid (randomFill pick b)) r c = Some (drawColor b pick r c)
  /\ specialAt (specialGrid (randomFill pick b)) r c = TileSpecial.None.
Proof.
  intros Hin. split.
  - destruct (randomFill_grids b pick) as [Eg _].
    apply inBounds_spec in Hin. apply cellAt_Some_mget, mget_Some.
    split; [lia|]. split; [lia|]. rewrite Eg. eexists. split.
    + rewrite list_lookup_fmap, lookup_seq_lt by lia. reflexivity.
    + rewrite list_lookup_fmap, lookup_seq_lt by lia. cbn.
      by rewrite !Z2Nat.id by lia.
  - apply allNone_specialAt, randomFill_allNone.
Qed.

Lemma interactive_inv g :
  GameController.isGameInteractive g = true ->
  exists b d,
    GameController.boardModel g = Some b
    /\ GameController.gameState g = Some d
    /\ GameState.gameOver d = false
    /\ GameController.isAnimating g = false.
Proof.
  unfold GameController.isGameInteractive.
  destruct (GameController.boardModel g) as [b|]; [|discriminate].
  destruct (GameController.gameState g) as [d|]; [|discriminate].
  intros Hi. apply andb_true_iff in Hi as [Hg Ha].
  apply negb_true_iff in Hg, Ha. exists b, d. auto.
Qed.

Lemma booster_step g k :
  let g' := GameController.onBoosterClick g k in
  (GameController.isTeleportActive g && GameController.isBombActive g = false ->
   GameController.isTeleportActive g' && GameController.isBombActive g' = false)
  /\ GameController.gameState g' = GameController.gameState g
  /\ GameController.boardModel g' = GameController.boardModel g
  /\ GameController.isAnimating g' = GameController.isAnimating g.
Proof.
  destruct g as [bm gs ls tc bc mc an].
  destruct k; cbn [GameController.onBoosterClick];
    unfold GameController.onBoosterTeleportClick,
      GameController.onBoosterBombClick;
    destruct (GameController.isGameInteractive _); cbn [negb];
    try (split; [intros Hx; exact Hx | repeat split]);
    cbn [GameController.gameState]; destruct gs as [d|];
    try (split; [intros Hx; exact Hx | repeat split]).
  - destruct (GameState.canUseTeleport d); cbn [negb];
      [|split; [intros Hx; exact Hx | repeat split]].
    split; [|destruct ls; repeat split].
    intros _. destruct ls; cbn; apply andb_false_r.
  - destruct (GameState.canUseBomb d); cbn [negb];
      [|split; [intros Hx; exact Hx | repeat split]].
    split; [|repeat split]. intros _. reflexivity.
Qed.

(** X24.  Teleport mode and bomb mode are never active together: from a
    state in which they are not, no sequence of clicks on the two booster
    buttons makes them so.  The clicks change neither the board nor the
    turn counters: switching a mode on does not consume the booster. *)
Theorem booster_modes_exclusive g ks :
  GameController.isTeleportActive g && GameController.isBombActive g = false ->
  let g' := foldl GameController.onBoosterClick g ks in
  GameController.isTeleportActive g' && GameController.isBombActive g' = false
  /\ GameController.gameState g' = GameController.gameState g
  /\ GameController.boardModel g' = GameController.boardModel g
  /\ GameController.isAnimating g' = GameController.isAnimating g.
Proof.
  revert g. induction ks as [|k ks IH]; intros g Hx; cbn [foldl].
  - repeat split. exact Hx.
  - destruct (booster_step g k) as (Hk & Hs & Hb & Ha).
    destruct (IH _ (Hk Hx)) as (Hx' & Hs' & Hb' & Ha').
    cbn zeta. split; [exact Hx'|].
    rewrite Hs', Hb', Ha'. auto.
Qed.

(** X25.  A click on a booster button is ignored when the game is not
    interactive (no game, game over, animation running) or the booster is
    used up.  Otherwise it toggles the mode of the button and switches the
    other mode off, and the teleport selection is dropped; the teleport
    button also drops the controller's last selected tile, the bomb
    button keeps it. *)
Theorem booster_click_effect g :
  (GameController.isGameInteractive g = false ->
   forall k, GameController.onBoosterClick g k = g)
  /\ (forall d,
        GameController.gameState g = Some d ->
        GameController.isGameInteractive g = true ->
        let gt := GameController.onBoosterTeleportClick g in
        let gb := GameController.onBoosterBombClick g in
        (GameState.teleportsLeft d <= 0 -> gt = g)
        /\ (0 < GameState.teleportsLeft d ->
            GameController.isTeleportActive gt
              = negb (GameController.isTeleportActive g)
            /\ GameController.isBombActive gt = false
            /\ TeleportController.first (GameController.teleportController gt)
               = None
            /\ GameController.lastSelected gt = None)
        /\ (GameState.bombsLeft d <= 0 -> gb = g)
        /\ (0 < GameState.bombsLeft d ->
            GameController.isBombActive gb
              = negb (GameController.isBombActive g)
            /\ GameController.isTeleportActive gb = false
            /\ TeleportController.first (GameController.teleportController gb)
               = None
            /\ GameController.lastSelected gb
               = GameController.lastSelected g)).
Proof.
  split.
  - intros Hi k. destruct k; cbn [GameController.onBoosterClick];
      unfold GameController.onBoosterTeleportClick,
        GameController.onBoosterBombClick; rewrite Hi; reflexivity.
  - intros d Hd Hi. destruct (interactive_inv g Hi) as (b & d' & Hb & Hd' & Hg & Ha).
    rewrite Hd in Hd'. injection Hd' as <-.
    unfold GameController.onBoosterTeleportClick,
      GameController.onBoosterBombClick.
    rewrite Hi, Hd. cbn [negb].
    unfold GameState.canUseTeleport, GameState.canUseBomb. rewrite Hg.
    cbn zeta. split; [|split; [|split]].
    + intros Hle. rewrite (proj2 (Z.ltb_ge _ _) Hle). reflexivity.
    + intros Hlt. rewrite (proj2 (Z.ltb_lt _ _) Hlt). cbn [negb].
      destruct g as [bm gs ls tc bc mc an]. destruct ls; cbn; auto.
    + intros Hle. rewrite (proj2 (Z.ltb_ge _ _) Hle). reflexivity.
    + intros Hlt. rewrite (proj2 (Z.ltb_lt _ _) Hlt). cbn [negb].
      destruct g as [bm gs ls tc bc mc an]. cbn. auto.
Qed.
(** X26.  Confirming the no-moves popup in an interactive game.  With no
    reshuffle left the game is lost on the spot, whatever moves remain,
    and [onLose] is called once.  Otherwise one reshuffle is spent, the
    board is filled anew, both booster modes and the selection are
    dropped, and the new board is examined: with a move on it the game
    goes on silently; without one the popup is requested again while
    reshuffles remain, and when the spent reshuffle was the last one the
    game is lost and [onLose] is called twice.  The booster controllers
    keep referencing the controller's board. *)
Theorem no_moves_popup_ok pick g b d :
  GameController.boardModel g = Some b ->
  GameController.gameState g = Some d ->
  GameController.attached g ->
  GameController.isGameInteractive g = true ->
  let g' := fst (GameController.onNoMovesPopupOk pick g) in
  let notes := snd (GameController.onNoMovesPopupOk pick g) in
  let b' := randomFill pick b in
  let d1 :=
    GameState.setReshufflesLeft d (GameState.reshufflesLeft d - 1) in
  GameController.attached g'
  /\ (GameState.reshufflesLeft d <= 0 ->
      g' = GameController.setGameState g
             (GameState.setGameOver d GameState.lose)
      /\ notes = [GameController.onLose])
  /\ (0 < GameState.reshufflesLeft d ->
      GameController.boardModel g' = Some b'
      /\ wfBoard b'
      /\ GameController.isTeleportActive g' = false
      /\ GameController.isBombActive g' = false
      /\ GameController.lastSelected g' = None
      /\ (hasAnyMoves b' GameConfig.minGroupSize = true ->
          GameController.gameState g' = Some d1 /\ notes = [])
      /\ (hasAnyMoves b' GameConfig.minGroupSize = false ->
          1 < GameState.reshufflesLeft d ->
          GameController.gameState g' = Some d1
          /\ notes = [GameController.onNoMoves
                        (GameState.reshufflesLeft d - 1)])
      /\ (hasAnyMoves b' GameConfig.minGroupSize = false ->
          GameState.reshufflesLeft d = 1 ->
          GameController.gameState g'
            = Some (GameState.setGameOver d1 GameState.lose)
          /\ notes = [GameController.onLose; GameController.onLose])).
Proof.
  intros Hb Hd Hatt Hi.
  destruct (interactive_inv g Hi) as (b0 & d0 & Hb0 & Hd0 & Hg & Ha).
  rewrite Hd in Hd0. injection Hd0 as <-. clear b0 Hb0.
  destruct g as [bm gs ls tc bc mc an].
  cbn [GameController.boardModel GameController.gameState
       GameController.isAnimating] in Hb, Hd, Ha. subst bm gs an.
  destruct Hatt as (Ht & Hbc & Hmc).
  cbn [GameController.boardModel GameController.teleportController
       GameController.bombController GameController.megaBombController]
    in Ht, Hbc, Hmc.
  unfold GameController.onNoMovesPopupOk. rewrite Hi. cbn [negb].
  cbn [GameController.gameState].
  unfold GameState.useReshuffle, GameState.canUseReshuffle. rewrite Hg.
  destruct (0 <? GameState.reshufflesLeft d) eqn:Hr; cbn [negb].
  - apply Z.ltb_lt in Hr.
    unfold GameController.reshuffleBoard, GameController.setGameState.
    cbn [GameController.boardModel GameController.gameState
         GameState.gameOver GameState.setReshufflesLeft].
    rewrite Hg.
    unfold GameController.ensureHasMoves.
    cbn [GameController.storeBoard GameController.setLastSelected
         GameController.setTeleportController
         GameController.setBombController
         GameController.boardModel GameController.gameState
         GameController.lastSelected GameController.teleportController
         GameController.bombController GameController.megaBombController
         GameController.isAnimating GameState.gameOver
         GameState.setReshufflesLeft].
    rewrite Hg.
    unfold GameState.canUseReshuffle.
    cbn [GameState.gameOver GameState.reshufflesLeft
         GameState.setReshufflesLeft].
    rewrite Hg.
    destruct (hasAnyMoves (randomFill pick b) GameConfig.minGroupSize)
      eqn:Hm.
    + cbn. split; [repeat split|]. split; [lia|]. intros _.
      split; [reflexivity|]. split; [apply randomFill_wf|].
      split; [reflexivity|]. split; [reflexivity|]. split; [reflexivity|].
      split; [intros _; rewrite Hg; split; reflexivity|].
      split; discriminate.
    + destruct (0 <? GameState.reshufflesLeft d - 1) eqn:Hr1; cbn [negb].
      * apply Z.ltb_lt in Hr1. cbn. rewrite Hg. cbn.
        split; [repeat split|]. split; [lia|]. intros _.
        split; [reflexivity|]. split; [apply randomFill_wf|].
        split; [reflexivity|]. split; [reflexivity|]. split; [reflexivity|].
        split; [discriminate|].
        split; [intros _ _; split; reflexivity | intros _ ?; lia].
      * apply Z.ltb_ge in Hr1. cbn. rewrite Hg. cbn.
        split; [repeat split|]. split; [lia|]. intros _.
        split; [reflexivity|]. split; [apply randomFill_wf|].
        split; [reflexivity|]. split; [reflexivity|]. split; [reflexivity|].
        split; [discriminate|].
        split; [intros _ ?; lia | intros _ _; split; reflexivity].
  - apply Z.ltb_ge in Hr. cbn. rewrite Hg. cbn.
    split; [repeat split; assumption|].
    split; [intros _; split; reflexivity | intros ?; lia].
Qed.

(** X27.  Whatever state the controller is in, also after a finished
    game or in the middle of an animation, [initNewGame()] gives an
    interactive game: a completely filled board of the configured size
    with no special tile, the starting counters, both booster modes off,
    nothing selected, and the three booster controllers referencing the
    new board.  The counts of both boosters are announced; a board
    without a move makes the controller ask for a reshuffle, never lose
    the game at once. *)
Theorem initNewGame_spec pick g :
  let g' := fst (GameController.initNewGame pick g) in
  let notes := snd (GameController.initNewGame pick g) in
  let b' :=
    randomFill pick
      (newBoardModel BoardConfig.rows BoardConfig.cols TILE_COLORS) in
  GameController.boardModel g' = Some b'
  /\ wfBoard b'
  /\ rows b' = BoardConfig.rows /\ cols b' = BoardConfig.cols
  /\ (forall r c, inBounds b' r c = true ->
        cellAt (grid b') r c <> None
        /\ specialAt (specialGrid b') r c = TileSpecial.None)
  /\ GameController.gameState g' = Some GameState.new
  /\ GameController.isGameInteractive g' = true
  /\ GameController.attached g'
  /\ GameController.isTeleportActive g' = false
  /\ GameController.isBombActive g' = false
  /\ GameController.lastSelected g' = None
  /\ notes =
       [GameController.onBombsChanged GameConfig.startBombs;
        GameController.onTeleportsChanged GameConfig.startTeleports]
       ++ (if hasAnyMoves b' GameConfig.minGroupSize then []
           else [GameController.onNoMoves GameConfig.reshuffleLimit]).
Proof.
  cbn zeta. unfold GameController.initNewGame.
  set (b' := randomFill pick
               (newBoardModel BoardConfig.rows BoardConfig.cols TILE_COLORS)).
  unfold GameController.ensureHasMoves.
  cbn [GameController.boardModel GameController.gameState].
  change (GameState.gameOver GameState.new) with false. cbn iota.
  change (GameState.canUseReshuffle GameState.new) with true. cbn [negb].
  assert (Hcells : forall r c, inBounds b' r c = true ->
            cellAt (grid b') r c <> None
            /\ specialAt (specialGrid b') r c = TileSpecial.None).
  { intros r c Hin.
    destruct (randomFill_cells
      (newBoardModel BoardConfig.rows BoardConfig.cols TILE_COLORS)
      pick r c Hin) as [Hc Hs].
    fold b' in Hc, Hs. split; [rewrite Hc; discriminate | exact Hs]. }
  destruct (hasAnyMoves b' GameConfig.minGroupSize) eqn:Hm;
    cbn [fst snd GameController.boardModel GameController.gameState
         GameController.lastSelected];
    (split; [reflexivity|]); (split; [apply randomFill_wf|]);
    (split; [reflexivity|]); (split; [reflexivity|]);
    (split; [exact Hcells|]); (split; [reflexivity|]);
    (split; [reflexivity|]); (split; [repeat split|]);
    (split; [reflexivity|]); (split; [reflexivity|]);
    (split; [reflexivity|]); reflexivity.
Qed.
End GameControllerFacts.

(** * Sample runs of the further properties *)

Section SampleRuns.
Local Open Scope Z_scope.

(** A board with three holes, every draw being the first palette color. *)
Lemma refillEmptyCells_spec_witness :
  let b := (mkBoard 3 2 TILE_COLORS
             [[Some TileColor.Green; None];
              [None; Some TileColor.Red];
              [Some TileColor.Blue; None]]
             [[TileSpecial.None; TileSpecial.None];
              [TileSpecial.None; TileSpecial.None];
              [TileSpecial.None; TileSpecial.None]]) in
  let pick := (fun (_ _ : Z) => 0%nat) in
  let b' := fst (refillEmptyCells pick b) in
  let refilled := snd (refillEmptyCells pick b) in
  wfBoard b'
  /\ (forall r c, inBounds b r c = true ->
        cellAt (grid b') r c = refilledCell b pick r c (cellAt (grid b) r c)
        /\ cellAt (grid b') r c <> None)
  /\ (forall m, m ∈ refilled <->
        exists r c, inBounds b r c = true
                    /\ cellAt (grid b) r c = None
                    /\ m = mkRefill (mkPos r c) (drawColor b pick r c))
  /\ NoDup refilled
  /\ countNonEmptyTiles b' = Z.max 0 (rows b) * Z.max 0 (cols b)
  /\ Z.of_nat (length refilled)
     = Z.max 0 (rows b) * Z.max 0 (cols b) - countNonEmptyTiles b.
Proof.
  apply (refillEmptyCells_spec
           (mkBoard 3 2 TILE_COLORS
             [[Some TileColor.Green; None];
              [None; Some TileColor.Red];
              [Some TileColor.Blue; None]]
             [[TileSpecial.None; TileSpecial.None];
              [TileSpecial.None; TileSpecial.None];
              [TileSpecial.None; TileSpecial.None]]) (fun (_ _ : Z) => 0%nat)).
  split; split; vm_compute; repeat constructor.
Defined.

(** A 3 x 2 board with three tiles. *)
Lemma clearAllTiles_spec_witness :
  let b := (mkBoard 3 2 TILE_COLORS
             [[Some TileColor.Green; None];
              [None; Some TileColor.Red];
              [Some TileColor.Blue; None]]
             [[TileSpecial.None; TileSpecial.None];
              [TileSpecial.None; TileSpecial.None];
              [TileSpecial.None; TileSpecial.None]]) in
  let b' := fst (clearAllTiles b) in
  let removed := snd (clearAllTiles b) in
  wfBoard b'
  /\ (forall r c, cellAt (grid b') r c = None)
  /\ (forall p, p ∈ removed <->
        inBounds b (row p) (col p) = true
        /\ cellAt (grid b) (row p) (col p) <> None)
  /\ NoDup removed
  /\ Z.of_nat (length removed) = countNonEmptyTiles b
  /\ countNonEmptyTiles b' = 0.
Proof.
  apply (clearAllTiles_spec
           (mkBoard 3 2 TILE_COLORS
             [[Some TileColor.Green; None];
              [None; Some TileColor.Red];
              [Some TileColor.Blue; None]]
             [[TileSpecial.None; TileSpecial.None];
              [TileSpecial.None; TileSpecial.None];
              [TileSpecial.None; TileSpecial.None]])).
  split; split; vm_compute; repeat constructor.
Defined.

(** A tile swapped with the empty cell next to it. *)
Lemma swapTiles_spec_witness :
  let b := (mkBoard 3 2 TILE_COLORS
             [[Some TileColor.Green; None];
              [None; Some TileColor.Red];
              [Some TileColor.Blue; None]]
             [[TileSpecial.None; TileSpecial.None];
              [TileSpecial.None; TileSpecial.None];
              [TileSpecial.None; TileSpecial.None]]) in
  let p := (mkPos 0 0) in
  let q := (mkPos 0 1) in
  let b' := swapTiles b p q in
  wfBoard b'
  /\ cellAt (grid b') (row p) (col p) = cellAt (grid b) (row q) (col q)
  /\ cellAt (grid b') (row q) (col q) = cellAt (grid b) (row p) (col p)
  /\ specialAt (specialGrid b') (row p) (col p)
     = specialAt (specialGrid b) (row q) (col q)
  /\ specialAt (specialGrid b') (row q) (col q)
     = specialAt (specialGrid b) (row p) (col p)
  /\ (forall r c, mkPos r c <> p -> mkPos r c <> q ->
        cellAt (grid b') r c = cellAt (grid b) r c
        /\ specialAt (specialGrid b') r c = specialAt (specialGrid b) r c)
  /\ countNonEmptyTiles b' = countNonEmptyTiles b
  /\ swapTiles b' p q = b.
Proof.
  apply (swapTiles_spec
           (mkBoard 3 2 TILE_COLORS
             [[Some TileColor.Green; None];
              [None; Some TileColor.Red];
              [Some TileColor.Blue; None]]
             [[TileSpecial.None; TileSpecial.None];
              [TileSpecial.None; TileSpecial.None];
              [TileSpecial.None; TileSpecial.None]]) (mkPos 0 0) (mkPos 0 1)).
  - split; split; vm_compute; repeat constructor.
  - reflexivity.
  - reflexivity.
Defined.

(** A cell of the board and a position outside it. *)
Lemma removeGroup_spec_witness :
  let b := (mkBoard 3 2 TILE_COLORS
             [[Some TileColor.Green; None];
              [None; Some TileColor.Red];
              [Some TileColor.Blue; None]]
             [[TileSpecial.None; TileSpecial.None];
              [TileSpecial.None; TileSpecial.None];
              [TileSpecial.None; TileSpecial.None]]) in
  let group := [mkPos 0 0; mkPos 7 7] in
  let b' := removeGroup b group in
  wfBoard b'
  /\ (forall r c,
        cellAt (grid b') r c
        = if decide (mkPos r c ∈ group) then None else cellAt (grid b) r c)
  /\ ((forall p, p ∈ group -> inBounds b (row p) (col p) = false) -> b' = b)
  /\ (NoDup group ->
      (forall p, p ∈ group ->
         inBounds b (row p) (col p) = true
         /\ cellAt (grid b) (row p) (col p) <> None) ->
      countNonEmptyTiles b'
      = countNonEmptyTiles b - Z.of_nat (length group)).
Proof.
  apply (removeGroup_spec
           (mkBoard 3 2 TILE_COLORS
             [[Some TileColor.Green; None];
              [None; Some TileColor.Red];
              [Some TileColor.Blue; None]]
             [[TileSpecial.None; TileSpecial.None];
              [TileSpecial.None; TileSpecial.None];
              [TileSpecial.None; TileSpecial.None]]) [mkPos 0 0; mkPos 7 7]).
  split; split; vm_compute; repeat constructor.
Defined.

(** Marking the top left cell of a 2 x 2 board. *)
Lemma setSpecial_getSpecial_witness :
  let b := (randomFill (fun _ _ => 0%nat) (newBoardModel 2 2 TILE_COLORS)) in
  let r := 0%Z in
  let c := 0%Z in
  let special := TileSpecial.MegaBomb in
  let b' := setSpecial b r c special in
  wfBoard b'
  /\ grid b' = grid b
  /\ (forall r' c',
        getSpecial b' r' c'
        = if decide (r' = r /\ c' = c /\ inBounds b r c = true) then special
          else getSpecial b r' c')
  /\ (inBounds b r c = false -> b' = b)
  /\ (inBounds b r c = true ->
      isMegaBomb (setSpecial b r c TileSpecial.MegaBomb) r c = true).
Proof.
  apply (setSpecial_getSpecial
           (randomFill (fun _ _ => 0%nat) (newBoardModel 2 2 TILE_COLORS)) 0%Z 0%Z TileSpecial.MegaBomb).
  split; split; vm_compute; repeat constructor.
Defined.

(** A 3 x 2 board with holes. *)
Lemma applyGravity_idempotent_witness :
  let b := (mkBoard 3 2 TILE_COLORS
             [[Some TileColor.Green; None];
              [None; Some TileColor.Red];
              [Some TileColor.Blue; None]]
             [[TileSpecial.None; TileSpecial.None];
              [TileSpecial.None; TileSpecial.None];
              [TileSpecial.None; TileSpecial.None]]) in
  let b1 := fst (applyGravity b) in
  snd (applyGravity b1) = []
  /\ grid (fst (applyGravity b1)) = grid b1.
Proof.
  apply (applyGravity_idempotent
           (mkBoard 3 2 TILE_COLORS
             [[Some TileColor.Green; None];
              [None; Some TileColor.Red];
              [Some TileColor.Blue; None]]
             [[TileSpecial.None; TileSpecial.None];
              [TileSpecial.None; TileSpecial.None];
              [TileSpecial.None; TileSpecial.None]])).
  split; split; vm_compute; repeat constructor.
Defined.

(** An all-green 2 x 2 board at threshold 2. *)
Lemma hasAnyMoves_iff_group_witness :
  let b := (randomFill (fun _ _ => 0%nat) (newBoardModel 2 2 TILE_COLORS)) in
  let minGroupSize := 2%Z in
  (hasAnyMoves b minGroupSize = true <->
   exists r c g, findGroup b r c = Some g /\ (2 <= length g)%nat).
Proof.
  apply (hasAnyMoves_iff_group
           (randomFill (fun _ _ => 0%nat) (newBoardModel 2 2 TILE_COLORS)) 2%Z).
  - split; split; vm_compute; repeat constructor.
  - reflexivity.
Defined.

(** A 2 x 2 board with a mega bomb in its corner. *)
Lemma explode_clears_board_witness :
  let b := (mkBoard 2 2 TILE_COLORS
             [[Some TileColor.MegaBomb; Some TileColor.Green];
              [None; Some TileColor.Blue]]
             [[TileSpecial.None; TileSpecial.None];
              [TileSpecial.None; TileSpecial.None]]) in
  let minSize := 5%Z in
  let r := 0%Z in
  let c := 0%Z in
  exists b' removed,
    MegaBombController.explode (MegaBombController.mk (Some b) minSize) r c
    = Returns (MegaBombController.mk (Some b') minSize)
        (Some (MegaBombController.mkExplosion removed
                 (countNonEmptyTiles b)))
    /\ 1 <= countNonEmptyTiles b
    /\ Z.of_nat (length removed) = countNonEmptyTiles b
    /\ NoDup removed
    /\ (forall p, p ∈ removed <->
          inBounds b (row p) (col p) = true
          /\ cellAt (grid b) (row p) (col p) <> None)
    /\ wfBoard b'
    /\ (forall r' c', cellAt (grid b') r' c' = None)
    /\ countNonEmptyTiles b' = 0.
Proof.
  apply (explode_clears_board
           (mkBoard 2 2 TILE_COLORS
             [[Some TileColor.MegaBomb; Some TileColor.Green];
              [None; Some TileColor.Blue]]
             [[TileSpecial.None; TileSpecial.None];
              [TileSpecial.None; TileSpecial.None]]) 5%Z 0%Z 0%Z).
  - split; split; vm_compute; repeat constructor.
  - reflexivity.
  - reflexivity.
Defined.

(** Two tiles removed from a 3 x 2 board, then gravity and refill. *)
Lemma end_of_turn_pipeline_witness :
  let b := (mkBoard 3 2 TILE_COLORS
             [[Some TileColor.Green; None];
              [None; Some TileColor.Red];
              [Some TileColor.Blue; None]]
             [[TileSpecial.None; TileSpecial.None];
              [TileSpecial.None; TileSpecial.None];
              [TileSpecial.None; TileSpecial.None]]) in
  let group := [mkPos 0 0; mkPos 1 1] in
  let pick := (fun (_ _ : Z) => 0%nat) in
  let b1 := removeGroup b group in
  let b2 := fst (applyGravity b1) in
  let b3 := fst (refillEmptyCells pick b2) in
  let refills := snd (refillEmptyCells pick b2) in
  countNonEmptyTiles b1 = countNonEmptyTiles b - Z.of_nat (length group)
  /\ countNonEmptyTiles b2 = countNonEmptyTiles b1
  /\ wfBoard b3
  /\ (forall r c, inBounds b r c = true -> cellAt (grid b3) r c <> None)
  /\ countNonEmptyTiles b3 = Z.max 0 (rows b) * Z.max 0 (cols b)
  /\ (countNonEmptyTiles b = Z.max 0 (rows b) * Z.max 0 (cols b) ->
      length refills = length group).
Proof.
  apply (end_of_turn_pipeline
           (mkBoard 3 2 TILE_COLORS
             [[Some TileColor.Green; None];
              [None; Some TileColor.Red];
              [Some TileColor.Blue; None]]
             [[TileSpecial.None; TileSpecial.None];
              [TileSpecial.None; TileSpecial.None];
              [TileSpecial.None; TileSpecial.None]])
           [mkPos 0 0; mkPos 1 1] (fun (_ _ : Z) => 0%nat)).
  - split; split; vm_compute; repeat constructor.
  - apply NoDup_cons. split; [|apply NoDup_singleton].
    intros H%list_elem_of_singleton. discriminate.
  - intros p [->|Hp]%elem_of_cons.
    + split; [reflexivity | vm_compute; discriminate].
    + apply list_elem_of_singleton in Hp as ->.
      split; [reflexivity | vm_compute; discriminate].
Defined.

(** The all-green 2 x 2 board, found from (0,0) and from (1,1). *)
Lemma findGroup_same_group_witness :
  let b := (randomFill (fun _ _ => 0%nat) (newBoardModel 2 2 TILE_COLORS)) in
  let r := 0 in
  let c := 0 in
  let g := [mkPos 0 0; mkPos 0 1; mkPos 1 1; mkPos 1 0] in
  let p := mkPos 1 1 in
  exists g',
    findGroup b (row p) (col p) = Some g'
    /\ g' ≡ₚ g
    /\ length g' = length g.
Proof.
  apply (findGroup_same_group
           (randomFill (fun _ _ => 0%nat) (newBoardModel 2 2 TILE_COLORS))
           0 0 [mkPos 0 0; mkPos 0 1; mkPos 1 1; mkPos 1 0] (mkPos 1 1)).
  - split; split; vm_compute; repeat constructor.
  - reflexivity.
  - apply elem_of_cons. right. apply elem_of_cons. right.
    apply list_elem_of_here.
Defined.

(** Two handlers, numbered 1 and 2, subscribed to one signal. *)
Lemma eventbus_listeners_invariant_witness :
  let bus :=
    EventBus.on (EventBus.on EventBus.new "tile-click" 1%nat)
      "tile-click" 2%nat in
  EventBus.reachable bus
  /\ forall signal,
       NoDup (EventBus.handlersFor bus signal)
       /\ (EventBus.handlersFor bus signal = [] <->
           (bus : gmap string (list nat)) !! signal = None).
Proof.
  intros bus.
  assert (Hr : EventBus.reachable bus)
    by (apply EventBus.reach_on, EventBus.reach_on, EventBus.reach_new).
  split; [exact Hr|]. exact (eventbus_listeners_invariant bus Hr).
Defined.

(** Handler 2 subscribes to a signal that handler 1 listens to, and
    leaves again. *)
Lemma eventbus_on_off_round_trip_witness :
  let bus := EventBus.on EventBus.new "tile-click" 1%nat in
  EventBus.reachable bus
  /\ (2%nat ∉ EventBus.handlersFor bus "tile-click")
  /\ EventBus.off (EventBus.on bus "tile-click" 2%nat) "tile-click" 2%nat
     = bus.
Proof.
  intros bus.
  assert (Hr : EventBus.reachable bus)
    by (apply EventBus.reach_on, EventBus.reach_new).
  assert (Hn : 2%nat ∉ EventBus.handlersFor bus "tile-click").
  { assert (Hh : EventBus.handlersFor bus "tile-click" = [1%nat])
      by (vm_compute; reflexivity).
    rewrite Hh. intros Hin. apply list_elem_of_singleton in Hin. discriminate. }
  split; [exact Hr|]. split; [exact Hn|].
  exact (eventbus_on_off_round_trip bus "tile-click" 2%nat Hr Hn).
Defined.

(** Handler 1 leaves a signal that handlers 1, 2 and 3 listen to. *)
Lemma eventbus_off_unsubscribes_witness :
  let bus :=
    EventBus.on (EventBus.on (EventBus.on EventBus.new "win" 1%nat)
      "win" 2%nat) "win" 3%nat in
  EventBus.reachable bus
  /\ EventBus.handlersFor (EventBus.off bus "win" 1%nat) "win" =
       filter (fun h => h <> 1%nat) (EventBus.handlersFor bus "win")
  /\ (1%nat ∉ EventBus.handlersFor (EventBus.off bus "win" 1%nat) "win")
  /\ (forall signal', signal' <> "win" ->
        EventBus.handlersFor (EventBus.off bus "win" 1%nat) signal' =
        EventBus.handlersFor bus signal').
Proof.
  intros bus.
  assert (Hr : EventBus.reachable bus)
    by (apply EventBus.reach_on, EventBus.reach_on, EventBus.reach_on,
          EventBus.reach_new).
  split; [exact Hr|]. exact (eventbus_off_unsubscribes bus "win" 1%nat Hr).
Defined.

(** Three handlers subscribed to two signals of a fresh bus, and
    unsubscribed in another order. *)
Lemma eventbus_unsubscribe_all_witness :
  let bus := @EventBus.new nat in
  let subs := [("win", 1%nat); ("lose", 2%nat); ("win", 3%nat)] in
  let unsubs := [("win", 3%nat); ("win", 1%nat); ("lose", 2%nat)] in
  EventBus.reachable bus
  /\ (forall p, p ∈ subs -> p ∈ unsubs)
  /\ (forall signal handler,
        (signal, handler) ∈ unsubs ->
        handler ∉ EventBus.handlersFor bus signal)
  /\ EventBus.offAll (EventBus.onAll bus subs) unsubs = bus.
Proof.
  intros bus subs unsubs.
  assert (Hr : EventBus.reachable bus) by apply EventBus.reach_new.
  assert (Hsub : forall p, p ∈ subs -> p ∈ unsubs).
  { intros p Hp. apply list_elem_of_In. apply list_elem_of_In in Hp.
    cbn in Hp |- *. tauto. }
  assert (Hfresh : forall signal handler,
            (signal, handler) ∈ unsubs ->
            handler ∉ EventBus.handlersFor bus signal).
  { intros signal handler _. unfold EventBus.handlersFor, bus, EventBus.new,
      EventBus.t.
    rewrite lookup_empty. apply not_elem_of_nil. }
  split; [exact Hr|]. split; [exact Hsub|]. split; [exact Hfresh|].
  exact (eventbus_unsubscribe_all bus subs unsubs Hr Hsub Hfresh).
Defined.

(** A running game on a board of two rows; four clicks on the booster
    buttons. *)
Lemma booster_modes_exclusive_witness :
  let b := mkBoard 2 2 TILE_COLORS
             [[Some TileColor.Green; Some TileColor.Red];
              [Some TileColor.Red; Some TileColor.Green]]
             [[TileSpecial.None; TileSpecial.None];
              [TileSpecial.None; TileSpecial.None]] in
  let g := GameController.mk (Some b) (Some GameState.new) None
             (TeleportController.new (Some b)) (BombController.new (Some b))
             (MegaBombController.mk (Some b) GameConfig.megaBombMinGroupSize)
             false in
  let ks := [GameController.teleport; GameController.bomb;
             GameController.bomb; GameController.teleport] in
  let g' := foldl GameController.onBoosterClick g ks in
  GameController.isTeleportActive g && GameController.isBombActive g = false
  /\ GameController.isTeleportActive g' && GameController.isBombActive g'
     = false
  /\ GameController.gameState g' = GameController.gameState g
  /\ GameController.boardModel g' = GameController.boardModel g
  /\ GameController.isAnimating g' = GameController.isAnimating g.
Proof.
  intros b g ks g'.
  assert (Hx : GameController.isTeleportActive g
               && GameController.isBombActive g = false) by reflexivity.
  split; [exact Hx|]. exact (booster_modes_exclusive g ks Hx).
Defined.

(** The popup is confirmed on a board without moves, with the three
    starting reshuffles; every draw is the first palette color. *)
Lemma no_moves_popup_ok_witness :
  let b := mkBoard 2 2 TILE_COLORS
             [[Some TileColor.Green; Some TileColor.Red];
              [Some TileColor.Red; Some TileColor.Green]]
             [[TileSpecial.None; TileSpecial.None];
              [TileSpecial.None; TileSpecial.None]] in
  let d := GameState.new in
  let g := GameController.mk (Some b) (Some d) (Some (mkPos 0 1))
             (TeleportController.mk (Some b) true (Some (mkPos 0 1)))
             (BombController.new (Some b))
             (MegaBombController.mk (Some b) GameConfig.megaBombMinGroupSize)
             false in
  let pick := (fun (_ _ : Z) => 0%nat) in
  let g' := fst (GameController.onNoMovesPopupOk pick g) in
  let notes := snd (GameController.onNoMovesPopupOk pick g) in
  let b' := randomFill pick b in
  let d1 :=
    GameState.setReshufflesLeft d (GameState.reshufflesLeft d - 1) in
  GameController.boardModel g = Some b
  /\ GameController.gameState g = Some d
  /\ GameController.attached g
  /\ GameController.isGameInteractive g = true
  /\ GameController.attached g'
  /\ (GameState.reshufflesLeft d <= 0 ->
      g' = GameController.setGameState g
             (GameState.setGameOver d GameState.lose)
      /\ notes = [GameController.onLose])
  /\ (0 < GameState.reshufflesLeft d ->
      GameController.boardModel g' = Some b'
      /\ wfBoard b'
      /\ GameController.isTeleportActive g' = false
      /\ GameController.isBombActive g' = false
      /\ GameController.lastSelected g' = None
      /\ (hasAnyMoves b' GameConfig.minGroupSize = true ->
          GameController.gameState g' = Some d1 /\ notes = [])
      /\ (hasAnyMoves b' GameConfig.minGroupSize = false ->
          1 < GameState.reshufflesLeft d ->
          GameController.gameState g' = Some d1
          /\ notes = [GameController.onNoMoves
                        (GameState.reshufflesLeft d - 1)])
      /\ (hasAnyMoves b' GameConfig.minGroupSize = false ->
          GameState.reshufflesLeft d = 1 ->
          GameController.gameState g'
            = Some (GameState.setGameOver d1 GameState.lose)
          /\ notes = [GameController.onLose; GameController.onLose])).
Proof.
  intros b d g pick g' notes b' d1.
  assert (Hb : GameController.boardModel g = Some b) by reflexivity.
  assert (Hd : GameController.gameState g = Some d) by reflexivity.
  assert (Hatt : GameController.attached g) by (repeat split).
  assert (Hi : GameController.isGameInteractive g = true) by reflexivity.
  split; [exact Hb|]. split; [exact Hd|]. split; [exact Hatt|].
  split; [exact Hi|].
  exact (no_moves_popup_ok pick g b d Hb Hd Hatt Hi).
Defined.
End SampleRuns.
